(** * The IPA transport layer of linux-msm8953: BAM transactions and immediate commands

    A shallow embedding of
      - drivers/net/ipa/bam_trans.c   (transaction allocation, commit, callback),
      - the BAM channel code          (update, poll_one, poll, reset),
      - the immediate-command encoders (register write, shared-memory DMA),
    with the properties of the transaction life cycle, of the budgeted
    poll routine and of the command wire layouts.

    Integers of the C code are [Z] with the wrap-around of their width
    written out; pointers to transactions are slot numbers of the
    channel's transaction pool; kernel services (DMA engine, completions,
    reference counts, bit-field helpers) are modelled next to their use. *)

From Stdlib Require Import ZArith List Bool Lia.
From stdpp Require Import base list gmap.

Local Open Scope Z_scope.

(** ** Fixed-width integers *)

Definition u8 (x : Z) : Z := x mod 2 ^ 8.
Definition u16 (x : Z) : Z := x mod 2 ^ 16.
Definition u32 (x : Z) : Z := x mod 2 ^ 32.
Definition u64 (x : Z) : Z := x mod 2 ^ 64.

(** ** Bit-field helpers of linux/bits.h and linux/bitfield.h *)

Module Bitfield.

Definition BITS_PER_LONG : Z := 64.

(** [GENMASK(h, l)]: the bits [l..h] set, on an unsigned long. *)
Definition GENMASK (h l : Z) : Z :=
  Z.land (u64 (Z.ones BITS_PER_LONG - Z.shiftl 1 l + 1))
         (Z.shiftr (Z.ones BITS_PER_LONG) (BITS_PER_LONG - 1 - h)).

(** [field_multiplier(field)]: the lowest set bit of the mask. *)
Definition field_multiplier (field : Z) : Z := Z.land field (- field).

(** [field_mask(field)]: the mask shifted down to bit 0. *)
Definition field_mask (field : Z) : Z := field / field_multiplier field.

Definition u16_encode_bits (v field : Z) : Z :=
  u16 (Z.land v (field_mask field) * field_multiplier field).

Definition u32_get_bits (v field : Z) : Z :=
  Z.land v field / field_multiplier field.

Definition u16_get_bits (v field : Z) : Z :=
  Z.land v field / field_multiplier field.

(** Storing a CPU value in a little-endian field of the given width:
    the field holds the value cut to that width. *)
Definition cpu_to_le16 (x : Z) : Z := u16 x.
Definition cpu_to_le32 (x : Z) : Z := u32 x.
Definition cpu_to_le64 (x : Z) : Z := u64 x.

(** [GENMASK_ULL(h, l)], the same on an unsigned long long. *)
Definition GENMASK_ULL (h l : Z) : Z := GENMASK h l.

Definition u8_encode_bits (v field : Z) : Z :=
  u8 (Z.land v (field_mask field) * field_multiplier field).

Definition u32_encode_bits (v field : Z) : Z :=
  u32 (Z.land v (field_mask field) * field_multiplier field).

Definition u64_encode_bits (v field : Z) : Z :=
  u64 (Z.land v (field_mask field) * field_multiplier field).

Definition u8_get_bits (v field : Z) : Z :=
  Z.land v field / field_multiplier field.

Definition u64_get_bits (v field : Z) : Z :=
  Z.land v field / field_multiplier field.

(** [field_max(field)]: the largest value the field holds. *)
Definition field_max (field : Z) : Z := field_mask field.

(** [hweight32(w)]: the number of bits set in a 32-bit word. *)
Definition hweight32 (w : Z) : Z :=
  fold_right (λ i acc, Z.b2z (Z.testbit w (Z.of_nat i)) + acc) 0 (seq 0 32).

(** A bit-field member of [n] bits holds the value cut to [n] bits. *)
Definition bitfield (n : Z) (x : Z) : Z := x mod 2 ^ n.

End Bitfield.

(** ** Immediate-command payloads (the command builder) *)

Module Cmd.
Import Bitfield.

Inductive dma_data_direction : Set :=
| DMA_BIDIRECTIONAL | DMA_TO_DEVICE | DMA_FROM_DEVICE | DMA_NONE.

(** enum pipeline_clear_options *)
Definition pipeline_clear_hps : Z := 0.
Definition pipeline_clear_src_grp : Z := 1.
Definition pipeline_clear_full : Z := 2.

Definition REGISTER_WRITE_OPCODE_SKIP_CLEAR_FMASK : Z := GENMASK 8 8.
Definition REGISTER_WRITE_OPCODE_CLEAR_OPTION_FMASK : Z := GENMASK 10 9.
Definition REGISTER_WRITE_FLAGS_OFFSET_HIGH_FMASK : Z := GENMASK 14 11.
Definition REGISTER_WRITE_FLAGS_SKIP_CLEAR_FMASK : Z := GENMASK 15 15.
Definition REGISTER_WRITE_CLEAR_OPTIONS_FMASK : Z := GENMASK 1 0.

Definition DMA_SHARED_MEM_CLEAR_AFTER_READ : Z := GENMASK 15 15.
Definition DMA_SHARED_MEM_FLAGS_DIRECTION_FMASK : Z := GENMASK 0 0.
Definition DMA_SHARED_MEM_FLAGS_SKIP_CLEAR_FMASK : Z := GENMASK 1 1.
Definition DMA_SHARED_MEM_FLAGS_CLEAR_OPTIONS_FMASK : Z := GENMASK 3 2.

(** struct ipa_v2_cmd_register_write *)
Record ipa_v2_cmd_register_write : Set := {
  rw2_flags : Z;        (* __le16, bits 0 - 14 are reserved *)
  rw2_offset : Z;       (* __le16 *)
  rw2_value : Z;        (* __le32 *)
  rw2_value_mask : Z    (* __le32 *)
}.

(** struct ipa_cmd_register_write *)
Record ipa_cmd_register_write : Set := {
  rw_flags : Z;         (* __le16, unused/reserved for IPA v3.5.1 *)
  rw_offset : Z;        (* __le16 *)
  rw_value : Z;         (* __le32 *)
  rw_value_mask : Z;    (* __le32 *)
  rw_clear_options : Z  (* __le32, unused/reserved for IPA v4.0+ *)
}.

(** struct ipa_v2_cmd_hw_dma_mem_mem *)
Record ipa_v2_cmd_hw_dma_mem_mem : Set := {
  dm2_reserved_1 : Z;   (* __le16 *)
  dm2_size : Z;         (* __le16 *)
  dm2_system_addr : Z;  (* __le32 *)
  dm2_local_addr : Z;   (* __le16 *)
  dm2_flags : Z;        (* __le16, the least significant 14 bits are reserved *)
  dm2_padding : Z       (* __le32 *)
}.

(** struct ipa_cmd_hw_dma_mem_mem *)
Record ipa_cmd_hw_dma_mem_mem : Set := {
  dm_clear_after_read : Z;  (* __le16 *)
  dm_size : Z;              (* __le16 *)
  dm_local_addr : Z;        (* __le16 *)
  dm_flags : Z;             (* __le16 *)
  dm_system_addr : Z        (* __le64 *)
}.

(** What an encoder hands to [ipa_trans_cmd_add]: the payload, the DMA
    direction of the scatter entry and the opcode. *)
Record cmd_entry (P : Type) : Type := {
  ce_payload : P;
  ce_direction : dma_data_direction;
  ce_opcode : Z
}.
Arguments ce_payload {P} _.
Arguments ce_direction {P} _.
Arguments ce_opcode {P} _.

Section Encoders.
(** Constants of ipa_cmd.h and ipa_version.h. *)
Variable IPA_CMD_REGISTER_WRITE : Z.
Variable IPA_CMD_DMA_SHARED_MEM : Z.
Variable IPA_VERSION_3_5_1 : Z.

(** The payload comes zero-filled from the command pool; a field the
    encoder does not assign stays 0. *)

Definition ipa_v2_cmd_register_write_add
    (offset value mask : Z) (clear_full : bool)
  : cmd_entry ipa_v2_cmd_register_write :=
  let opcode := IPA_CMD_REGISTER_WRITE in
  let clear_option :=
    if clear_full then pipeline_clear_full else pipeline_clear_hps in
  let flags := 0 in
  {| ce_payload :=
       {| rw2_flags := cpu_to_le16 flags;
          rw2_offset := cpu_to_le16 (u16 offset);
          rw2_value := cpu_to_le32 value;
          rw2_value_mask := cpu_to_le32 mask |};
     ce_direction := DMA_NONE;
     ce_opcode := opcode |}.

Definition ipa_v3_cmd_register_write_add
    (version : Z) (offset value mask : Z) (clear_full : bool)
  : cmd_entry ipa_cmd_register_write :=
  let opcode := IPA_CMD_REGISTER_WRITE in
  let clear_option :=
    if clear_full then pipeline_clear_full else pipeline_clear_hps in
  let '(opcode, offset, flags, options) :=
    if negb (version =? IPA_VERSION_3_5_1) then
      let val :=
        u16_encode_bits clear_option
                        REGISTER_WRITE_OPCODE_CLEAR_OPTION_FMASK in
      let opcode := Z.lor opcode val in
      let offset_high := u16 (u32_get_bits offset (GENMASK 19 16)) in
      let offset := Z.land offset (Z.shiftl 1 16 - 1) in
      let flags :=
        u16_encode_bits offset_high
                        REGISTER_WRITE_FLAGS_OFFSET_HIGH_FMASK in
      (opcode, offset, flags, 0)
    else
      (opcode, offset, 0,
       u16_encode_bits clear_option REGISTER_WRITE_CLEAR_OPTIONS_FMASK) in
  {| ce_payload :=
       {| rw_flags := cpu_to_le16 flags;
          rw_offset := cpu_to_le16 (u16 offset);
          rw_value := cpu_to_le32 value;
          rw_value_mask := cpu_to_le32 mask;
          rw_clear_options := cpu_to_le32 options |};
     ce_direction := DMA_NONE;
     ce_opcode := opcode |}.

Definition ipa_v2_cmd_dma_shared_mem_add
    (mem_offset : Z) (offset size addr : Z) (toward_ipa : bool)
  : cmd_entry ipa_v2_cmd_hw_dma_mem_mem :=
  let opcode := IPA_CMD_DMA_SHARED_MEM in
  let offset := u32 (offset + mem_offset) in
  let direction := if toward_ipa then DMA_TO_DEVICE else DMA_FROM_DEVICE in
  (* computed, and not stored: the flags field is assigned 0 below *)
  let flags :=
    u16 (if toward_ipa then 0 else DMA_SHARED_MEM_FLAGS_DIRECTION_FMASK) in
  {| ce_payload :=
       {| dm2_reserved_1 := 0;
          dm2_size := cpu_to_le16 size;
          dm2_system_addr := cpu_to_le32 addr;
          dm2_local_addr := u16 (cpu_to_le32 offset);
          dm2_flags := 0;
          dm2_padding := 0 |};
     ce_direction := direction;
     ce_opcode := opcode |}.

Definition ipa_v3_cmd_dma_shared_mem_add
    (mem_offset : Z) (offset size addr : Z) (toward_ipa : bool)
  : cmd_entry ipa_cmd_hw_dma_mem_mem :=
  let opcode := IPA_CMD_DMA_SHARED_MEM in
  let offset := u32 (offset + mem_offset) in
  let direction := if toward_ipa then DMA_TO_DEVICE else DMA_FROM_DEVICE in
  let flags :=
    u16 (if toward_ipa then 0 else DMA_SHARED_MEM_FLAGS_DIRECTION_FMASK) in
  {| ce_payload :=
       {| dm_clear_after_read := 0;
          dm_size := cpu_to_le16 size;
          dm_local_addr := cpu_to_le16 offset;
          dm_flags := cpu_to_le16 flags;
          dm_system_addr := cpu_to_le64 addr |};
     ce_direction := direction;
     ce_opcode := opcode |}.

(** *** Reading a payload back through the documented bit layout *)

(** Register write, v2 layout: a 16-bit offset, a 32-bit value and a
    32-bit mask. *)
Definition ipa_v2_register_write_decode
    (p : ipa_v2_cmd_register_write) : Z * Z * Z :=
  (rw2_offset p, rw2_value p, rw2_value_mask p).

(** Register write, v3 layout: the low 16 bits of the offset in the
    offset field and, except on IPA v3.5.1, bits 16..19 of the offset
    in bits 11..14 of the flags word. *)
Definition ipa_v3_register_write_decode
    (version : Z) (p : ipa_cmd_register_write) : Z * Z * Z :=
  let high :=
    if negb (version =? IPA_VERSION_3_5_1) then
      u16_get_bits (rw_flags p) REGISTER_WRITE_FLAGS_OFFSET_HIGH_FMASK
    else 0 in
  (Z.lor (Z.shiftl high 16) (rw_offset p), rw_value p, rw_value_mask p).

(** The two families of wire layouts: v2, and v3 for a given
    version of the hardware. *)
Inductive cmd_layout : Set :=
| LayoutV2
| LayoutV3 (version : Z).

(** The documented width of the offset of a register write. *)
Definition register_write_offset_bits (layout : cmd_layout) : Z :=
  match layout with
  | LayoutV2 => 16
  | LayoutV3 version =>
      if negb (version =? IPA_VERSION_3_5_1) then 20 else 16
  end.

(** Encoding a register write and reading the payload back. *)
Definition register_write_roundtrip
    (layout : cmd_layout) (offset value mask : Z) (clear_full : bool)
  : Z * Z * Z :=
  match layout with
  | LayoutV2 =>
      ipa_v2_register_write_decode
        (ce_payload
           (ipa_v2_cmd_register_write_add offset value mask clear_full))
  | LayoutV3 version =>
      ipa_v3_register_write_decode version
        (ce_payload
           (ipa_v3_cmd_register_write_add version offset value mask
                                          clear_full))
  end.

(** The 1-bit direction flag of a shared-memory DMA payload. *)
Definition dma_v3_direction_flag (p : ipa_cmd_hw_dma_mem_mem) : Z :=
  u16_get_bits (dm_flags p) DMA_SHARED_MEM_FLAGS_DIRECTION_FMASK.

Definition dma_v2_direction_flag (p : ipa_v2_cmd_hw_dma_mem_mem) : Z :=
  u16_get_bits (dm2_flags p) DMA_SHARED_MEM_FLAGS_DIRECTION_FMASK.

End Encoders.

(** *** The other immediate commands, and the validation of their
    operands *)

Definition IP_FLTRT_FLAGS_HASH_SIZE_FMASK : Z := GENMASK_ULL 11 0.
Definition IP_FLTRT_FLAGS_HASH_ADDR_FMASK : Z := GENMASK_ULL 27 12.
Definition IP_FLTRT_FLAGS_NHASH_SIZE_FMASK : Z := GENMASK_ULL 39 28.
Definition IP_FLTRT_FLAGS_NHASH_ADDR_FMASK : Z := GENMASK_ULL 55 40.

Definition HDR_INIT_LOCAL_FLAGS_TABLE_SIZE_FMASK : Z := GENMASK 11 0.
Definition HDR_INIT_LOCAL_FLAGS_HDR_ADDR_FMASK : Z := GENMASK 27 12.

Definition IPA_PACKET_INIT_DEST_ENDPOINT_FMASK : Z := GENMASK 4 0.

Definition IPA_V2_IP_PACKET_TAG_STATUS_TAG_FMASK : Z := GENMASK_ULL 31 0.
Definition IPA_V3_IP_PACKET_TAG_STATUS_TAG_FMASK : Z := GENMASK_ULL 63 16.

Definition IPA_V2_COOKIE : Z := 0x57831603.
Definition IPA_V3_COOKIE : Z := 0xcba987654321.

(** struct ipa_v2_cmd_hw_ipv4_fltrt_init *)
Record ipa_v2_cmd_hw_ipv4_fltrt_init : Set := {
  f4_ipv4_rules_addr : Z;   (* __le32 *)
  f4_size_ipv4_rules : Z;   (* __le16 : 12 *)
  f4_ipv4_addr : Z;         (* __le16 : 16 *)
  f4_reserved : Z           (* __le16 : 4 *)
}.

(** struct ipa_v2_cmd_hw_ipv6_fltrt_init *)
Record ipa_v2_cmd_hw_ipv6_fltrt_init : Set := {
  f6_ipv6_rules_addr : Z;   (* __le32 *)
  f6_size_ipv6_rules : Z;   (* __le16 *)
  f6_ipv6_addr : Z          (* __le16 *)
}.

(** struct ipa_cmd_hw_ip_fltrt_init *)
Record ipa_cmd_hw_ip_fltrt_init : Set := {
  ft_hash_rules_addr : Z;   (* __le64 *)
  ft_flags : Z;             (* __le64 *)
  ft_nhash_rules_addr : Z   (* __le64 *)
}.

(** struct ipa_v2_cmd_hdr_init_local *)
Record ipa_v2_cmd_hdr_init_local : Set := {
  h2_hdr_tbl_src_addr : Z;  (* __le32 *)
  h2_size_hdr_tbl : Z;      (* __le64 : 12 *)
  h2_hdr_tbl_dst_addr : Z;  (* __le64 : 16 *)
  h2_reserved : Z           (* __le64 : 4 *)
}.

(** struct ipa_cmd_hw_hdr_init_local *)
Record ipa_cmd_hw_hdr_init_local : Set := {
  hl_hdr_table_addr : Z;    (* __le64 *)
  hl_flags : Z;             (* __le32 *)
  hl_reserved : Z           (* __le32 *)
}.

(** struct ipa_cmd_ip_packet_init *)
Record ipa_cmd_ip_packet_init : Set := {
  pi_dest_endpoint : Z      (* u8; 7 reserved bytes follow *)
}.

(** struct ipa_cmd_ip_packet_tag_status *)
Record ipa_cmd_ip_packet_tag_status : Set := {
  ts_tag : Z                (* __le64 *)
}.

Section Commands.
(** Constants of ipa_cmd.h and ipa_version.h. *)
Variable IPA_CMD_REGISTER_WRITE : Z.
Variable IPA_CMD_HDR_INIT_LOCAL : Z.
Variable IPA_CMD_IP_PACKET_INIT : Z.
Variable IPA_CMD_IP_PACKET_TAG_STATUS : Z.
Variable IPA_VERSION_3_5_1 : Z.

(** ipa_cmd_table_valid (under IPA_VALIDATE), on the offset and size
    of the accelerator's memory ([ipa->mem_offset], [ipa->mem_size]) and
    the offset and size of the region of the table; the result is
    whether the region passes.  [route] and [ipv6] only choose the words
    of the error message. *)
Definition ipa_cmd_table_valid
    (ipa_mem_offset ipa_mem_size : Z) (offset size : Z)
    (route ipv6 hashed : bool) : bool :=
  let offset_max :=
    u32 (if hashed then field_max IP_FLTRT_FLAGS_HASH_ADDR_FMASK
         else field_max IP_FLTRT_FLAGS_NHASH_ADDR_FMASK) in
  if (offset_max <? offset) || (u32 (offset_max - offset) <? ipa_mem_offset)
  then false
  else if (ipa_mem_size <? offset) || (u32 (ipa_mem_size - offset) <? size)
  then false
  else true.

(** ipa_cmd_header_valid (under IPA_VALIDATE), on the offset and size of
    the modem header region and the size of the AP header region.
    [size_max] is computed and compared with nothing. *)
Definition ipa_cmd_header_valid
    (ipa_mem_offset ipa_mem_size : Z)
    (modem_header_offset modem_header_size ap_header_size : Z) : bool :=
  let offset_max := u32 (field_max HDR_INIT_LOCAL_FLAGS_HDR_ADDR_FMASK) in
  if (offset_max <? modem_header_offset)
     || (u32 (offset_max - modem_header_offset) <? ipa_mem_offset)
  then false
  else
    let size_max := u32 (field_max HDR_INIT_LOCAL_FLAGS_TABLE_SIZE_FMASK) in
    let size := modem_header_size in
    let size := u32 (size + ap_header_size) in
    if (ipa_mem_size <? modem_header_offset)
       || (u32 (ipa_mem_size - modem_header_offset) <? size)
    then false
    else true.

(** The widest offset ipa_cmd_register_write_offset_valid lets pass.
    [~0] is the int -1, and the shift to the right of a negative int
    keeps the sign with the compilers of the kernel; the result is then
    stored in a u32. *)
Definition register_write_offset_max (version : Z) : Z :=
  let bit_count := u32 (8 * 2) in
  let bit_count :=
    if negb (version =? IPA_VERSION_3_5_1)
    then u32 (bit_count + hweight32 REGISTER_WRITE_FLAGS_OFFSET_HIGH_FMASK)
    else bit_count in
  u32 (Z.shiftr (-1) (u32 (32 - bit_count))).

(** ipa_cmd_register_write_offset_valid (under IPA_VALIDATE) *)
Definition ipa_cmd_register_write_offset_valid
    (version : Z) (ipa_mem_offset : Z) (offset : Z) : bool :=
  let offset_max := register_write_offset_max version in
  if (offset_max <? offset) || (u32 (offset_max - offset) <? ipa_mem_offset)
  then false
  else true.

(** ipa_v2_cmd_table_init_add: the payload for IPv4 or the one for
    IPv6.  The hash table arguments are not used. *)
Definition ipa_v2_cmd_table_init_add
    (mem_offset : Z) (opcode : Z) (size offset addr : Z)
    (hash_size hash_offset hash_addr : Z) (ipv4 : bool)
  : cmd_entry (ipa_v2_cmd_hw_ipv4_fltrt_init + ipa_v2_cmd_hw_ipv6_fltrt_init) :=
  let direction := DMA_TO_DEVICE in
  let offset := u32 (offset + mem_offset) in
  if ipv4 then
    {| ce_payload :=
         inl {| f4_ipv4_rules_addr := cpu_to_le32 addr;
                f4_size_ipv4_rules := bitfield 12 (cpu_to_le16 size);
                f4_ipv4_addr := bitfield 16 offset;
                f4_reserved := 0 |};
       ce_direction := direction;
       ce_opcode := opcode |}
  else
    {| ce_payload :=
         inr {| f6_ipv6_rules_addr := cpu_to_le32 addr;
                f6_size_ipv6_rules := cpu_to_le16 size;
                f6_ipv6_addr := u16 offset |};
       ce_direction := direction;
       ce_opcode := opcode |}.

(** ipa_v3_cmd_table_init_add.  If [hash_size] is 0, [hash_offset] and
    [hash_addr] are ignored. *)
Definition ipa_v3_cmd_table_init_add
    (mem_offset : Z) (opcode : Z) (size offset addr : Z)
    (hash_size hash_offset hash_addr : Z) (ipv4 : bool)
  : cmd_entry ipa_cmd_hw_ip_fltrt_init :=
  let direction := DMA_TO_DEVICE in
  let offset := u32 (offset + mem_offset) in
  let val := u64_encode_bits offset IP_FLTRT_FLAGS_NHASH_ADDR_FMASK in
  let val :=
    Z.lor val (u64_encode_bits size IP_FLTRT_FLAGS_NHASH_SIZE_FMASK) in
  let val :=
    if negb (hash_size =? 0) then
      let hash_offset := u32 (hash_offset + mem_offset) in
      let val :=
        Z.lor val
              (u64_encode_bits hash_offset IP_FLTRT_FLAGS_HASH_ADDR_FMASK) in
      Z.lor val (u64_encode_bits hash_size IP_FLTRT_FLAGS_HASH_SIZE_FMASK)
    else val in
  {| ce_payload :=
       {| ft_hash_rules_addr :=
            if negb (hash_size =? 0) then cpu_to_le64 hash_addr else 0;
          ft_flags := cpu_to_le64 val;
          ft_nhash_rules_addr := cpu_to_le64 addr |};
     ce_direction := direction;
     ce_opcode := opcode |}.

(** ipa_v2_cmd_hdr_init_local_add *)
Definition ipa_v2_cmd_hdr_init_local_add
    (mem_offset : Z) (offset size addr : Z)
  : cmd_entry ipa_v2_cmd_hdr_init_local :=
  let opcode := IPA_CMD_HDR_INIT_LOCAL in
  let direction := DMA_TO_DEVICE in
  let offset := u32 (offset + mem_offset) in
  {| ce_payload :=
       {| h2_hdr_tbl_src_addr := cpu_to_le32 addr;
          h2_size_hdr_tbl := bitfield 12 (cpu_to_le16 size);
          h2_hdr_tbl_dst_addr :=
            bitfield 16 (cpu_to_le16 (u32 (mem_offset + offset)));
          h2_reserved := 0 |};
     ce_direction := direction;
     ce_opcode := opcode |}.

(** ipa_v3_cmd_hdr_init_local_add *)
Definition ipa_v3_cmd_hdr_init_local_add
    (mem_offset : Z) (offset size addr : Z)
  : cmd_entry ipa_cmd_hw_hdr_init_local :=
  let opcode := IPA_CMD_HDR_INIT_LOCAL in
  let direction := DMA_TO_DEVICE in
  let offset := u32 (offset + mem_offset) in
  let flags := u32_encode_bits size HDR_INIT_LOCAL_FLAGS_TABLE_SIZE_FMASK in
  let flags :=
    Z.lor flags
          (u32_encode_bits offset HDR_INIT_LOCAL_FLAGS_HDR_ADDR_FMASK) in
  {| ce_payload :=
       {| hl_hdr_table_addr := cpu_to_le64 addr;
          hl_flags := cpu_to_le32 flags;
          hl_reserved := 0 |};
     ce_direction := direction;
     ce_opcode := opcode |}.

(** ipa_v2_cmd_ip_packet_init_add and ipa_v3_cmd_ip_packet_init_add: the
    format is the same on all versions. *)
Definition ipa_cmd_ip_packet_init_add (endpoint_id : Z)
  : cmd_entry ipa_cmd_ip_packet_init :=
  {| ce_payload :=
       {| pi_dest_endpoint :=
            u8_encode_bits endpoint_id IPA_PACKET_INIT_DEST_ENDPOINT_FMASK |};
     ce_direction := DMA_TO_DEVICE;
     ce_opcode := IPA_CMD_IP_PACKET_INIT |}.

(** ipa_v2_cmd_ip_tag_status_add *)
Definition ipa_v2_cmd_ip_tag_status_add (tag : Z)
  : cmd_entry ipa_cmd_ip_packet_tag_status :=
  {| ce_payload :=
       {| ts_tag :=
            u64_encode_bits tag IPA_V2_IP_PACKET_TAG_STATUS_TAG_FMASK |};
     ce_direction := DMA_TO_DEVICE;
     ce_opcode := IPA_CMD_IP_PACKET_TAG_STATUS |}.

(** ipa_v3_cmd_ip_tag_status_add *)
Definition ipa_v3_cmd_ip_tag_status_add (tag : Z)
  : cmd_entry ipa_cmd_ip_packet_tag_status :=
  {| ce_payload :=
       {| ts_tag :=
            u64_encode_bits tag IPA_V3_IP_PACKET_TAG_STATUS_TAG_FMASK |};
     ce_direction := DMA_TO_DEVICE;
     ce_opcode := IPA_CMD_IP_PACKET_TAG_STATUS |}.

(** *** Reading these payloads back *)

(** The table-init flags word: the offset and the size of the table
    that is not hashed, then those of the hashed one. *)
Definition ipa_v3_table_init_decode (p : ipa_cmd_hw_ip_fltrt_init)
  : Z * Z * Z * Z :=
  (u64_get_bits (ft_flags p) IP_FLTRT_FLAGS_NHASH_ADDR_FMASK,
   u64_get_bits (ft_flags p) IP_FLTRT_FLAGS_NHASH_SIZE_FMASK,
   u64_get_bits (ft_flags p) IP_FLTRT_FLAGS_HASH_ADDR_FMASK,
   u64_get_bits (ft_flags p) IP_FLTRT_FLAGS_HASH_SIZE_FMASK).

(** The header-init flags word: the offset and the size of the table. *)
Definition ipa_v3_hdr_init_local_decode (p : ipa_cmd_hw_hdr_init_local)
  : Z * Z :=
  (u32_get_bits (hl_flags p) HDR_INIT_LOCAL_FLAGS_HDR_ADDR_FMASK,
   u32_get_bits (hl_flags p) HDR_INIT_LOCAL_FLAGS_TABLE_SIZE_FMASK).

(** The pipeline clear option a v3 register write carries: in the opcode
    from IPA v4.0, in the clear-options word on IPA v3.5.1. *)
Definition ipa_v3_register_write_clear_option
    (version : Z) (e : cmd_entry ipa_cmd_register_write) : Z :=
  if negb (version =? IPA_VERSION_3_5_1) then
    u16_get_bits (ce_opcode e) REGISTER_WRITE_OPCODE_CLEAR_OPTION_FMASK
  else
    u16_get_bits (rw_clear_options (ce_payload e))
                 REGISTER_WRITE_CLEAR_OPTIONS_FMASK.

End Commands.

End Cmd.

(** ** BAM transactions and channels *)

Module Bam.
Export Cmd.

(** *** Constants *)

Definition BAM_CHANNEL_COUNT_MAX : Z := 20.
Definition BAM_MAX_BURST_SIZE : Z := 16.  (* 0x10 *)
Definition ETIMEDOUT : Z := 110.

(** enum ipa_cmd_opcode: no command, or the opcode of an immediate
    command (its value goes into the length of the descriptor). *)
Inductive ipa_cmd_opcode : Set :=
| IPA_CMD_NONE
| IPA_CMD (code : Z).

Definition opcode_is_none (o : ipa_cmd_opcode) : bool :=
  match o with IPA_CMD_NONE => true | IPA_CMD _ => false end.

Definition opcode_value (o : ipa_cmd_opcode) : Z :=
  match o with IPA_CMD_NONE => 0 | IPA_CMD c => c end.

Definition direction_is_none (d : dma_data_direction) : bool :=
  match d with DMA_NONE => true | _ => false end.

(** *** The kernel's DMA engine, as far as the BAM code drives it *)

Inductive dma_transfer_direction : Set := DMA_MEM_TO_DEV | DMA_DEV_TO_MEM.

Inductive dma_status : Set :=
| DMA_COMPLETE | DMA_IN_PROGRESS | DMA_PAUSED | DMA_ERROR.

Definition dma_status_is_complete (s : dma_status) : bool :=
  match s with DMA_COMPLETE => true | _ => false end.

Record dma_async_tx_descriptor : Set := {
  d_addr : Z;
  d_len : Z;
  d_direction : dma_transfer_direction;
  d_imm_cmd : bool;           (* DMA_PREP_IMM_CMD *)
  d_interrupt : bool;         (* DMA_PREP_INTERRUPT *)
  d_callback : option Z;      (* callback_param of bam_trans_callback *)
  d_cookie : Z
}.

Record dma_chan : Set := {
  chan_cookie : Z;            (* last cookie handed out *)
  chan_completed_cookie : Z;  (* last cookie the hardware finished *)
  chan_submitted : list dma_async_tx_descriptor;
  chan_issued : nat           (* descriptors pushed by issue_pending *)
}.

Definition s32 (x : Z) : Z := (x + 2 ^ 31) mod 2 ^ 32 - 2 ^ 31.

Definition DMA_MIN_COOKIE : Z := 1.

(** dma_cookie_assign *)
Definition dma_cookie_assign (chan : dma_chan) : Z :=
  let cookie := s32 (chan_cookie chan + 1) in
  if cookie <? DMA_MIN_COOKIE then DMA_MIN_COOKIE else cookie.

(** dmaengine_submit of a prepared descriptor. *)
Definition dmaengine_submit (chan : dma_chan) (d : dma_async_tx_descriptor)
  : Z * dma_chan :=
  let cookie := dma_cookie_assign chan in
  (cookie,
   {| chan_cookie := cookie;
      chan_completed_cookie := chan_completed_cookie chan;
      chan_submitted :=
        chan_submitted chan ++
          [{| d_addr := d_addr d; d_len := d_len d;
              d_direction := d_direction d; d_imm_cmd := d_imm_cmd d;
              d_interrupt := d_interrupt d; d_callback := d_callback d;
              d_cookie := cookie |}];
      chan_issued := chan_issued chan |}).

Definition dma_async_issue_pending (chan : dma_chan) : dma_chan :=
  {| chan_cookie := chan_cookie chan;
     chan_completed_cookie := chan_completed_cookie chan;
     chan_submitted := chan_submitted chan;
     chan_issued := length (chan_submitted chan) |}.

(** dma_async_is_tx_complete, through dma_async_is_complete. *)
Definition dma_async_is_tx_complete (chan : dma_chan) (cookie : Z)
  : dma_status :=
  let last_complete := chan_completed_cookie chan in
  let last_used := chan_cookie chan in
  if last_complete <=? last_used then
    if (cookie <=? last_complete) || (last_used <? cookie)
    then DMA_COMPLETE else DMA_IN_PROGRESS
  else
    if (cookie <=? last_complete) && (last_used <? cookie)
    then DMA_COMPLETE else DMA_IN_PROGRESS.

(** *** Transactions *)

Record scatterlist : Set := {
  sg_dma_address : Z;
  sg_dma_len : Z              (* u32 *)
}.

(** struct ipa_trans.  The list node [links] is the membership of the
    transaction in one of the four lists of its channel. *)
Record ipa_trans : Set := {
  tr_channel_id : Z;          (* u8 *)
  tr_cancelled : bool;
  tr_tre_count : Z;           (* u8 *)
  tr_used : Z;                (* u8, entries used in sgl *)
  tr_len : Z;                 (* u32 *)
  tr_sgl : list scatterlist;
  tr_info : option (list ipa_cmd_opcode);
  tr_direction : dma_data_direction;
  tr_cookie : Z;
  tr_refcount : Z;
  tr_completion : Z;          (* completion.done *)
  tr_byte_count : Z;          (* u64 *)
  tr_trans_count : Z          (* u64 *)
}.

(** A struct in zero-filled pool memory. *)
Definition trans_zero : ipa_trans :=
  {| tr_channel_id := 0; tr_cancelled := false; tr_tre_count := 0;
     tr_used := 0; tr_len := 0; tr_sgl := []; tr_info := None;
     tr_direction := DMA_BIDIRECTIONAL; tr_cookie := 0; tr_refcount := 0;
     tr_completion := 0; tr_byte_count := 0; tr_trans_count := 0 |}.

Definition set_refcount (r : Z) (tr : ipa_trans) : ipa_trans :=
  {| tr_channel_id := tr_channel_id tr; tr_cancelled := tr_cancelled tr;
     tr_tre_count := tr_tre_count tr; tr_used := tr_used tr;
     tr_len := tr_len tr; tr_sgl := tr_sgl tr; tr_info := tr_info tr;
     tr_direction := tr_direction tr; tr_cookie := tr_cookie tr;
     tr_refcount := r; tr_completion := tr_completion tr;
     tr_byte_count := tr_byte_count tr;
     tr_trans_count := tr_trans_count tr |}.

Definition set_completion (c : Z) (tr : ipa_trans) : ipa_trans :=
  {| tr_channel_id := tr_channel_id tr; tr_cancelled := tr_cancelled tr;
     tr_tre_count := tr_tre_count tr; tr_used := tr_used tr;
     tr_len := tr_len tr; tr_sgl := tr_sgl tr; tr_info := tr_info tr;
     tr_direction := tr_direction tr; tr_cookie := tr_cookie tr;
     tr_refcount := tr_refcount tr; tr_completion := c;
     tr_byte_count := tr_byte_count tr;
     tr_trans_count := tr_trans_count tr |}.

Definition set_len (n : Z) (tr : ipa_trans) : ipa_trans :=
  {| tr_channel_id := tr_channel_id tr; tr_cancelled := tr_cancelled tr;
     tr_tre_count := tr_tre_count tr; tr_used := tr_used tr;
     tr_len := n; tr_sgl := tr_sgl tr; tr_info := tr_info tr;
     tr_direction := tr_direction tr; tr_cookie := tr_cookie tr;
     tr_refcount := tr_refcount tr; tr_completion := tr_completion tr;
     tr_byte_count := tr_byte_count tr;
     tr_trans_count := tr_trans_count tr |}.

Definition set_cookie (c : Z) (tr : ipa_trans) : ipa_trans :=
  {| tr_channel_id := tr_channel_id tr; tr_cancelled := tr_cancelled tr;
     tr_tre_count := tr_tre_count tr; tr_used := tr_used tr;
     tr_len := tr_len tr; tr_sgl := tr_sgl tr; tr_info := tr_info tr;
     tr_direction := tr_direction tr; tr_cookie := c;
     tr_refcount := tr_refcount tr; tr_completion := tr_completion tr;
     tr_byte_count := tr_byte_count tr;
     tr_trans_count := tr_trans_count tr |}.

(** The snapshot of the channel counters taken at commit. *)
Definition set_counts (l bc tc : Z) (tr : ipa_trans) : ipa_trans :=
  {| tr_channel_id := tr_channel_id tr; tr_cancelled := tr_cancelled tr;
     tr_tre_count := tr_tre_count tr; tr_used := tr_used tr;
     tr_len := l; tr_sgl := tr_sgl tr; tr_info := tr_info tr;
     tr_direction := tr_direction tr; tr_cookie := tr_cookie tr;
     tr_refcount := tr_refcount tr; tr_completion := tr_completion tr;
     tr_byte_count := bc; tr_trans_count := tc |}.

(** *** Pools and channels *)

Record ipa_trans_pool : Set := {
  pool_count : Z;             (* elements in the pool *)
  pool_max_alloc : Z;         (* most elements of one request *)
  pool_free : Z               (* the cursor: next free element *)
}.

(** struct ipa_trans_info: the pools and the four lists. *)
Record ipa_trans_info : Set := {
  ti_pool : ipa_trans_pool;
  ti_sg_pool : ipa_trans_pool;
  ti_alloc : list Z;
  ti_pending : list Z;
  ti_complete : list Z;
  ti_polled : list Z
}.

(** Calls that leave the transaction engine. *)
Inductive event : Set :=
| EvUnmap (t : Z) (nents : Z)               (* dma_unmap_sg *)
| EvGsiComplete (t : Z)                     (* ipa_gsi_trans_complete *)
| EvRelease (t : Z)                         (* the pool slot is given back *)
| EvTxCompleted (trans_count byte_count : Z)
                                (* ipa_transport_channel_tx_completed *)
| EvNapiComplete.                           (* napi_complete *)

Global Instance event_eq_dec : EqDecision event.
Proof. solve_decision. Defined.

(** struct ipa_channel, with the memory of its transaction pool. *)
Record ipa_channel : Type := {
  ch_toward_ipa : bool;
  ch_byte_count : Z;          (* u64 *)
  ch_trans_count : Z;         (* u64 *)
  ch_compl_byte_count : Z;    (* u64 *)
  ch_compl_trans_count : Z;   (* u64 *)
  ch_priv : dma_chan;         (* bam_channel_priv.chan *)
  ch_trans_info : ipa_trans_info;
  ch_mem : gmap Z ipa_trans;  (* transaction structs, by pool slot *)
  ch_log : list event
}.

Definition set_mem (m : gmap Z ipa_trans) (ch : ipa_channel) : ipa_channel :=
  {| ch_toward_ipa := ch_toward_ipa ch; ch_byte_count := ch_byte_count ch;
     ch_trans_count := ch_trans_count ch;
     ch_compl_byte_count := ch_compl_byte_count ch;
     ch_compl_trans_count := ch_compl_trans_count ch;
     ch_priv := ch_priv ch; ch_trans_info := ch_trans_info ch;
     ch_mem := m; ch_log := ch_log ch |}.

Definition set_trans_info (ti : ipa_trans_info) (ch : ipa_channel)
  : ipa_channel :=
  {| ch_toward_ipa := ch_toward_ipa ch; ch_byte_count := ch_byte_count ch;
     ch_trans_count := ch_trans_count ch;
     ch_compl_byte_count := ch_compl_byte_count ch;
     ch_compl_trans_count := ch_compl_trans_count ch;
     ch_priv := ch_priv ch; ch_trans_info := ti;
     ch_mem := ch_mem ch; ch_log := ch_log ch |}.

Definition set_priv (c : dma_chan) (ch : ipa_channel) : ipa_channel :=
  {| ch_toward_ipa := ch_toward_ipa ch; ch_byte_count := ch_byte_count ch;
     ch_trans_count := ch_trans_count ch;
     ch_compl_byte_count := ch_compl_byte_count ch;
     ch_compl_trans_count := ch_compl_trans_count ch;
     ch_priv := c; ch_trans_info := ch_trans_info ch;
     ch_mem := ch_mem ch; ch_log := ch_log ch |}.

Definition add_event (e : event) (ch : ipa_channel) : ipa_channel :=
  {| ch_toward_ipa := ch_toward_ipa ch; ch_byte_count := ch_byte_count ch;
     ch_trans_count := ch_trans_count ch;
     ch_compl_byte_count := ch_compl_byte_count ch;
     ch_compl_trans_count := ch_compl_trans_count ch;
     ch_priv := ch_priv ch; ch_trans_info := ch_trans_info ch;
     ch_mem := ch_mem ch; ch_log := ch_log ch ++ [e] |}.

(** The running totals of the channel. *)
Definition set_totals (bc tc : Z) (ch : ipa_channel) : ipa_channel :=
  {| ch_toward_ipa := ch_toward_ipa ch; ch_byte_count := bc;
     ch_trans_count := tc;
     ch_compl_byte_count := ch_compl_byte_count ch;
     ch_compl_trans_count := ch_compl_trans_count ch;
     ch_priv := ch_priv ch; ch_trans_info := ch_trans_info ch;
     ch_mem := ch_mem ch; ch_log := ch_log ch |}.

(** The completed totals last reported for a TX channel. *)
Definition set_compl (bc tc : Z) (ch : ipa_channel) : ipa_channel :=
  {| ch_toward_ipa := ch_toward_ipa ch; ch_byte_count := ch_byte_count ch;
     ch_trans_count := ch_trans_count ch;
     ch_compl_byte_count := bc; ch_compl_trans_count := tc;
     ch_priv := ch_priv ch; ch_trans_info := ch_trans_info ch;
     ch_mem := ch_mem ch; ch_log := ch_log ch |}.

(** Writing a transaction struct back to its slot. *)
Definition store_trans (t : Z) (tr : ipa_trans) (ch : ipa_channel)
  : ipa_channel :=
  set_mem (<[t := tr]> (ch_mem ch)) ch.

(** *** Kernel services on a transaction: reference counts, completions

    A computation that goes through a pointer which is not a live
    transaction, or that never resumes, has no result ([None]). *)

(** refcount_inc: adding to a count of 0 is a use after free. *)
Definition refcount_inc (t : Z) (ch : ipa_channel) : option ipa_channel :=
  tr ← ch_mem ch !! t;
  if tr_refcount tr <=? 0 then None
  else Some (store_trans t (set_refcount (tr_refcount tr + 1) tr) ch).

(** complete(): one more waiter may pass. *)
Definition complete (t : Z) (ch : ipa_channel) : option ipa_channel :=
  tr ← ch_mem ch !! t;
  Some (store_trans t (set_completion (tr_completion tr + 1) tr) ch).

(** wait_for_completion: [during] is what the rest of the system does
    while the caller sleeps; a sleeper that is never woken has no
    result. *)
Definition wait_for_completion
    (during : ipa_channel → option ipa_channel) (t : Z) (ch : ipa_channel)
  : option ipa_channel :=
  tr ← ch_mem ch !! t;
  if 0 <? tr_completion tr then
    Some (store_trans t (set_completion (tr_completion tr - 1) tr) ch)
  else
    ch1 ← during ch;
    tr1 ← ch_mem ch1 !! t;
    if 0 <? tr_completion tr1 then
      Some (store_trans t (set_completion (tr_completion tr1 - 1) tr1) ch1)
    else None.

(** wait_for_completion_timeout: the result is the time left (at least
    1) when the completion was signalled, and 0 when the time ran out
    first; [left] is the time left on the clock when the rest of the
    system, [during], has run. *)
Definition wait_for_completion_timeout
    (during : ipa_channel → option ipa_channel) (left : Z)
    (t : Z) (timeout : Z) (ch : ipa_channel)
  : option (Z * ipa_channel) :=
  tr ← ch_mem ch !! t;
  if 0 <? tr_completion tr then
    Some (if timeout =? 0 then 1 else timeout,
          store_trans t (set_completion (tr_completion tr - 1) tr) ch)
  else
    ch1 ← during ch;
    tr1 ← ch_mem ch1 !! t;
    if 0 <? tr_completion tr1 then
      let left := Z.max 0 (Z.min left timeout) in
      Some (if left =? 0 then 1 else left,
            store_trans t (set_completion (tr_completion tr1 - 1) tr1) ch1)
    else Some (0, ch1).

(** msecs_to_jiffies, for a tick rate [HZ] that divides 1000. *)
Definition msecs_to_jiffies (HZ : Z) (m : Z) : Z :=
  (m + 1000 / HZ - 1) / (1000 / HZ).

(** *** The four lists of a channel *)

Definition list_del (t : Z) (l : list Z) : list Z :=
  filter (λ x, x ≠ t) l.

(** Unlinking the node of [t] from the list it is on. *)
Definition trans_unlink (t : Z) (ti : ipa_trans_info) : ipa_trans_info :=
  {| ti_pool := ti_pool ti; ti_sg_pool := ti_sg_pool ti;
     ti_alloc := list_del t (ti_alloc ti);
     ti_pending := list_del t (ti_pending ti);
     ti_complete := list_del t (ti_complete ti);
     ti_polled := list_del t (ti_polled ti) |}.

(** Modelled from the spec: ipa_trans_move_pending (ipa_trans.c is not
    among the sources), the relocation of a transaction to the tail of
    the pending list of its channel. *)
Definition ipa_trans_move_pending (t : Z) (ch : ipa_channel) : ipa_channel :=
  let ti := trans_unlink t (ch_trans_info ch) in
  set_trans_info
    {| ti_pool := ti_pool ti; ti_sg_pool := ti_sg_pool ti;
       ti_alloc := ti_alloc ti;
       ti_pending := ti_pending ti ++ [t];
       ti_complete := ti_complete ti;
       ti_polled := ti_polled ti |} ch.

(** Modelled from the spec: ipa_trans_move_complete (ipa_trans.c is not
    among the sources), the relocation to the tail of the complete
    list. *)
Definition ipa_trans_move_complete (t : Z) (ch : ipa_channel) : ipa_channel :=
  let ti := trans_unlink t (ch_trans_info ch) in
  set_trans_info
    {| ti_pool := ti_pool ti; ti_sg_pool := ti_sg_pool ti;
       ti_alloc := ti_alloc ti;
       ti_pending := ti_pending ti;
       ti_complete := ti_complete ti ++ [t];
       ti_polled := ti_polled ti |} ch.

(** Modelled from the spec: ipa_trans_move_polled (ipa_trans.c is not
    among the sources), the relocation to the tail of the polled list. *)
Definition ipa_trans_move_polled (t : Z) (ch : ipa_channel) : ipa_channel :=
  let ti := trans_unlink t (ch_trans_info ch) in
  set_trans_info
    {| ti_pool := ti_pool ti; ti_sg_pool := ti_sg_pool ti;
       ti_alloc := ti_alloc ti;
       ti_pending := ti_pending ti;
       ti_complete := ti_complete ti;
       ti_polled := ti_polled ti ++ [t] |} ch.

(** Modelled from the spec: ipa_trans_free (ipa_trans.c is not among the
    sources).  It decrements the reference count; only the holder that
    drives it to zero removes the transaction from its list and gives
    the pool slot back.  Dropping a reference of a transaction whose
    count is already 0 is a use after free. *)
Definition ipa_trans_free (t : Z) (ch : ipa_channel) : option ipa_channel :=
  tr ← ch_mem ch !! t;
  if tr_refcount tr <=? 0 then None
  else
    let r := tr_refcount tr - 1 in
    let ch1 := store_trans t (set_refcount r tr) ch in
    if r =? 0 then
      Some (add_event (EvRelease t)
              (set_trans_info (trans_unlink t (ch_trans_info ch1)) ch1))
    else Some ch1.

(** Modelled from the spec: ipa_trans_pool_alloc (ipa_trans.c is not
    among the sources), a bump allocator without a record of single
    frees: the cursor advances by [count] elements, and wraps to the
    beginning of the pool when the request does not fit before its end
    (which a caller that keeps to its reservation of transfer elements
    does not run into while the elements there are in use).  The result
    is the index of the first element handed out. *)
Definition ipa_trans_pool_alloc (pool : ipa_trans_pool) (count : Z)
  : Z * ipa_trans_pool :=
  let free :=
    if pool_count pool - pool_free pool <? count then 0
    else pool_free pool in
  (free,
   {| pool_count := pool_count pool;
      pool_max_alloc := pool_max_alloc pool;
      pool_free := free + count |}).

(** Modelled from the spec: ipa_trans_pool_init (ipa_trans.c is not
    among the sources): [count] elements, none handed out. *)
Definition ipa_trans_pool_init (count max_alloc : Z) : ipa_trans_pool :=
  {| pool_count := count; pool_max_alloc := max_alloc; pool_free := 0 |}.

(** Modelled from the spec: ipa_gsi_trans_complete (ipa_gsi.c is not
    among the sources), the finalisation of a transaction: the endpoint
    layer is told that the transaction is complete.  The call is
    recorded. *)
Definition ipa_gsi_trans_complete (t : Z) (ch : ipa_channel) : ipa_channel :=
  add_event (EvGsiComplete t) ch.

(** Modelled from the spec: ipa_trans_complete (ipa_trans.c is not among
    the sources): the remaining completion processing of a polled
    transaction, which unmaps its buffers, runs the finalisation,
    signals the completion and drops the reference (retiring the
    transaction). *)
Definition ipa_trans_complete (t : Z) (ch : ipa_channel)
  : option ipa_channel :=
  tr ← ch_mem ch !! t;
  let ch1 :=
    if negb (direction_is_none (tr_direction tr))
    then add_event (EvUnmap t (tr_used tr)) ch else ch in
  let ch2 := ipa_gsi_trans_complete t ch1 in
  ch3 ← complete t ch2;
  ipa_trans_free t ch3.

(** *** bam_trans.c *)

Definition bam_channel_tre_max : Z := BAM_MAX_BURST_SIZE.
Definition bam_channel_trans_tre_max : Z := BAM_MAX_BURST_SIZE.

(** bam_channel_trans_init: the state of a channel once its pools and
    lists are set up. *)
Definition bam_channel_trans_init : ipa_trans_info :=
  {| ti_pool := ipa_trans_pool_init BAM_MAX_BURST_SIZE BAM_MAX_BURST_SIZE;
     ti_sg_pool := ipa_trans_pool_init BAM_MAX_BURST_SIZE BAM_MAX_BURST_SIZE;
     ti_alloc := []; ti_pending := []; ti_complete := [];
     ti_polled := [] |}.

(** bam_channel_trans_alloc.  The result is the pointer returned (never
    NULL, there is no such return) and the channel.  Fields of the
    struct that are not assigned keep what the slot held.
    [sg_init_marker] marks the entry [tre_count - 1] of the scatter
    list as the last one; [tre_count] is unsigned, so for a count of 0
    that is an entry far outside the list, and the call has no
    result. *)
Definition bam_channel_trans_alloc
    (ch : ipa_channel) (channel_id tre_count : Z)
    (direction : dma_data_direction)
  : option (option Z * ipa_channel) :=
  let ti := ch_trans_info ch in
  let '(t, pool1) := ipa_trans_pool_alloc (ti_pool ti) 1 in
  let old := default trans_zero (ch_mem ch !! t) in
  let '(_, sg_pool1) := ipa_trans_pool_alloc (ti_sg_pool ti) tre_count in
  let trans :=
    {| tr_channel_id := u8 channel_id;
       tr_cancelled := tr_cancelled old;
       tr_tre_count := u8 tre_count;
       tr_used := tr_used old;
       tr_len := tr_len old;
       tr_sgl :=
         replicate (Z.to_nat tre_count)
                   {| sg_dma_address := 0; sg_dma_len := 0 |};
       tr_info := tr_info old;
       tr_direction := direction;
       tr_cookie := tr_cookie old;
       tr_refcount := 1;
       tr_completion := 0;
       tr_byte_count := tr_byte_count old;
       tr_trans_count := tr_trans_count old |} in
  if u32 tre_count =? 0 then None
  else
    Some (Some t,
          set_trans_info
            {| ti_pool := pool1; ti_sg_pool := sg_pool1;
               ti_alloc := ti_alloc ti ++ [t];
               ti_pending := ti_pending ti;
               ti_complete := ti_complete ti;
               ti_polled := ti_polled ti |}
            (store_trans t trans ch)).

(** bam_trans_callback *)
Definition bam_trans_callback (t : Z) (ch : ipa_channel)
  : option ipa_channel :=
  tr ← ch_mem ch !! t;
  let ch1 :=
    if negb (direction_is_none (tr_direction tr))
    then add_event (EvUnmap t (tr_used tr)) ch else ch in
  let ch2 := store_trans t (set_len 8128 tr) ch1 in
  let ch3 := ipa_gsi_trans_complete t ch2 in
  ch4 ← complete t ch3;
  ipa_trans_free t ch4.

(** The callback up to and with its [complete()], where a waiter can
    resume; its [ipa_trans_free] is still to come. *)
Definition bam_trans_callback_signal (t : Z) (ch : ipa_channel)
  : option ipa_channel :=
  tr ← ch_mem ch !! t;
  let ch1 :=
    if negb (direction_is_none (tr_direction tr))
    then add_event (EvUnmap t (tr_used tr)) ch else ch in
  let ch2 := store_trans t (set_len 8128 tr) ch1 in
  let ch3 := ipa_gsi_trans_complete t ch2 in
  complete t ch3.

(** The loop of __bam_trans_commit over the first [used] entries of the
    scatter list: [n] entries are left, [i] is the index, [pos] the
    entries not yet visited, [info] the opcodes not yet read.  The
    result is the byte count, the DMA channel and the cookie of the
    last descriptor. *)
Fixpoint bam_commit_loop
    (t : Z) (direction : dma_transfer_direction) (used : Z)
    (n : nat) (i : Z) (pos : list scatterlist)
    (info : option (list ipa_cmd_opcode)) (opcode : ipa_cmd_opcode)
    (byte_count : Z) (chan : dma_chan) (cookie : Z)
  : option (Z * dma_chan * Z) :=
  match n with
  | O => Some (byte_count, chan, cookie)
  | S n1 =>
      match pos with
      | [] => None
      | sg :: pos1 =>
          let last_tre := i =? used - 1 in
          let addr := sg_dma_address sg in
          let len := sg_dma_len sg in
          let byte_count := u32 (byte_count + len) in
          r ← match info with
              | None => Some (opcode, None)
              | Some [] => None
              | Some (o :: info1) => Some (o, Some info1)
              end;
          let '(opcode, info1) := r in
          let imm := negb (opcode_is_none opcode) in
          let len := if imm then opcode_value opcode else len in
          let desc :=
            {| d_addr := addr; d_len := len; d_direction := direction;
               d_imm_cmd := imm; d_interrupt := last_tre;
               d_callback := if last_tre then Some t else None;
               d_cookie := 0 |} in
          let '(c, chan1) := dmaengine_submit chan desc in
          let cookie := if last_tre then c else cookie in
          bam_commit_loop t direction used n1 (i + 1) pos1 info1 opcode
                          byte_count chan1 cookie
      end
  end.

(** __bam_trans_commit *)
Definition __bam_trans_commit (t : Z) (ch : ipa_channel)
  : option ipa_channel :=
  tr ← ch_mem ch !! t;
  let direction :=
    if ch_toward_ipa ch then DMA_MEM_TO_DEV else DMA_DEV_TO_MEM in
  r ← bam_commit_loop t direction (tr_used tr) (Z.to_nat (tr_used tr)) 0
        (tr_sgl tr) (tr_info tr) IPA_CMD_NONE 0 (ch_priv ch)
        (tr_cookie tr);
  let '(byte_count, chan1, cookie) := r in
  let tr1 := set_cookie cookie tr in
  let ch1 := store_trans t tr1 (set_priv chan1 ch) in
  let ch2 :=
    if ch_toward_ipa ch then
      store_trans t
        (set_counts byte_count (ch_byte_count ch1) (ch_trans_count ch1) tr1)
        (set_totals (u64 (ch_byte_count ch1 + byte_count))
                    (u64 (ch_trans_count ch1 + 1)) ch1)
    else ch1 in
  let ch3 := ipa_trans_move_pending t ch2 in
  Some (set_priv (dma_async_issue_pending (ch_priv ch3)) ch3).

(** bam_trans_commit *)
Definition bam_trans_commit (t : Z) (ch : ipa_channel)
  : option ipa_channel :=
  tr ← ch_mem ch !! t;
  if negb (tr_used tr =? 0) then __bam_trans_commit t ch
  else ipa_trans_free t ch.

(** bam_trans_commit_wait *)
Definition bam_trans_commit_wait
    (during : ipa_channel → option ipa_channel) (t : Z) (ch : ipa_channel)
  : option ipa_channel :=
  tr ← ch_mem ch !! t;
  if tr_used tr =? 0 then ipa_trans_free t ch
  else
    ch1 ← refcount_inc t ch;
    ch2 ← __bam_trans_commit t ch1;
    ch3 ← wait_for_completion during t ch2;
    ipa_trans_free t ch3.

(** bam_trans_commit_wait_timeout: the result is the value returned
    and the channel. *)
Definition bam_trans_commit_wait_timeout
    (HZ : Z) (during : ipa_channel → option ipa_channel) (left : Z)
    (t : Z) (timeout : Z) (ch : ipa_channel)
  : option (Z * ipa_channel) :=
  let timeout_jiffies := msecs_to_jiffies HZ timeout in
  tr ← ch_mem ch !! t;
  r ← (if tr_used tr =? 0 then Some (1, ch)
       else
         ch1 ← refcount_inc t ch;
         ch2 ← __bam_trans_commit t ch1;
         wait_for_completion_timeout during left t timeout_jiffies ch2);
  let '(remaining, ch3) := r in
  ch4 ← ipa_trans_free t ch3;
  Some (if negb (remaining =? 0) then 0 else - ETIMEDOUT, ch4).

(** Modelled from the spec: ipa_trans_page_add (ipa_trans.c is not among
    the sources): one scatter entry of the transaction is filled in and
    [used] grows by one. *)
Definition ipa_trans_page_add (t : Z) (addr size : Z) (ch : ipa_channel)
  : option ipa_channel :=
  tr ← ch_mem ch !! t;
  Some (store_trans t
          {| tr_channel_id := tr_channel_id tr;
             tr_cancelled := tr_cancelled tr;
             tr_tre_count := tr_tre_count tr;
             tr_used := u8 (tr_used tr + 1);
             tr_len := tr_len tr;
             tr_sgl :=
               <[Z.to_nat (tr_used tr) :=
                   {| sg_dma_address := addr; sg_dma_len := u32 size |}]>
                 (tr_sgl tr);
             tr_info := tr_info tr; tr_direction := tr_direction tr;
             tr_cookie := tr_cookie tr; tr_refcount := tr_refcount tr;
             tr_completion := tr_completion tr;
             tr_byte_count := tr_byte_count tr;
             tr_trans_count := tr_trans_count tr |} ch).

(** *** The BAM channel code: the completion harvester *)

(** bam_channel_trans_complete: the oldest completed transaction, or
    NULL. *)
Definition bam_channel_trans_complete (ch : ipa_channel) : option Z :=
  head (ti_complete (ch_trans_info ch)).

(** bam_channel_tx_update *)
Definition bam_channel_tx_update (ch : ipa_channel) (tr : ipa_trans)
  : ipa_channel :=
  let byte_count := u64 (tr_byte_count tr + tr_len tr) in
  let trans_count := u64 (tr_trans_count tr + 1) in
  let byte_count := u64 (byte_count - ch_compl_byte_count ch) in
  let compl_byte_count := u64 (ch_compl_byte_count ch + byte_count) in
  let trans_count := u64 (trans_count - ch_compl_trans_count ch) in
  let compl_trans_count := u64 (ch_compl_trans_count ch + trans_count) in
  add_event (EvTxCompleted trans_count byte_count)
            (set_compl compl_byte_count compl_trans_count ch).

(** bam_channel_rx_update *)
Definition bam_channel_rx_update (ch : ipa_channel) (tr : ipa_trans)
  : ipa_channel :=
  let byte_count := u64 (tr_byte_count tr + tr_len tr) in
  set_totals (u64 (ch_byte_count ch + byte_count))
             (u64 (ch_trans_count ch + 1)) ch.

(** Where the iterator of list_for_each_entry stands after the loop: at
    an entry of the list, or at the head of the list itself, which is
    no transaction. *)
Inductive list_cursor : Set :=
| AtEntry (t : Z)
| AtListHead.

(** The loop of bam_channel_update over the pending list: it stops at
    the first transaction whose DMA status is complete. *)
Fixpoint bam_pending_scan
    (chan : dma_chan) (mem : gmap Z ipa_trans) (l : list Z)
  : option list_cursor :=
  match l with
  | [] => Some AtListHead
  | t :: l1 =>
      tr ← mem !! t;
      if dma_status_is_complete
           (dma_async_is_tx_complete chan (tr_cookie tr))
      then Some (AtEntry t)
      else bam_pending_scan chan mem l1
  end.

(** bam_channel_update.  What follows the loop goes through the
    iterator; at the list head that is an access to no transaction,
    which has no defined result. *)
Definition bam_channel_update (ch : ipa_channel) : option ipa_channel :=
  c ← bam_pending_scan (ch_priv ch) (ch_mem ch)
        (ti_pending (ch_trans_info ch));
  match c with
  | AtListHead => None
  | AtEntry t =>
      ch1 ← refcount_inc t ch;
      tr ← ch_mem ch1 !! t;
      let ch2 :=
        if ch_toward_ipa ch1 then bam_channel_tx_update ch1 tr
        else bam_channel_rx_update ch1 tr in
      let ch3 := ipa_trans_move_complete t ch2 in
      ipa_trans_free t ch3
  end.

(** bam_channel_poll_one: the transaction returned (or NULL) and the
    channel. *)
Definition bam_channel_poll_one (ch : ipa_channel)
  : option (option Z * ipa_channel) :=
  r ← match bam_channel_trans_complete ch with
      | Some t => Some (Some t, ch)
      | None =>
          ch1 ← bam_channel_update ch;
          Some (bam_channel_trans_complete ch1, ch1)
      end;
  let '(trans, ch1) := r in
  match trans with
  | Some t => Some (Some t, ipa_trans_move_polled t ch1)
  | None => Some (None, ch1)
  end.

Definition napi_complete (ch : ipa_channel) : ipa_channel :=
  add_event EvNapiComplete ch.

(** The while loop of bam_channel_poll; [n] bounds the iterations that
    are left, which is [budget - count]. *)
Fixpoint bam_channel_poll_loop
    (n : nat) (budget count : Z) (ch : ipa_channel)
  : option (Z * ipa_channel) :=
  if count <? budget then
    match n with
    | O => Some (count, ch)
    | S n1 =>
        let count := count + 1 in
        r ← bam_channel_poll_one ch;
        let '(trans, ch1) := r in
        match trans with
        | None => Some (count, ch1)
        | Some t =>
            ch2 ← ipa_trans_complete t ch1;
            bam_channel_poll_loop n1 budget count ch2
        end
    end
  else Some (count, ch).

(** bam_channel_poll: the number of items polled and the channel. *)
Definition bam_channel_poll (ch : ipa_channel) (budget : Z)
  : option (Z * ipa_channel) :=
  r ← bam_channel_poll_loop (Z.to_nat budget) budget 0 ch;
  let '(count, ch1) := r in
  Some (count, if count <? budget then napi_complete ch1 else ch1).

(** bam_channel_reset: no reset for BAM. *)
Definition bam_channel_reset
    (ch : ipa_channel) (channel_id : Z) (doorbell : bool) : ipa_channel :=
  ch.

(** ipa_channel_reset, for a transport whose [channel_reset] is the BAM
    one. *)
Definition ipa_channel_reset
    (ch : ipa_channel) (channel_id : Z) (doorbell : bool) : ipa_channel :=
  bam_channel_reset ch channel_id doorbell.

(** *** Observations on a channel *)

(** The stages of the life of a transaction: the list it is on, or
    none of them (not allocated, or freed). *)
Inductive stage : Set :=
| Allocated | Pending | Complete | Polled | Freed.

Definition stage_of (ch : ipa_channel) (t : Z) : stage :=
  let ti := ch_trans_info ch in
  if decide (t ∈ ti_alloc ti) then Allocated
  else if decide (t ∈ ti_pending ti) then Pending
  else if decide (t ∈ ti_complete ti) then Complete
  else if decide (t ∈ ti_polled ti) then Polled
  else Freed.

Definition stage_rank (s : stage) : Z :=
  match s with
  | Allocated => 0 | Pending => 1 | Complete => 2 | Polled => 3
  | Freed => 4
  end.

(** One step of the order Allocated, Pending, Complete, Polled, Freed:
    the stage stays or moves to the next one. *)
Definition stage_step (s s' : stage) : Prop :=
  stage_rank s' = stage_rank s ∨ stage_rank s' = stage_rank s + 1.

(** All the transactions linked on the lists of the channel. *)
Definition ti_queued (ti : ipa_trans_info) : list Z :=
  ti_alloc ti ++ ti_pending ti ++ ti_complete ti ++ ti_polled ti.

Definition queued (ch : ipa_channel) : list Z :=
  ti_queued (ch_trans_info ch).

(** No transaction is on two lists, or twice on one. *)
Definition ti_disjoint (ti : ipa_trans_info) : Prop := NoDup (ti_queued ti).

Definition queues_disjoint (ch : ipa_channel) : Prop :=
  ti_disjoint (ch_trans_info ch).

(** How often the pool slot of [t] was given back. *)
Definition releases (t : Z) (ch : ipa_channel) : nat :=
  length (filter (λ e, e = EvRelease t) (ch_log ch)).

(** How often the finalisation of [t] ran. *)
Definition finalised (t : Z) (ch : ipa_channel) : nat :=
  length (filter (λ e, e = EvGsiComplete t) (ch_log ch)).

(** The finalisations of a log. *)
Definition is_finalisation (e : event) : bool :=
  match e with EvGsiComplete _ => true | _ => false end.

Definition finalisations (ch : ipa_channel) : list event :=
  List.filter is_finalisation (ch_log ch).

(** The transfer elements reserved by the transactions on the lists. *)
Definition outstanding_tres (ch : ipa_channel) : Z :=
  foldr (λ t acc,
           tr_tre_count (default trans_zero (ch_mem ch !! t)) + acc)
        0 (queued ch).

(** A transaction that can be committed: its scatter list and, if any,
    its opcode array hold the [used] entries. *)
Definition trans_ready (tr : ipa_trans) : Prop :=
  0 <= tr_used tr ∧
  (Z.to_nat (tr_used tr) <= length (tr_sgl tr))%nat ∧
  match tr_info tr with
  | None => True
  | Some l => (Z.to_nat (tr_used tr) <= length l)%nat
  end.

(** The commit of [t] on [ch] is [ipa_trans_free]: it leaves the DMA
    channel as it was (nothing is prepared, submitted or issued) and
    does not put [t] on the pending list. *)
Definition empty_commit_is_free (t : Z) (ch : ipa_channel) : Prop :=
  bam_trans_commit t ch = ipa_trans_free t ch ∧
  ∀ ch', bam_trans_commit t ch = Some ch' →
    ch_priv ch' = ch_priv ch ∧
    (t ∉ ti_pending (ch_trans_info ch) →
     t ∉ ti_pending (ch_trans_info ch')).

(** Between [ch] and [ch'] the transaction [t] was not released: it is
    on the pending list and one reference to it is left. *)
Definition still_held (t : Z) (ch ch' : ipa_channel) : Prop :=
  releases t ch' = releases t ch ∧
  stage_of ch' t = Pending ∧
  tr_refcount <$> ch_mem ch' !! t = Some 1.

(** Between [ch] and [ch'] the transaction [t] was released, once: its
    slot was given back one more time, it is on no list and no
    reference to it is left. *)
Definition released_once (t : Z) (ch ch' : ipa_channel) : Prop :=
  releases t ch' = S (releases t ch) ∧
  stage_of ch' t = Freed ∧
  tr_refcount <$> ch_mem ch' !! t = Some 0.

(** The two holders of a committed transaction, the waiter and the
    completion callback.  [bam_trans_commit_wait] takes the waiter's
    reference, commits and sleeps: [ch1] is the channel in which it
    sleeps, that is, whatever the rest of the system does during the
    wait it does to [ch1], and the waiter goes on from there, if the
    completion was signalled, with the drop of its reference.  In [ch1]
    the transaction has two references and is pending.  When nothing
    signals the completion the waiter does not return, and so releases
    nothing.  From [ch1] the transaction is released once, by whichever
    of the two holders drops its reference last: the waiter first and
    the callback after it, the callback first and the waiter after it,
    and the waiter resuming on the [complete()] of the callback and
    dropping its reference before the callback drops its own.  The last
    two are also runs of [bam_trans_commit_wait] itself: with the
    callback up to its [complete()] during the wait the waiter returns
    with the transaction still held, and the [ipa_trans_free] of the
    callback releases it; with the whole callback during the wait the
    waiter returns with the transaction released. *)
Definition two_holders_release_once (t : Z) (ch : ipa_channel) : Prop :=
  ∃ ch1,
    refcount_inc t ch ≫= __bam_trans_commit t = Some ch1 ∧
    (∀ during,
        bam_trans_commit_wait during t ch
        = (during ch1 ≫= wait_for_completion (λ _, None) t)
            ≫= ipa_trans_free t) ∧
    bam_trans_commit_wait Some t ch = None ∧
    (tr_refcount <$> ch_mem ch1 !! t = Some 2 ∧
     stage_of ch1 t = Pending ∧
     releases t ch1 = releases t ch) ∧
    (∃ ch2 ch3,
        ipa_trans_free t ch1 = Some ch2 ∧ still_held t ch ch2 ∧
        bam_trans_callback t ch2 = Some ch3 ∧ released_once t ch ch3) ∧
    (∃ ch2 ch3,
        bam_trans_callback t ch1 = Some ch2 ∧ still_held t ch ch2 ∧
        ipa_trans_free t ch2 = Some ch3 ∧ released_once t ch ch3) ∧
    (∃ ch2 ch3 ch4,
        bam_trans_callback t ch1
        = bam_trans_callback_signal t ch1 ≫= ipa_trans_free t ∧
        bam_trans_callback_signal t ch1 = Some ch2 ∧
        wait_for_completion Some t ch2 ≫= ipa_trans_free t = Some ch3 ∧
        still_held t ch ch3 ∧
        ipa_trans_free t ch3 = Some ch4 ∧ released_once t ch ch4) ∧
    (∃ ch3 ch4,
        bam_trans_commit_wait (bam_trans_callback_signal t) t ch = Some ch3 ∧
        still_held t ch ch3 ∧
        ipa_trans_free t ch3 = Some ch4 ∧ released_once t ch ch4) ∧
    (∃ ch3,
        bam_trans_commit_wait (bam_trans_callback t) t ch = Some ch3 ∧
        released_once t ch ch3).

(** A wait of 0 ms for a transaction the hardware has not completed:
    the result is -ETIMEDOUT and the transaction is still held; the
    callback that fires later finalises and releases it. *)
Definition timeout_keeps_transaction (HZ : Z) (t : Z) (ch : ipa_channel)
  : Prop :=
  ∃ ch1,
    bam_trans_commit_wait_timeout HZ Some 0 t 0 ch
    = Some (- ETIMEDOUT, ch1) ∧
    still_held t ch ch1 ∧
    finalised t ch1 = finalised t ch ∧
    ∃ ch2,
      bam_trans_callback t ch1 = Some ch2 ∧
      finalised t ch2 = S (finalised t ch) ∧
      released_once t ch ch2.

(** The completed transactions of the channel can be retired: each is
    once on the complete list and is a live transaction. *)
Definition complete_ready (ch : ipa_channel) : Prop :=
  NoDup (ti_complete (ch_trans_info ch)) ∧
  ∀ t, t ∈ ti_complete (ch_trans_info ch) →
       ∃ tr, ch_mem ch !! t = Some tr ∧ 0 < tr_refcount tr.

(** One invocation of the poll routine with the budget [K] on the
    channel [ch].  Whatever the loop has done after any number of
    rounds, and whatever the routine returns, the count is at most [K]
    and at most [K] transactions were finalised; and when [K] or more
    completed transactions are at hand, the routine returns [K],
    having finalised the first [K] of them and left the others on the
    complete list. *)
Definition poll_within_budget (ch : ipa_channel) (K : Z) : Prop :=
  (∀ n count ch',
      bam_channel_poll_loop n K 0 ch = Some (count, ch') →
      0 <= count <= K ∧
      (length (finalisations ch')
       <= length (finalisations ch) + Z.to_nat count)%nat) ∧
  (∀ count ch',
      bam_channel_poll ch K = Some (count, ch') →
      0 <= count <= K ∧
      (length (finalisations ch')
       <= length (finalisations ch) + Z.to_nat K)%nat) ∧
  (complete_ready ch →
   (Z.to_nat K <= length (ti_complete (ch_trans_info ch)))%nat →
   ∃ ch',
     bam_channel_poll ch K = Some (K, ch') ∧
     ti_complete (ch_trans_info ch')
     = drop (Z.to_nat K) (ti_complete (ch_trans_info ch)) ∧
     finalisations ch'
     = finalisations ch
         ++ map EvGsiComplete
                (take (Z.to_nat K) (ti_complete (ch_trans_info ch)))).

(** The operations that act on the transactions of a channel, but for
    the allocation. *)
Inductive trans_op : Set :=
| OpCommit (t : Z)        (* bam_trans_commit *)
| OpCommitRaw (t : Z)     (* __bam_trans_commit *)
| OpCallback (t : Z)      (* bam_trans_callback *)
| OpUpdate                (* bam_channel_update *)
| OpPollOne               (* bam_channel_poll_one *)
| OpComplete (t : Z)      (* ipa_trans_complete *)
| OpFree (t : Z).         (* ipa_trans_free *)

Definition run_op (op : trans_op) (ch : ipa_channel) : option ipa_channel :=
  match op with
  | OpCommit t => bam_trans_commit t ch
  | OpCommitRaw t => __bam_trans_commit t ch
  | OpCallback t => bam_trans_callback t ch
  | OpUpdate => bam_channel_update ch
  | OpPollOne => snd <$> bam_channel_poll_one ch
  | OpComplete t => ipa_trans_complete t ch
  | OpFree t => ipa_trans_free t ch
  end.

(** A transaction is committed by the caller that allocated it: it is
    on the alloc list. *)
Definition op_allowed (op : trans_op) (ch : ipa_channel) : Prop :=
  match op with
  | OpCommit t | OpCommitRaw t => t ∈ ti_alloc (ch_trans_info ch)
  | _ => True
  end.

(** The move between lists that an operation is there for.  The poll
    step takes a transaction from the complete list, on which the
    update it runs may just have put it. *)
Definition op_move (op : trans_op) (s s' : stage) : Prop :=
  match op with
  | OpCommit _ | OpCommitRaw _ => s = Allocated ∧ s' = Pending
  | OpUpdate => s = Pending ∧ s' = Complete
  | OpPollOne => (s = Complete ∨ s = Pending) ∧ s' = Polled
  | _ => False
  end.

(** What an operation [op] that takes the channel from [ch] to [ch']
    does to the transactions: the lists stay disjoint, and a
    transaction stays where it is, is freed, or makes the move the
    operation is there for; it never moves backward. *)
Definition op_forward (ch : ipa_channel) (op : trans_op) (ch' : ipa_channel)
  : Prop :=
  queues_disjoint ch' ∧
  ∀ t,
    stage_rank (stage_of ch t) <= stage_rank (stage_of ch' t) ∧
    (stage_of ch' t = stage_of ch t ∨
     stage_of ch' t = Freed ∨
     op_move op (stage_of ch t) (stage_of ch' t)).

(** The life cycle on a channel [ch]: what the allocation, the commit,
    the update and the poll step do to the transaction they handle, and
    what any operation does to any transaction. *)
Definition lifecycle_forward (ch : ipa_channel) : Prop :=
  (∀ channel_id tre_count direction t ch',
      bam_channel_trans_alloc ch channel_id tre_count direction
      = Some (Some t, ch') →
      t ∉ queued ch →
      queues_disjoint ch' ∧
      ti_alloc (ch_trans_info ch') = ti_alloc (ch_trans_info ch) ++ [t] ∧
      stage_of ch' t = Allocated ∧
      ∀ t', t' ≠ t → stage_of ch' t' = stage_of ch t') ∧
  (∀ t ch',
      t ∈ ti_alloc (ch_trans_info ch) →
      __bam_trans_commit t ch = Some ch' →
      stage_of ch t = Allocated ∧ stage_of ch' t = Pending) ∧
  (∀ ch',
      bam_channel_update ch = Some ch' →
      ∃ t, stage_of ch t = Pending ∧ stage_of ch' t = Complete) ∧
  (∀ t ch',
      bam_channel_poll_one ch = Some (Some t, ch') →
      stage_of ch' t = Polled ∧
      (stage_of ch t = Complete ∨
       ∃ ch1, bam_channel_update ch = Some ch1 ∧
              stage_of ch t = Pending ∧ stage_of ch1 t = Complete)) ∧
  (∀ op ch',
      op_allowed op ch →
      run_op op ch = Some ch' →
      op_forward ch op ch').

(** *** A channel to run examples on *)

Definition dma_chan_init : dma_chan :=
  {| chan_cookie := 0; chan_completed_cookie := 0;
     chan_submitted := []; chan_issued := 0%nat |}.

Definition bam_channel_init (toward_ipa : bool) : ipa_channel :=
  {| ch_toward_ipa := toward_ipa; ch_byte_count := 0; ch_trans_count := 0;
     ch_compl_byte_count := 0; ch_compl_trans_count := 0;
     ch_priv := dma_chan_init; ch_trans_info := bam_channel_trans_init;
     ch_mem := ∅; ch_log := [] |}.

(** A TX channel after set-up. *)
Definition ch_fresh : ipa_channel := bam_channel_init true.

(** One transaction of one element allocated, nothing added to it. *)
Definition ch_one_alloc : ipa_channel :=
  default ch_fresh (snd <$> bam_channel_trans_alloc ch_fresh 0 1 DMA_NONE).

(** One page of 100 bytes added to that transaction. *)
Definition ch_one_filled : ipa_channel :=
  default ch_one_alloc (ipa_trans_page_add 0 4096 100 ch_one_alloc).

(** The transaction committed: it is with the hardware. *)
Definition ch_one_pending : ipa_channel :=
  default ch_one_filled (bam_trans_commit 0 ch_one_filled).

(** The hardware has finished the descriptors up to [cookie]. *)
Definition hw_completes (cookie : Z) (ch : ipa_channel) : ipa_channel :=
  set_priv
    {| chan_cookie := chan_cookie (ch_priv ch);
       chan_completed_cookie := cookie;
       chan_submitted := chan_submitted (ch_priv ch);
       chan_issued := chan_issued (ch_priv ch) |} ch.

(** Allocate a transaction of one element, add a page of 100 bytes to
    it and commit it. *)
Definition submit_one (ch : ipa_channel) : option ipa_channel :=
  r ← bam_channel_trans_alloc ch 0 1 DMA_NONE;
  let '(trans, ch1) := r in
  t ← trans;
  ch2 ← ipa_trans_page_add t 4096 100 ch1;
  bam_trans_commit t ch2.

(** Three transactions committed and completed by the hardware, and
    moved to the complete list by three updates. *)
Definition ch_three_complete : ipa_channel :=
  default ch_fresh
    (ch1 ← submit_one ch_fresh;
     ch2 ← submit_one ch1;
     ch3 ← submit_one ch2;
     ch4 ← bam_channel_update (hw_completes 3 ch3);
     ch5 ← bam_channel_update ch4;
     bam_channel_update ch5).

(** [n] transactions of one element each allocated in a row, none
    freed. *)
Fixpoint bam_alloc_many (n : nat) (ch : ipa_channel) : ipa_channel :=
  match n with
  | O => ch
  | S n1 =>
      let ch1 := bam_alloc_many n1 ch in
      default ch1 (snd <$> bam_channel_trans_alloc ch1 0 1 DMA_NONE)
  end.

(** *** Further observations on a commit *)

(** The bytes of a scatter list. *)
Definition sg_bytes (l : list scatterlist) : Z :=
  foldr (λ sg acc, sg_dma_len sg + acc) 0 l.

(** The descriptor [d] is the one a commit prepares for entry [j] of a
    transaction [t] with [used] entries: the address of the entry, the
    direction of the channel, the interrupt and the callback on the last
    entry only, and for an entry that carries a command the opcode in
    place of the length. *)
Definition desc_for_entry
    (t used : Z) (direction : dma_transfer_direction)
    (info : option (list ipa_cmd_opcode)) (sgl : list scatterlist)
    (j : nat) (d : dma_async_tx_descriptor) : Prop :=
  ∃ sg,
    sgl !! j = Some sg ∧
    d_addr d = sg_dma_address sg ∧
    d_direction d = direction ∧
    d_interrupt d = (Z.of_nat j =? used - 1) ∧
    d_callback d = (if Z.of_nat j =? used - 1 then Some t else None) ∧
    let o := match info with
             | None => IPA_CMD_NONE
             | Some l => default IPA_CMD_NONE (l !! j)
             end in
    d_imm_cmd d = negb (opcode_is_none o) ∧
    d_len d = (if opcode_is_none o then sg_dma_len sg else opcode_value o).

(** What a commit hands to the DMA engine, from [ch] to [ch'], for the
    transaction [t] whose struct was [tr]. *)
Definition commit_submits
    (t : Z) (tr : ipa_trans) (ch ch' : ipa_channel) : Prop :=
  ∃ descs,
    chan_submitted (ch_priv ch') = chan_submitted (ch_priv ch) ++ descs ∧
    length descs = Z.to_nat (tr_used tr) ∧
    (∀ j d, descs !! j = Some d →
            desc_for_entry t (tr_used tr)
              (if ch_toward_ipa ch then DMA_MEM_TO_DEV else DMA_DEV_TO_MEM)
              (tr_info tr) (tr_sgl tr) j d) ∧
    chan_issued (ch_priv ch') = length (chan_submitted (ch_priv ch')) ∧
    (∀ d, last descs = Some d →
          tr_cookie <$> ch_mem ch' !! t = Some (d_cookie d) ∧
          chan_cookie (ch_priv ch') = d_cookie d).

(** The counters after a commit, from [ch] to [ch'], of the transaction
    [t] whose struct was [tr]: on a TX channel the transaction takes the
    totals of the channel as they were and the channel counts the
    transaction and its bytes; on an RX channel nothing is counted. *)
Definition commit_counts
    (t : Z) (tr : ipa_trans) (ch ch' : ipa_channel) : Prop :=
  let bytes := u32 (sg_bytes (take (Z.to_nat (tr_used tr)) (tr_sgl tr))) in
  ch_compl_byte_count ch' = ch_compl_byte_count ch ∧
  ch_compl_trans_count ch' = ch_compl_trans_count ch ∧
  ∃ tr',
    ch_mem ch' !! t = Some tr' ∧
    if ch_toward_ipa ch then
      tr_len tr' = bytes ∧
      tr_byte_count tr' = ch_byte_count ch ∧
      tr_trans_count tr' = ch_trans_count ch ∧
      ch_byte_count ch' = u64 (ch_byte_count ch + bytes) ∧
      ch_trans_count ch' = u64 (ch_trans_count ch + 1)
    else
      tr_len tr' = tr_len tr ∧
      tr_byte_count tr' = tr_byte_count tr ∧
      tr_trans_count tr' = tr_trans_count tr ∧
      ch_byte_count ch' = ch_byte_count ch ∧
      ch_trans_count ch' = ch_trans_count ch.

(** The completed totals of a TX channel after the commit of [t] and
    the update for it: they are the totals of the channel, the event
    reports the step from the old completed totals, and a second update
    for the same transaction reports nothing more. *)
Definition tx_accounting (t : Z) (ch ch' : ipa_channel) : Prop :=
  ∃ tr',
    ch_mem ch' !! t = Some tr' ∧
    let ch2 := bam_channel_tx_update ch' tr' in
    ch_compl_byte_count ch2 = ch_byte_count ch' ∧
    ch_compl_trans_count ch2 = ch_trans_count ch' ∧
    ch_log ch2
    = ch_log ch'
        ++ [EvTxCompleted
              (u64 (ch_trans_count ch' - ch_compl_trans_count ch'))
              (u64 (ch_byte_count ch' - ch_compl_byte_count ch'))] ∧
    ch_log (bam_channel_tx_update ch2 tr')
    = ch_log ch2 ++ [EvTxCompleted 0 0].

(** The update of [ch] to [ch'] moved the transaction [t]: it was the
    first on the pending list that the hardware had completed, it is
    now at the tail of the complete list with the reference count it
    had, and nothing else changed place or content. *)
Definition update_moves_first (ch ch' : ipa_channel) (t : Z) : Prop :=
  (∃ before after,
      ti_pending (ch_trans_info ch) = before ++ t :: after ∧
      (∀ x, x ∈ before →
            ∃ trx, ch_mem ch !! x = Some trx ∧
                   dma_async_is_tx_complete (ch_priv ch) (tr_cookie trx)
                   ≠ DMA_COMPLETE) ∧
      ∃ tr, ch_mem ch !! t = Some tr ∧
            dma_async_is_tx_complete (ch_priv ch) (tr_cookie tr)
            = DMA_COMPLETE) ∧
  ch_trans_info ch' = ch_trans_info (ipa_trans_move_complete t ch) ∧
  tr_refcount <$> ch_mem ch' !! t = tr_refcount <$> ch_mem ch !! t ∧
  (∀ t', t' ≠ t → ch_mem ch' !! t' = ch_mem ch !! t') ∧
  ch_priv ch' = ch_priv ch.

(** A commit with a wait of a transaction that is not empty: when the
    callback runs during the wait the result is 0 and the transaction
    has been finalised and released, once; when nothing completes it
    during the wait the result is -ETIMEDOUT and the transaction is
    still held. *)
Definition wait_timeout_outcomes
    (HZ timeout left : Z) (t : Z) (ch : ipa_channel) : Prop :=
  (∃ ch',
      bam_trans_commit_wait_timeout HZ (bam_trans_callback t) left t timeout ch
      = Some (0, ch') ∧
      released_once t ch ch' ∧ finalised t ch' = S (finalised t ch)) ∧
  (∃ ch',
      bam_trans_commit_wait_timeout HZ Some left t timeout ch
      = Some (- ETIMEDOUT, ch') ∧
      still_held t ch ch' ∧ finalised t ch' = finalised t ch).

(** *** The channels of the transport: set-up, tear-down, exit *)

Definition IPA_CHANNEL_COUNT_MAX : Z := 20.

(** What set-up, tear-down and exit read of a channel of the array
    [transport->channel]: whether it was initialised ([channel->transport]
    is set), its direction, and whether it has its DMA channel
    ([channel->priv] is set). *)
Record bam_channel_slot : Set := {
  bs_transport : bool;
  bs_toward_ipa : bool;
  bs_priv : bool
}.

(** The calls into the kernel these functions make. *)
Inductive transport_event : Set :=
| TeMutexLock
| TeMutexUnlock
| TeMutexDestroy
| TeNapiAdd (channel_id : Z) (tx : bool)   (* netif_(tx_)napi_add *)
| TeNapiSchedule (channel_id : Z)
| TeNapiEnable (channel_id : Z)
| TeNapiDel (channel_id : Z)
| TeDmaTerminate (channel_id : Z)          (* dmaengine_terminate_sync *)
| TeDmaRelease (channel_id : Z).           (* dma_release_channel *)

Global Instance transport_event_eq_dec : EqDecision transport_event.
Proof. solve_decision. Defined.

(** How often the DMA channel of [channel_id] was released. *)
Definition dma_releases (channel_id : Z) (log : list transport_event) : nat :=
  length (filter (λ e, e = TeDmaRelease channel_id) log).

(** [&bam->base.channel[channel_id]]; an index outside the array is an
    access to no channel. *)
Definition bam_channel_at (chans : list bam_channel_slot) (channel_id : Z)
  : option bam_channel_slot :=
  if (0 <=? channel_id) && (channel_id <? IPA_CHANNEL_COUNT_MAX)
  then chans !! Z.to_nat channel_id else None.

(** bam_channel_setup_one *)
Definition bam_channel_setup_one
    (chans : list bam_channel_slot) (channel_id : Z)
    (log : list transport_event) : option (list transport_event) :=
  channel ← bam_channel_at chans channel_id;
  if negb (bs_transport channel) then Some log
  else
    Some (log ++ [TeNapiAdd channel_id (bs_toward_ipa channel);
                  TeNapiSchedule channel_id;
                  TeNapiEnable channel_id]).

(** Whether the pointer [channel->transport] is set, read through
    [&bam->base.channel[channel_id]].  For an index of the array this
    is the field of that channel.  The index IPA_CHANNEL_COUNT_MAX is
    one past the last channel: [transport] is the first field of a
    channel, so the read is of what follows the array in struct
    ipa_transport, the u32 [channel_count] (and, where a pointer is
    wider, the padding after it, which is 0 as the allocation of the
    transport left it), and the pointer reads as set when
    [channel_count] is not 0.  Further out nothing is read. *)
Definition bam_channel_transport_at
    (chans : list bam_channel_slot) (channel_count : Z) (channel_id : Z)
  : option bool :=
  if channel_id =? IPA_CHANNEL_COUNT_MAX
  then Some (negb (u32 channel_count =? 0))
  else bs_transport <$> bam_channel_at chans channel_id.

(** bam_channel_teardown_one; [channel_count] is the field of the
    transport that follows the array of its channels.  The NAPI
    context that is deleted is that of a channel of the array; past
    the array there is none. *)
Definition bam_channel_teardown_one
    (chans : list bam_channel_slot) (channel_count : Z) (channel_id : Z)
    (log : list transport_event) : option (list transport_event) :=
  transport ← bam_channel_transport_at chans channel_count channel_id;
  if negb transport then Some log
  else
    channel ← bam_channel_at chans channel_id;
    Some (log ++ [TeNapiDel channel_id]).

(** bam_channel_exit_one *)
Definition bam_channel_exit_one
    (chans : list bam_channel_slot) (channel_id : Z)
    (log : list transport_event) : option (list transport_event) :=
  channel ← bam_channel_at chans channel_id;
  if negb (bs_priv channel) then Some log
  else Some (log ++ [TeDmaTerminate channel_id; TeDmaRelease channel_id]).

(** A loop [do body(channel_id); while (channel_id--)]: the body runs
    for [channel_id], then for every index below it, down to 0. *)
Fixpoint bam_count_down
    (body : Z → list transport_event → option (list transport_event))
    (channel_id : nat) (log : list transport_event)
  : option (list transport_event) :=
  log1 ← body (Z.of_nat channel_id) log;
  match channel_id with
  | O => Some log1
  | S below => bam_count_down body below log1
  end.

(** The first loop of bam_channel_setup,
    [do setup_one(channel_id); while (++channel_id < BAM_CHANNEL_COUNT_MAX)];
    [n] bounds the rounds that are left.  The result is the index the
    loop ends with, and the log. *)
Fixpoint bam_channel_setup_loop
    (chans : list bam_channel_slot) (n : nat) (channel_id : Z)
    (log : list transport_event) : option (Z * list transport_event) :=
  log1 ← bam_channel_setup_one chans channel_id log;
  let channel_id := channel_id + 1 in
  if channel_id <? BAM_CHANNEL_COUNT_MAX then
    match n with
    | O => Some (channel_id, log1)
    | S n1 => bam_channel_setup_loop chans n1 channel_id log1
    end
  else Some (channel_id, log1).

(** The second loop of bam_channel_setup, which looks for a channel
    that is defined and that the hardware does not support: the index
    of such a channel, or none. *)
Fixpoint bam_channel_setup_check
    (chans : list bam_channel_slot) (n : nat) (channel_id : Z)
  : option (option Z) :=
  if channel_id <? BAM_CHANNEL_COUNT_MAX then
    match n with
    | O => Some None
    | S n1 =>
        channel ← bam_channel_at chans channel_id;
        if negb (bs_transport channel)
        then bam_channel_setup_check chans n1 (channel_id + 1)
        else Some (Some channel_id)
    end
  else Some None.

(** How bam_channel_setup ends: with the value it returns, or on its
    error path, which returns a variable that was never assigned. *)
Inductive setup_result : Set :=
| SetupReturns (ret : Z)
| SetupUnwinds.

(** bam_channel_setup *)
Definition bam_channel_setup
    (chans : list bam_channel_slot) (channel_count : Z)
  : option (setup_result * list transport_event) :=
  let log := [TeMutexLock] in
  r ← bam_channel_setup_loop chans (Z.to_nat BAM_CHANNEL_COUNT_MAX) 0 log;
  let '(channel_id, log1) := r in
  unsupported ←
    bam_channel_setup_check chans (Z.to_nat BAM_CHANNEL_COUNT_MAX) channel_id;
  match unsupported with
  | None => Some (SetupReturns 0, log1 ++ [TeMutexUnlock])
  | Some _ =>
      log2 ←
        bam_count_down (bam_channel_teardown_one chans channel_count)
          (Z.to_nat (BAM_CHANNEL_COUNT_MAX - 1)) log1;
      Some (SetupUnwinds, log2 ++ [TeMutexUnlock])
  end.

(** bam_channel_teardown *)
Definition bam_channel_teardown
    (chans : list bam_channel_slot) (channel_count : Z)
  : option (list transport_event) :=
  log ←
    bam_count_down (bam_channel_teardown_one chans channel_count)
      (Z.to_nat BAM_CHANNEL_COUNT_MAX) [TeMutexLock];
  Some (log ++ [TeMutexUnlock]).

(** bam_channel_exit *)
Definition bam_channel_exit (chans : list bam_channel_slot)
  : option (list transport_event) :=
  bam_count_down (bam_channel_exit_one chans)
    (Z.to_nat (BAM_CHANNEL_COUNT_MAX - 1)) [].

(** bam_exit *)
Definition bam_exit (chans : list bam_channel_slot)
  : option (list transport_event) :=
  log ← bam_channel_exit chans;
  Some (TeMutexDestroy :: log).

(** The [k] indices of the array from [channel_id] up. *)
Fixpoint ids_up (channel_id : Z) (k : nat) : list Z :=
  match k with
  | O => []
  | S k1 => channel_id :: ids_up (channel_id + 1) k1
  end.

(** The indices of the array from [n - 1] down to 0. *)
Fixpoint ids_down (n : nat) : list Z :=
  match n with
  | O => []
  | S k => Z.of_nat k :: ids_down k
  end.

(** What set-up does for the channel [channel_id]. *)
Definition setup_events (chans : list bam_channel_slot) (channel_id : Z)
  : list transport_event :=
  match bam_channel_at chans channel_id with
  | Some channel =>
      if bs_transport channel
      then [TeNapiAdd channel_id (bs_toward_ipa channel);
            TeNapiSchedule channel_id; TeNapiEnable channel_id]
      else []
  | None => []
  end.

(** What exit does for the channel [channel_id]. *)
Definition exit_events (chans : list bam_channel_slot) (channel_id : Z)
  : list transport_event :=
  match bam_channel_at chans channel_id with
  | Some channel =>
      if bs_priv channel
      then [TeDmaTerminate channel_id; TeDmaRelease channel_id]
      else []
  | None => []
  end.

(** What tear-down does for the channel [channel_id]. *)
Definition teardown_events (chans : list bam_channel_slot) (channel_id : Z)
  : list transport_event :=
  match bam_channel_at chans channel_id with
  | Some channel =>
      if bs_transport channel then [TeNapiDel channel_id] else []
  | None => []
  end.

(** An array of twenty channels of which the channels 0, 3 and 4 were
    initialised. *)
Definition chans_example : list bam_channel_slot :=
  imap (λ i _,
          let on := bool_decide (i = 0 ∨ i = 3 ∨ i = 4)%nat in
          {| bs_transport := on; bs_toward_ipa := bool_decide (i = 3)%nat;
             bs_priv := on |})
       (replicate 20 tt).

(** Two pages on a transaction of two elements of an RX channel. *)
Definition ch_two_pages : ipa_channel :=
  let ch0 := bam_channel_init false in
  default ch0
    (r ← bam_channel_trans_alloc ch0 0 2 DMA_FROM_DEVICE;
     ipa_trans_page_add 0 4096 100 r.2 ≫= ipa_trans_page_add 0 8192 60).

(** The struct of the transaction of [ch_two_pages], and the channel
    after its commit. *)
Definition tr_two_pages : ipa_trans :=
  default trans_zero (ch_mem ch_two_pages !! 0).

Definition ch_two_committed : ipa_channel :=
  default ch_two_pages (__bam_trans_commit 0 ch_two_pages).

(** The same for the transaction of the TX channel [ch_one_filled]. *)
Definition tr_one_filled : ipa_trans :=
  default trans_zero (ch_mem ch_one_filled !! 0).

Definition ch_one_committed : ipa_channel :=
  default ch_one_filled (__bam_trans_commit 0 ch_one_filled).

(** Three transactions committed, of which the hardware has completed
    the first two. *)
Definition ch_three_pending_done : ipa_channel :=
  default ch_fresh
    (ch1 ← submit_one ch_fresh;
     ch2 ← submit_one ch1;
     ch3 ← submit_one ch2;
     Some (hw_completes 2 ch3)).

(** That channel after one update. *)
Definition ch_three_updated : ipa_channel :=
  default ch_three_pending_done (bam_channel_update ch_three_pending_done).

(** [ch_three_complete] after a poll with the budget 2, and after a
    further poll with the budget 1. *)
Definition ch_three_polled_two : ipa_channel :=
  default ch_three_complete (snd <$> bam_channel_poll ch_three_complete 2).

Definition ch_three_polled_three : ipa_channel :=
  default ch_three_polled_two
    (snd <$> bam_channel_poll ch_three_polled_two 1).

(** The struct of the committed transaction of [ch_one_committed]. *)
Definition tr_one_committed : ipa_trans :=
  default trans_zero (ch_mem ch_one_committed !! 0).

End Bam.

(** * Properties *)

Import Bitfield Bam.

Section StateLemmas.

Lemma lookup_store_eq t tr ch : ch_mem (store_trans t tr ch) !! t = Some tr.
Proof. unfold store_trans; simpl. apply lookup_insert_eq. Qed.

Lemma lookup_store_ne t t' tr ch :
  t ≠ t' → ch_mem (store_trans t tr ch) !! t' = ch_mem ch !! t'.
Proof. intros H. unfold store_trans; simpl. by apply lookup_insert_ne. Qed.

Lemma list_del_not_elem t (l : list Z) : t ∉ list_del t l.
Proof. unfold list_del. rewrite (list_elem_of_filter (λ x, x ≠ t)). tauto. Qed.

Lemma list_del_elem t x (l : list Z) : x ∈ list_del t l ↔ x ≠ t ∧ x ∈ l.
Proof. unfold list_del. apply (list_elem_of_filter (λ x, x ≠ t)). Qed.

Lemma list_del_id t (l : list Z) : t ∉ l → list_del t l = l.
Proof.
  unfold list_del. induction l as [| x l IH]; intros Hn; [done |].
  rewrite not_elem_of_cons in Hn. destruct Hn as [Hx Hl].
  rewrite filter_cons_True by congruence. by rewrite IH.
Qed.

Lemma ipa_trans_free_shared t ch tr :
  ch_mem ch !! t = Some tr → 1 < tr_refcount tr →
  ipa_trans_free t ch
  = Some (store_trans t (set_refcount (tr_refcount tr - 1) tr) ch).
Proof.
  intros Hm Hr. unfold ipa_trans_free. rewrite Hm; simpl.
  destruct (Z.leb_spec (tr_refcount tr) 0); [lia |].
  destruct (Z.eqb_spec (tr_refcount tr - 1) 0); [lia | done].
Qed.

Lemma ipa_trans_free_last t ch tr :
  ch_mem ch !! t = Some tr → tr_refcount tr = 1 →
  ipa_trans_free t ch
  = Some (add_event (EvRelease t)
            (set_trans_info (trans_unlink t (ch_trans_info ch))
               (store_trans t (set_refcount 0 tr) ch))).
Proof.
  intros Hm Hr. unfold ipa_trans_free. rewrite Hm; simpl. by rewrite Hr.
Qed.

(** Dropping a reference never touches the DMA channel and never puts
    a transaction on a list. *)
Lemma ipa_trans_free_frame t ch ch' :
  ipa_trans_free t ch = Some ch' →
  ch_priv ch' = ch_priv ch ∧
  ∀ x, (x ∈ ti_pending (ch_trans_info ch') → x ∈ ti_pending (ch_trans_info ch)).
Proof.
  unfold ipa_trans_free. intros H.
  destruct (ch_mem ch !! t) as [tr |]; simpl in H; [| done].
  destruct (tr_refcount tr <=? 0); [done |].
  destruct (tr_refcount tr - 1 =? 0); inversion H; subst; simpl.
  - split; [done |]. intros x Hx. apply list_del_elem in Hx. tauto.
  - done.
Qed.

End StateLemmas.

(** C6: commit of a transaction with no filled scatter entry submits
    nothing to the hardware, does not put the transaction on the pending
    list, and is exactly [ipa_trans_free]. *)
Theorem bam_trans_commit_empty_is_free
    (t : Z) (ch : ipa_channel) (tr : ipa_trans) :
  ch_mem ch !! t = Some tr → tr_used tr = 0 → empty_commit_is_free t ch.
Proof.
  intros Hm Hu.
  assert (E : bam_trans_commit t ch = ipa_trans_free t ch).
  { unfold bam_trans_commit. rewrite Hm; simpl. by rewrite Hu. }
  split; [done |]. intros ch' H. rewrite E in H.
  apply ipa_trans_free_frame in H as [Hp Hq]. split; [done |].
  intros Hn Hin. apply Hn, Hq, Hin.
Qed.

Lemma bam_trans_commit_empty_is_free_witness :
  empty_commit_is_free 0 ch_one_alloc.
Proof.
  eapply (bam_trans_commit_empty_is_free 0 ch_one_alloc).
  - vm_compute. reflexivity.
  - reflexivity.
Defined.

(** C10: with an empty pending list the loop of [bam_channel_update]
    leaves its iterator at the head of the list, which is no transaction,
    and the accesses that follow have no defined result; an update that
    has a result started from a pending list that is not empty. *)
Theorem bam_channel_update_needs_pending (ch : ipa_channel) :
  (ti_pending (ch_trans_info ch) = [] →
   bam_pending_scan (ch_priv ch) (ch_mem ch) (ti_pending (ch_trans_info ch))
   = Some AtListHead ∧
   bam_channel_update ch = None) ∧
  (∀ ch', bam_channel_update ch = Some ch' →
          ti_pending (ch_trans_info ch) ≠ []).
Proof.
  assert (H : ti_pending (ch_trans_info ch) = [] →
              bam_pending_scan (ch_priv ch) (ch_mem ch)
                (ti_pending (ch_trans_info ch)) = Some AtListHead ∧
              bam_channel_update ch = None).
  { intros E. unfold bam_channel_update. rewrite E. simpl. done. }
  split; [exact H |].
  intros ch' Hu E. destruct (H E) as [_ Hn]. congruence.
Qed.

Lemma bam_channel_update_needs_pending_witness :
  bam_pending_scan (ch_priv ch_fresh) (ch_mem ch_fresh)
    (ti_pending (ch_trans_info ch_fresh)) = Some AtListHead ∧
  bam_channel_update ch_fresh = None.
Proof.
  apply (proj1 (bam_channel_update_needs_pending ch_fresh)). reflexivity.
Defined.

(** C4 as stated fails: a transaction that is pending before the reset
    of a BAM channel is still pending after it, not complete, and its
    cancelled flag is not set. *)
Lemma bam_channel_reset_leaves_pending :
  stage_of ch_one_pending 0 = Pending ∧
  stage_of (ipa_channel_reset ch_one_pending 0 true) 0 = Pending ∧
  stage_of (ipa_channel_reset ch_one_pending 0 true) 0 ≠ Complete ∧
  tr_cancelled <$> ch_mem (ipa_channel_reset ch_one_pending 0 true) !! 0
  = Some false.
Proof. vm_compute. repeat split; congruence. Qed.

(** C4, amended: the reset of a BAM channel changes nothing.  Every
    transaction stays on the list it was on, with its cancelled flag as
    it was, so the pending ones stay pending and none is lost. *)
Theorem bam_channel_reset_keeps_all
    (ch : ipa_channel) (channel_id : Z) (doorbell : bool) (t : Z) :
  stage_of (ipa_channel_reset ch channel_id doorbell) t = stage_of ch t ∧
  ch_mem (ipa_channel_reset ch channel_id doorbell) !! t = ch_mem ch !! t ∧
  queued (ipa_channel_reset ch channel_id doorbell) = queued ch.
Proof. unfold ipa_channel_reset, bam_channel_reset. done. Qed.

(** C3: the code at a channel whose budget of transfer elements is used
    up.  Sixteen transactions of one element are outstanding, which is
    [bam_channel_tre_max], and the next allocation still returns a
    transaction, not NULL. *)
Theorem bam_channel_trans_alloc_past_budget :
  outstanding_tres (bam_alloc_many 16 ch_fresh) = bam_channel_tre_max ∧
  ∃ t ch',
    bam_channel_trans_alloc (bam_alloc_many 16 ch_fresh) 0 1 DMA_NONE
    = Some (Some t, ch').
Proof. split; [vm_compute; reflexivity |]. vm_compute. eauto. Qed.

(** The allocation has no NULL result at all: whatever the channel
    holds, a call for one element or more returns a transaction. *)
Lemma bam_channel_trans_alloc_not_null ch channel_id tre_count direction :
  (u32 tre_count ≠ 0 →
   ∃ t ch',
     bam_channel_trans_alloc ch channel_id tre_count direction
     = Some (Some t, ch')) ∧
  ∀ r, bam_channel_trans_alloc ch channel_id tre_count direction = Some r →
       fst r ≠ None.
Proof.
  unfold bam_channel_trans_alloc.
  destruct (ipa_trans_pool_alloc _ 1) as [t p1].
  destruct (ipa_trans_pool_alloc _ tre_count) as [s p2].
  destruct (Z.eqb_spec (u32 tre_count) 0) as [E | E].
  - split; [done |]. intros r H. done.
  - split; [intros _; eauto |]. intros r [= <-]. done.
Qed.

(** C9: the v2 encoder at a read from the accelerator.  The flags word
    of the payload is 0, so the direction flag is 0 and not 1. *)
Theorem ipa_v2_dma_shared_mem_direction_lost
    (IPA_CMD_DMA_SHARED_MEM mem_offset offset size addr : Z) :
  let p := ce_payload (ipa_v2_cmd_dma_shared_mem_add IPA_CMD_DMA_SHARED_MEM
                         mem_offset offset size addr false) in
  dm2_flags p = 0 ∧ dma_v2_direction_flag p = 0 ∧
  ∀ i, Z.testbit (dm2_flags p) i = false.
Proof.
  simpl. split; [done |]. split; [done |]. intros i. apply Z.bits_0.
Qed.

(** The v3 encoder does store the direction flag. *)
Lemma ipa_v3_dma_shared_mem_direction
    (IPA_CMD_DMA_SHARED_MEM mem_offset offset size addr : Z)
    (toward_ipa : bool) :
  dma_v3_direction_flag
    (ce_payload (ipa_v3_cmd_dma_shared_mem_add IPA_CMD_DMA_SHARED_MEM
                   mem_offset offset size addr toward_ipa))
  = if toward_ipa then 0 else 1.
Proof. destruct toward_ipa; vm_compute; reflexivity. Qed.

(** The v2 encoder gives the same payload for both directions. *)
Lemma ipa_v2_dma_shared_mem_direction_blind
    (IPA_CMD_DMA_SHARED_MEM mem_offset offset size addr : Z) :
  ce_payload (ipa_v2_cmd_dma_shared_mem_add IPA_CMD_DMA_SHARED_MEM
                mem_offset offset size addr false)
  = ce_payload (ipa_v2_cmd_dma_shared_mem_add IPA_CMD_DMA_SHARED_MEM
                  mem_offset offset size addr true).
Proof. reflexivity. Qed.

Section BitLemmas.

Lemma u16_small x : 0 <= x < 2 ^ 16 → u16 x = x.
Proof. intros H. unfold u16. apply Z.mod_small. lia. Qed.

Lemma u32_small x : 0 <= x < 2 ^ 32 → u32 x = x.
Proof. intros H. unfold u32. apply Z.mod_small. lia. Qed.

(** Masking with [n] ones shifted up by [l] keeps bits [l .. l+n-1]. *)
Lemma land_shifted_ones (x n l : Z) :
  0 <= n → 0 <= l →
  Z.land x (Z.shiftl (Z.ones n) l) = ((x / 2 ^ l) mod 2 ^ n) * 2 ^ l.
Proof.
  intros Hn Hl.
  rewrite <- Z.shiftl_mul_pow2, <- Z.shiftr_div_pow2, <- Z.land_ones by lia.
  apply Z.bits_inj'. intros i Hi.
  rewrite Z.land_spec, !Z.shiftl_spec by lia.
  destruct (Z.ltb_spec i l) as [Hlt | Hge].
  - rewrite (Z.testbit_neg_r _ (i - l)) by lia.
    rewrite (Z.testbit_neg_r _ (i - l)) by lia. apply andb_false_r.
  - rewrite Z.land_spec, Z.shiftr_spec by lia.
    replace (i - l + l) with i by lia. reflexivity.
Qed.

(** A value below [2 ^ n] or-ed under a value shifted up by [n] is
    added to it. *)
Lemma lor_shiftl_low (h l n : Z) :
  0 <= n → 0 <= l < 2 ^ n →
  Z.lor (Z.shiftl h n) l = h * 2 ^ n + l.
Proof.
  intros Hn Hl.
  rewrite <- Z.shiftl_mul_pow2 by lia.
  symmetry. apply Z.add_nocarry_lor.
  apply Z.bits_inj'. intros i Hi.
  rewrite Z.land_spec, Z.shiftl_spec, Z.bits_0 by lia.
  destruct (Z.ltb_spec i n) as [Hlt | Hge].
  - rewrite Z.testbit_neg_r by lia. reflexivity.
  - rewrite <- (Z.mod_small l (2 ^ n)) by lia.
    rewrite Z.mod_pow2_bits_high by lia. apply andb_false_r.
Qed.

Lemma register_write_masks :
  GENMASK 19 16 = Z.shiftl (Z.ones 4) 16 ∧
  REGISTER_WRITE_FLAGS_OFFSET_HIGH_FMASK = Z.shiftl (Z.ones 4) 11 ∧
  field_multiplier (GENMASK 19 16) = 2 ^ 16 ∧
  field_multiplier REGISTER_WRITE_FLAGS_OFFSET_HIGH_FMASK = 2 ^ 11 ∧
  field_mask REGISTER_WRITE_FLAGS_OFFSET_HIGH_FMASK = Z.ones 4.
Proof. vm_compute. auto. Qed.

End BitLemmas.

(** C8: a register-write command whose offset, value and mask fit their
    fields reads back, through the documented layout, as the offset, the
    value and the mask that were encoded: for the v2 layout with its
    16-bit offset, and for the v3 layout with a 16-bit offset on IPA
    v3.5.1 and a 20-bit offset (4 high bits in the flags word)
    otherwise. *)
Theorem register_write_encode_decode
    (IPA_CMD_REGISTER_WRITE IPA_VERSION_3_5_1 : Z) (layout : cmd_layout)
    (offset value mask : Z) (clear_full : bool) :
  0 <= offset < 2 ^ register_write_offset_bits IPA_VERSION_3_5_1 layout →
  0 <= value < 2 ^ 32 → 0 <= mask < 2 ^ 32 →
  register_write_roundtrip IPA_CMD_REGISTER_WRITE IPA_VERSION_3_5_1 layout
                           offset value mask clear_full
  = (offset, value, mask).
Proof.
  intros Ho Hv Hm. destruct layout as [| version];
    unfold register_write_roundtrip, register_write_offset_bits in *.
  - unfold ipa_v2_register_write_decode, ipa_v2_cmd_register_write_add,
      cpu_to_le16, cpu_to_le32;
      cbn [ce_payload rw2_offset rw2_value rw2_value_mask].
    rewrite !(u16_small offset), !(u32_small value), !(u32_small mask) by lia.
    reflexivity.
  - unfold ipa_v3_register_write_decode, ipa_v3_cmd_register_write_add,
      cpu_to_le16, cpu_to_le32 in *.
    destruct (negb (version =? IPA_VERSION_3_5_1));
      cbn [ce_payload rw_flags rw_offset rw_value rw_value_mask];
      rewrite (u32_small value), (u32_small mask) by lia.
    + destruct register_write_masks as (E1 & E2 & E3 & E4 & E5).
      unfold u16_get_bits, u16_encode_bits, u32_get_bits.
      rewrite E3, E4, E5, E1, E2.
      change (Z.shiftl 1 16 - 1) with (Z.ones 16).
      rewrite !Z.land_ones by lia.
      rewrite !land_shifted_ones by lia.
      unfold u16.
      rewrite lor_shiftl_low by (try lia; apply Z.mod_pos_bound; lia).
      do 2 f_equal.
      set (h := (offset / 2 ^ 16) mod 2 ^ 4).
      assert (Hh : 0 <= h < 16) by (apply Z.mod_pos_bound; lia).
      rewrite (Z.div_mul h) by lia.
      rewrite (Z.mod_small h (2 ^ 16)) by lia.
      rewrite (Z.mod_small h (2 ^ 4)) by lia.
      rewrite !(Z.mod_small (h * 2 ^ 11)) by lia.
      rewrite (Z.div_mul h) by lia.
      rewrite (Z.mod_small h (2 ^ 4)) by lia.
      rewrite (Z.div_mul h) by lia.
      subst h. rewrite (Z.mod_small (offset / 2 ^ 16)).
      * pose proof (Z.div_mod offset (2 ^ 16) ltac:(lia)) as E.
        rewrite ?Z.mod_mod by lia. lia.
      * split; [apply Z.div_pos; lia |].
        apply Z.div_lt_upper_bound; lia.
    + rewrite !(u16_small offset) by lia.
      rewrite Z.shiftl_0_l, Z.lor_0_l. reflexivity.
Qed.

(** The offset 0xABCDE on a version other than IPA v3.5.1 (the versions
    numbered with v3.5.1 as 0), and the offset 0xBCDE on v2, with the
    opcode 12. *)
Lemma register_write_encode_decode_witness :
  register_write_roundtrip 12 0 (LayoutV3 1) 0xABCDE 0xDEADBEEF 0xFFFF0000 true
  = (0xABCDE, 0xDEADBEEF, 0xFFFF0000) ∧
  register_write_roundtrip 12 0 LayoutV2 0xBCDE 0xDEADBEEF 0xFFFF0000 false
  = (0xBCDE, 0xDEADBEEF, 0xFFFF0000).
Proof.
  split.
  - apply (register_write_encode_decode 12 0 (LayoutV3 1)); simpl; lia.
  - apply (register_write_encode_decode 12 0 LayoutV2); simpl; lia.
Defined.

Section CommitLemmas.

Lemma bam_commit_loop_ok t dir used n : ∀ i pos info opcode bc chan cookie,
  (n <= length pos)%nat →
  match info with None => True | Some l => (n <= length l)%nat end →
  is_Some (bam_commit_loop t dir used n i pos info opcode bc chan cookie).
Proof.
  induction n as [| n IH]; intros i pos info opcode bc chan cookie Hp Hi;
    simpl; [eauto |].
  destruct pos as [| sg pos]; simpl in Hp; [lia |].
  destruct info as [[| o l] |]; simpl in *; try lia.
  - apply IH; [lia | simpl; lia].
  - apply IH; [lia | done].
Qed.

(** What a commit leaves of the channel. *)
Lemma bam_trans_commit_spec t ch ch' tr :
  ch_mem ch !! t = Some tr →
  __bam_trans_commit t ch = Some ch' →
  (∃ tr', ch_mem ch' !! t = Some tr' ∧
          tr_refcount tr' = tr_refcount tr ∧
          tr_completion tr' = tr_completion tr ∧
          tr_used tr' = tr_used tr ∧
          tr_direction tr' = tr_direction tr) ∧
  (∀ t', t' ≠ t → ch_mem ch' !! t' = ch_mem ch !! t') ∧
  ch_log ch' = ch_log ch ∧
  ti_alloc (ch_trans_info ch') = list_del t (ti_alloc (ch_trans_info ch)) ∧
  ti_pending (ch_trans_info ch')
  = list_del t (ti_pending (ch_trans_info ch)) ++ [t] ∧
  ti_complete (ch_trans_info ch')
  = list_del t (ti_complete (ch_trans_info ch)) ∧
  ti_polled (ch_trans_info ch') = list_del t (ti_polled (ch_trans_info ch)).
Proof.
  intros Hm H. unfold __bam_trans_commit in H. rewrite Hm in H; simpl in H.
  destruct (bam_commit_loop _ _ _ _ _ _ _ _ _ _ _) as [[[bc chan1] cookie] |];
    simpl in H; [| done].
  inversion H; subst ch'; clear H.
  destruct (ch_toward_ipa ch); simpl.
  - split.
    + eexists. rewrite lookup_insert_eq. split; [reflexivity |]. done.
    + split; [| done]. intros t' Hne. by rewrite !lookup_insert_ne.
  - split.
    + eexists. rewrite lookup_insert_eq. split; [reflexivity |]. done.
    + split; [| done]. intros t' Hne. by rewrite !lookup_insert_ne.
Qed.

Lemma bam_trans_commit_ok t ch tr :
  ch_mem ch !! t = Some tr → trans_ready tr →
  is_Some (__bam_trans_commit t ch).
Proof.
  intros Hm (Hu & Hs & Hi). unfold __bam_trans_commit. rewrite Hm; simpl.
  destruct (bam_commit_loop_ok t
              (if ch_toward_ipa ch then DMA_MEM_TO_DEV else DMA_DEV_TO_MEM)
              (tr_used tr) (Z.to_nat (tr_used tr)) 0 (tr_sgl tr) (tr_info tr)
              IPA_CMD_NONE 0 (ch_priv ch) (tr_cookie tr) Hs Hi)
    as [[[bc chan1] cookie] E].
  rewrite E; simpl. eauto.
Qed.

Lemma stage_of_pending_tail t ch l :
  ti_alloc (ch_trans_info ch) = list_del t l →
  t ∈ ti_pending (ch_trans_info ch) →
  stage_of ch t = Pending.
Proof.
  intros Ha Hp. unfold stage_of. rewrite Ha.
  destruct (decide (t ∈ list_del t l)) as [Hin | _].
  - by apply list_del_not_elem in Hin.
  - by rewrite decide_True.
Qed.

End CommitLemmas.

Section RefcountLemmas.

Lemma releases_add_event t e ch :
  releases t (add_event e ch)
  = (releases t ch + if decide (e = EvRelease t) then 1 else 0)%nat.
Proof.
  unfold releases; simpl. rewrite filter_app, length_app. f_equal.
  destruct (decide (e = EvRelease t)) as [-> | Hne].
  - by rewrite filter_cons_True.
  - by rewrite filter_cons_False.
Qed.

Lemma finalised_add_event t e ch :
  finalised t (add_event e ch)
  = (finalised t ch + if decide (e = EvGsiComplete t) then 1 else 0)%nat.
Proof.
  unfold finalised; simpl. rewrite filter_app, length_app. f_equal.
  destruct (decide (e = EvGsiComplete t)) as [-> | Hne].
  - by rewrite filter_cons_True.
  - by rewrite filter_cons_False.
Qed.

Lemma releases_log t ch ch' : ch_log ch' = ch_log ch → releases t ch' = releases t ch.
Proof. unfold releases. by intros ->. Qed.

Lemma finalised_log t ch ch' : ch_log ch' = ch_log ch → finalised t ch' = finalised t ch.
Proof. unfold finalised. by intros ->. Qed.

Lemma stage_of_ext t ch ch' :
  ch_trans_info ch' = ch_trans_info ch → stage_of ch' t = stage_of ch t.
Proof. unfold stage_of. by intros ->. Qed.

Lemma stage_of_unlink t ch ch' :
  ch_trans_info ch' = trans_unlink t (ch_trans_info ch) →
  stage_of ch' t = Freed.
Proof.
  unfold stage_of. intros ->. simpl.
  rewrite !decide_False; [done | apply list_del_not_elem ..].
Qed.

Lemma refcount_inc_live t ch tr :
  ch_mem ch !! t = Some tr → 0 < tr_refcount tr →
  refcount_inc t ch
  = Some (store_trans t (set_refcount (tr_refcount tr + 1) tr) ch).
Proof.
  intros Hm Hr. unfold refcount_inc. rewrite Hm; simpl.
  destruct (Z.leb_spec (tr_refcount tr) 0); [lia | done].
Qed.

(** A reference dropped while another holder is left. *)
Lemma ipa_trans_free_held t ch tr :
  ch_mem ch !! t = Some tr → 1 < tr_refcount tr →
  ∃ ch' tr',
    ipa_trans_free t ch = Some ch' ∧
    ch_mem ch' !! t = Some tr' ∧
    tr_refcount tr' = tr_refcount tr - 1 ∧
    tr_completion tr' = tr_completion tr ∧
    ch_trans_info ch' = ch_trans_info ch ∧
    ch_log ch' = ch_log ch.
Proof.
  intros Hm Hr. rewrite (ipa_trans_free_shared t ch tr Hm Hr).
  eexists _, _. split; [done |]. rewrite lookup_store_eq. done.
Qed.

(** The last reference dropped. *)
Lemma ipa_trans_free_final t ch tr :
  ch_mem ch !! t = Some tr → tr_refcount tr = 1 →
  ∃ ch' tr',
    ipa_trans_free t ch = Some ch' ∧
    ch_mem ch' !! t = Some tr' ∧
    tr_refcount tr' = 0 ∧
    ch_trans_info ch' = trans_unlink t (ch_trans_info ch) ∧
    releases t ch' = S (releases t ch) ∧
    finalised t ch' = finalised t ch.
Proof.
  intros Hm Hr. rewrite (ipa_trans_free_last t ch tr Hm Hr).
  eexists _, _. split; [done |]. simpl. rewrite lookup_insert_eq.
  split; [done |]. split; [done |]. split; [done |].
  rewrite releases_add_event, finalised_add_event.
  rewrite decide_True by done. rewrite decide_False by done.
  unfold releases, finalised; simpl. lia.
Qed.

(** The callback is its signalling part and then [ipa_trans_free]. *)
Lemma bam_trans_callback_split t ch :
  bam_trans_callback t ch
  = bam_trans_callback_signal t ch ≫= ipa_trans_free t.
Proof.
  unfold bam_trans_callback, bam_trans_callback_signal.
  destruct (ch_mem ch !! t) as [tr |]; simpl; done.
Qed.

(** The signalling part: the finalisation has run and the completion is
    signalled; the lists and the reference count are as they were. *)
Lemma bam_trans_callback_signal_spec t ch tr :
  ch_mem ch !! t = Some tr →
  ∃ ch1,
    bam_trans_callback_signal t ch = Some ch1 ∧
    ch_mem ch1 !! t
    = Some (set_completion (tr_completion tr + 1) (set_len 8128 tr)) ∧
    ch_trans_info ch1 = ch_trans_info ch ∧
    releases t ch1 = releases t ch ∧
    finalised t ch1 = S (finalised t ch).
Proof.
  intros Hm. unfold bam_trans_callback_signal. rewrite Hm; simpl.
  unfold complete, ipa_gsi_trans_complete; simpl.
  rewrite lookup_insert_eq; simpl.
  eexists. split; [reflexivity |].
  simpl. rewrite lookup_insert_eq. split; [done |].
  destruct (negb (direction_is_none (tr_direction tr))); simpl;
    (split; [done |]).
  - unfold releases, finalised; simpl.
    change (ch_log ch ++ [EvUnmap t (tr_used tr)])
      with (ch_log (add_event (EvUnmap t (tr_used tr)) ch)).
    change (ch_log (add_event (EvUnmap t (tr_used tr)) ch) ++ [EvGsiComplete t])
      with (ch_log (add_event (EvGsiComplete t)
                      (add_event (EvUnmap t (tr_used tr)) ch))).
    fold (releases t (add_event (EvGsiComplete t)
                        (add_event (EvUnmap t (tr_used tr)) ch))).
    fold (finalised t (add_event (EvGsiComplete t)
                         (add_event (EvUnmap t (tr_used tr)) ch))).
    rewrite !releases_add_event, !finalised_add_event.
    rewrite !(decide_False (P := _ = EvRelease t)) by discriminate.
    rewrite (decide_False (P := EvUnmap _ _ = _)) by discriminate.
    rewrite decide_True by done.
    fold (releases t ch). fold (finalised t ch). lia.
  - unfold releases, finalised; simpl.
    change (ch_log ch ++ [EvGsiComplete t])
      with (ch_log (add_event (EvGsiComplete t) ch)).
    fold (releases t (add_event (EvGsiComplete t) ch)).
    fold (finalised t (add_event (EvGsiComplete t) ch)).
    rewrite !releases_add_event, !finalised_add_event.
    rewrite !(decide_False (P := _ = EvRelease t)) by discriminate.
    rewrite decide_True by done.
    fold (releases t ch). fold (finalised t ch). lia.
Qed.

(** The callback up to its [ipa_trans_free]. *)
Lemma bam_trans_callback_unfold t ch tr :
  ch_mem ch !! t = Some tr →
  ∃ ch1,
    bam_trans_callback t ch = ipa_trans_free t ch1 ∧
    ch_mem ch1 !! t
    = Some (set_completion (tr_completion tr + 1) (set_len 8128 tr)) ∧
    ch_trans_info ch1 = ch_trans_info ch ∧
    releases t ch1 = releases t ch ∧
    finalised t ch1 = S (finalised t ch).
Proof.
  intros Hm.
  destruct (bam_trans_callback_signal_spec t ch tr Hm) as (ch1 & E & H).
  exists ch1. split; [| done].
  rewrite bam_trans_callback_split, E. done.
Qed.

(** The callback of a transaction that has another holder. *)
Lemma bam_trans_callback_held t ch tr :
  ch_mem ch !! t = Some tr → 1 < tr_refcount tr →
  ∃ ch' tr',
    bam_trans_callback t ch = Some ch' ∧
    ch_mem ch' !! t = Some tr' ∧
    tr_refcount tr' = tr_refcount tr - 1 ∧
    tr_completion tr' = tr_completion tr + 1 ∧
    ch_trans_info ch' = ch_trans_info ch ∧
    releases t ch' = releases t ch ∧
    finalised t ch' = S (finalised t ch).
Proof.
  intros Hm Hr.
  destruct (bam_trans_callback_unfold t ch tr Hm) as (ch1 & E & Hm1 & Hti & Hrel & Hfin).
  destruct (ipa_trans_free_held t ch1 _ Hm1 Hr)
    as (ch' & tr' & Hf & Hm' & Hr' & Hc' & Hti' & Hlog').
  exists ch', tr'. rewrite E. split; [done |]. split; [done |].
  split; [done |]. split; [done |]. split; [congruence |].
  rewrite (releases_log t ch1 ch'), (finalised_log t ch1 ch') by done. done.
Qed.

(** The callback of a transaction of which it is the last holder. *)
Lemma bam_trans_callback_final t ch tr :
  ch_mem ch !! t = Some tr → tr_refcount tr = 1 →
  ∃ ch' tr',
    bam_trans_callback t ch = Some ch' ∧
    ch_mem ch' !! t = Some tr' ∧
    tr_refcount tr' = 0 ∧
    ch_trans_info ch' = trans_unlink t (ch_trans_info ch) ∧
    releases t ch' = S (releases t ch) ∧
    finalised t ch' = S (finalised t ch).
Proof.
  intros Hm Hr.
  destruct (bam_trans_callback_unfold t ch tr Hm) as (ch1 & E & Hm1 & Hti & Hrel & Hfin).
  destruct (ipa_trans_free_final t ch1 _ Hm1 Hr)
    as (ch' & tr' & Hf & Hm' & Hr' & Hti' & Hrel' & Hfin').
  exists ch', tr'. rewrite E. split; [done |]. split; [done |].
  split; [done |]. split; [congruence |]. split; congruence.
Qed.

End RefcountLemmas.

Section WaiterAndCallback.
Variables (t : Z) (ch : ipa_channel) (tr : ipa_trans).
Hypothesis Hm : ch_mem ch !! t = Some tr.
Hypothesis Hready : trans_ready tr.
Hypothesis Hr : tr_refcount tr = 1.

(** The waiter's reference and the commit. *)
Lemma waiter_commits :
  ∃ ch1 tr1,
    refcount_inc t ch ≫= __bam_trans_commit t = Some ch1 ∧
    ch_mem ch1 !! t = Some tr1 ∧
    tr_refcount tr1 = 2 ∧
    tr_completion tr1 = tr_completion tr ∧
    stage_of ch1 t = Pending ∧
    ch_log ch1 = ch_log ch.
Proof.
  rewrite (refcount_inc_live t ch tr Hm) by lia. simpl.
  set (ch0 := store_trans t (set_refcount (tr_refcount tr + 1) tr) ch).
  assert (Hm0 : ch_mem ch0 !! t
                = Some (set_refcount (tr_refcount tr + 1) tr))
    by apply lookup_store_eq.
  destruct (bam_trans_commit_ok t ch0 _ Hm0 Hready) as [ch1 Hc].
  destruct (bam_trans_commit_spec t ch0 ch1 _ Hm0 Hc)
    as ((tr1 & Hm1 & Hr1 & Hc1 & _) & _ & Hlog & Ha & Hp & _).
  exists ch1, tr1. split; [done |]. split; [done |].
  split; [simpl in Hr1; lia |]. split; [done |]. split; [| done].
  eapply stage_of_pending_tail; [exact Ha |].
  rewrite Hp. apply elem_of_app. right. by apply list_elem_of_singleton.
Qed.

End WaiterAndCallback.

(** C1: [bam_trans_commit_wait] of a transaction that is not empty
    takes a second reference before the commit and sleeps holding it,
    beside the reference the completion callback drops.  The
    transaction is taken off its list and has its pool slot given back
    exactly once, and only when the second of the two references is
    dropped, whether the waiter or the callback drops last: the
    callback's drop during the wait releases nothing, the waiter's drop
    before the callback's releases nothing, and a waiter that is never
    woken releases nothing. *)
Theorem commit_wait_two_holders (t : Z) (ch : ipa_channel) (tr : ipa_trans) :
  ch_mem ch !! t = Some tr →
  trans_ready tr → tr_used tr ≠ 0 →
  tr_refcount tr = 1 → tr_completion tr = 0 →
  two_holders_release_once t ch.
Proof.
  intros Hm Hready Hu Hr Hc.
  destruct (waiter_commits t ch tr Hm Hready Hr)
    as (ch1 & tr1 & Hcommit & Hm1 & Hr1 & Hc1 & Hst1 & Hlog1).
  assert (Hrel1 : releases t ch1 = releases t ch) by by apply releases_log.
  assert (Hsleep : ∀ during,
             bam_trans_commit_wait during t ch
             = (during ch1 ≫= wait_for_completion (λ _, None) t)
                 ≫= ipa_trans_free t).
  { intros during. unfold bam_trans_commit_wait. rewrite Hm; simpl.
    destruct (Z.eqb_spec (tr_used tr) 0); [done |].
    unfold mbind, option_bind in Hcommit.
    destruct (refcount_inc t ch) as [ch0 |]; [| done]. simpl.
    rewrite Hcommit; simpl.
    unfold wait_for_completion at 1. rewrite Hm1; simpl.
    destruct (Z.ltb_spec 0 (tr_completion tr1)); [lia |].
    destruct (during ch1) as [c |]; simpl; [| done].
    unfold wait_for_completion.
    destruct (ch_mem c !! t) as [trc |]; simpl; [| done].
    by destruct (0 <? tr_completion trc). }
  exists ch1. split; [done |]. split; [done |].
  split; [| split; [| split; [| split; [| split; [| split]]]]].
  - (* nothing signals the completion *)
    rewrite Hsleep. simpl. unfold wait_for_completion. rewrite Hm1; simpl.
    destruct (Z.ltb_spec 0 (tr_completion tr1)); [lia |]. done.
  - rewrite Hm1; simpl. by rewrite Hr1.
  - (* the waiter drops first *)
    destruct (ipa_trans_free_held t ch1 tr1 Hm1 ltac:(lia))
      as (ch2 & tr2 & Hf & Hm2 & Hr2 & _ & Hti2 & Hlog2).
    destruct (bam_trans_callback_final t ch2 tr2 Hm2 ltac:(lia))
      as (ch3 & tr3 & Hcb & Hm3 & Hr3 & Hti3 & Hrel3 & _).
    exists ch2, ch3. split; [done |]. split; [| split; [done |]].
    + split; [| split].
      * rewrite (releases_log t ch1 ch2) by done. done.
      * rewrite (stage_of_ext t ch1 ch2) by done. done.
      * rewrite Hm2; simpl. f_equal. lia.
    + split; [| split].
      * rewrite Hrel3, (releases_log t ch1 ch2) by done. by rewrite Hrel1.
      * by apply (stage_of_unlink t ch2).
      * rewrite Hm3; simpl. by rewrite Hr3.
  - (* the callback drops first *)
    destruct (bam_trans_callback_held t ch1 tr1 Hm1 ltac:(lia))
      as (ch2 & tr2 & Hcb & Hm2 & Hr2 & _ & Hti2 & Hrel2 & _).
    destruct (ipa_trans_free_final t ch2 tr2 Hm2 ltac:(lia))
      as (ch3 & tr3 & Hf & Hm3 & Hr3 & Hti3 & Hrel3 & _).
    exists ch2, ch3. split; [done |]. split; [| split; [done |]].
    + split; [| split].
      * congruence.
      * rewrite (stage_of_ext t ch1 ch2) by done. done.
      * rewrite Hm2; simpl. f_equal. lia.
    + split; [| split].
      * congruence.
      * by apply (stage_of_unlink t ch2).
      * rewrite Hm3; simpl. by rewrite Hr3.
  - (* the waiter resumes on complete() and drops before the callback *)
    destruct (bam_trans_callback_signal_spec t ch1 tr1 Hm1)
      as (ch2 & Hsig & Hm2 & Hti2 & Hrel2 & _).
    set (tr2 := set_completion (tr_completion tr1 + 1) (set_len 8128 tr1))
      in Hm2.
    set (ch2' := store_trans t (set_completion (tr_completion tr2 - 1) tr2)
                   ch2).
    assert (Hm2' : ch_mem ch2' !! t
                   = Some (set_completion (tr_completion tr2 - 1) tr2))
      by apply lookup_store_eq.
    destruct (ipa_trans_free_held t ch2' _ Hm2' ltac:(simpl; lia))
      as (ch3 & tr3 & Hf & Hm3 & Hr3 & _ & Hti3 & Hlog3).
    destruct (ipa_trans_free_final t ch3 tr3 Hm3 ltac:(simpl in Hr3; lia))
      as (ch4 & tr4 & Hf4 & Hm4 & Hr4 & Hti4 & Hrel4 & _).
    assert (Hrel3 : releases t ch3 = releases t ch).
    { rewrite (releases_log t ch2' ch3) by done.
      unfold ch2'. rewrite (releases_log t ch2 (store_trans _ _ ch2)) by done.
      congruence. }
    exists ch2, ch3, ch4.
    split; [apply bam_trans_callback_split |]. split; [done |].
    split; [| split; [| split; [done |]]].
    + unfold wait_for_completion. rewrite Hm2; simpl.
      destruct (Z.ltb_spec 0 (tr_completion tr1 + 1)); [| lia].
      exact Hf.
    + split; [done |]. split.
      * rewrite (stage_of_ext t ch1 ch3); [done |].
        rewrite Hti3. unfold ch2'; simpl. done.
      * rewrite Hm3; simpl. f_equal. simpl in Hr3. lia.
    + split; [| split].
      * congruence.
      * by apply (stage_of_unlink t ch3).
      * rewrite Hm4; simpl. by rewrite Hr4.
  - (* bam_trans_commit_wait, the callback up to complete() during the
       wait *)
    destruct (bam_trans_callback_signal_spec t ch1 tr1 Hm1)
      as (ch2 & Hsig & Hm2 & Hti2 & Hrel2 & _).
    set (tr2 := set_completion (tr_completion tr1 + 1) (set_len 8128 tr1))
      in Hm2.
    set (ch2' := store_trans t (set_completion (tr_completion tr2 - 1) tr2)
                   ch2).
    assert (Hm2' : ch_mem ch2' !! t
                   = Some (set_completion (tr_completion tr2 - 1) tr2))
      by apply lookup_store_eq.
    destruct (ipa_trans_free_held t ch2' _ Hm2' ltac:(simpl; lia))
      as (ch3 & tr3 & Hf & Hm3 & Hr3 & _ & Hti3 & Hlog3).
    destruct (ipa_trans_free_final t ch3 tr3 Hm3 ltac:(simpl in Hr3; lia))
      as (ch4 & tr4 & Hf4 & Hm4 & Hr4 & Hti4 & Hrel4 & _).
    assert (Hrel3 : releases t ch3 = releases t ch).
    { rewrite (releases_log t ch2' ch3) by done.
      unfold ch2'. rewrite (releases_log t ch2 (store_trans _ _ ch2)) by done.
      congruence. }
    exists ch3, ch4.
    split; [| split; [| split; [done |]]].
    + rewrite Hsleep, Hsig. simpl.
      unfold wait_for_completion. rewrite Hm2; simpl.
      destruct (Z.ltb_spec 0 (tr_completion tr1 + 1)); [| lia].
      exact Hf.
    + split; [done |]. split.
      * rewrite (stage_of_ext t ch1 ch3); [done |].
        rewrite Hti3. unfold ch2'; simpl. done.
      * rewrite Hm3; simpl. f_equal. simpl in Hr3. lia.
    + split; [| split].
      * congruence.
      * by apply (stage_of_unlink t ch3).
      * rewrite Hm4; simpl. by rewrite Hr4.
  - (* bam_trans_commit_wait, the callback running during the wait *)
    destruct (bam_trans_callback_held t ch1 tr1 Hm1 ltac:(lia))
      as (ch2 & tr2 & Hcb & Hm2 & Hr2 & Hc2 & Hti2 & Hrel2 & _).
    set (ch2' := store_trans t (set_completion (tr_completion tr2 - 1) tr2) ch2).
    assert (Hm2' : ch_mem ch2' !! t
                   = Some (set_completion (tr_completion tr2 - 1) tr2))
      by apply lookup_store_eq.
    destruct (ipa_trans_free_final t ch2' _ Hm2' ltac:(simpl; lia))
      as (ch3 & tr3 & Hf & Hm3 & Hr3 & Hti3 & Hrel3 & _).
    exists ch3. split.
    + unfold bam_trans_commit_wait. rewrite Hm; simpl.
      destruct (Z.eqb_spec (tr_used tr) 0); [done |].
      unfold mbind, option_bind in Hcommit.
      destruct (refcount_inc t ch) as [ch0 |]; [| done]. simpl.
      rewrite Hcommit; simpl.
      unfold wait_for_completion. rewrite Hm1; simpl.
      destruct (Z.ltb_spec 0 (tr_completion tr1)); [lia |].
      rewrite Hcb; simpl. rewrite Hm2; simpl.
      destruct (Z.ltb_spec 0 (tr_completion tr2)); [| lia].
      exact Hf.
    + split; [| split].
      * rewrite Hrel3. unfold ch2'.
        rewrite (releases_log t ch2 (store_trans _ _ ch2)) by done. congruence.
      * by apply (stage_of_unlink t ch2').
      * rewrite Hm3; simpl. by rewrite Hr3.
Qed.

Lemma commit_wait_two_holders_witness : two_holders_release_once 0 ch_one_filled.
Proof.
  eapply (commit_wait_two_holders 0 ch_one_filled).
  - vm_compute. reflexivity.
  - vm_compute. repeat split; (discriminate || lia).
  - vm_compute. discriminate.
  - reflexivity.
  - reflexivity.
Defined.

Lemma msecs_to_jiffies_0 (HZ : Z) : 0 < HZ <= 1000 → msecs_to_jiffies HZ 0 = 0.
Proof.
  intros H. unfold msecs_to_jiffies.
  assert (1 <= 1000 / HZ) by (apply Z.div_le_lower_bound; lia).
  apply Z.div_small. lia.
Qed.

(** C5: [bam_trans_commit_wait_timeout] with a timeout of 0, on a
    transaction that is not empty and that the hardware has not
    completed, returns -ETIMEDOUT and drops the waiter's reference only:
    the transaction stays on the pending list with one reference; the
    callback that fires later runs the finalisation and drops that
    reference, which releases the transaction. *)
Theorem commit_wait_timeout_zero
    (HZ : Z) (t : Z) (ch : ipa_channel) (tr : ipa_trans) :
  0 < HZ <= 1000 →
  ch_mem ch !! t = Some tr →
  trans_ready tr → tr_used tr ≠ 0 →
  tr_refcount tr = 1 → tr_completion tr = 0 →
  timeout_keeps_transaction HZ t ch.
Proof.
  intros HHZ Hm Hready Hu Hr Hc.
  destruct (waiter_commits t ch tr Hm Hready Hr)
    as (ch1 & tr1 & Hcommit & Hm1 & Hr1 & Hc1 & Hst1 & Hlog1).
  destruct (ipa_trans_free_held t ch1 tr1 Hm1 ltac:(lia))
    as (ch2 & tr2 & Hf & Hm2 & Hr2 & _ & Hti2 & Hlog2).
  destruct (bam_trans_callback_final t ch2 tr2 Hm2 ltac:(lia))
    as (ch3 & tr3 & Hcb & Hm3 & Hr3 & Hti3 & Hrel3 & Hfin3).
  assert (Hlog : ch_log ch2 = ch_log ch) by congruence.
  exists ch2. split; [| split; [| split]].
  - unfold bam_trans_commit_wait_timeout.
    rewrite (msecs_to_jiffies_0 HZ HHZ). rewrite Hm; simpl.
    destruct (Z.eqb_spec (tr_used tr) 0); [done |].
    unfold mbind, option_bind in Hcommit.
    destruct (refcount_inc t ch) as [ch0 |]; [| done]. simpl.
    rewrite Hcommit; simpl.
    unfold wait_for_completion_timeout. rewrite Hm1; simpl.
    destruct (Z.ltb_spec 0 (tr_completion tr1)); [lia |].
    simpl. rewrite Hm1; simpl.
    destruct (Z.ltb_spec 0 (tr_completion tr1)); [lia |].
    simpl. rewrite Hf; simpl. done.
  - split; [| split].
    + by apply releases_log.
    + rewrite (stage_of_ext t ch1 ch2) by done. done.
    + rewrite Hm2; simpl. f_equal. lia.
  - by apply finalised_log.
  - exists ch3. split; [done |]. split; [| split; [| split]].
    + rewrite Hfin3. f_equal. by apply finalised_log.
    + rewrite Hrel3. f_equal. by apply releases_log.
    + by apply (stage_of_unlink t ch2).
    + rewrite Hm3; simpl. by rewrite Hr3.
Qed.

Lemma commit_wait_timeout_zero_witness :
  timeout_keeps_transaction 250 0 ch_one_filled.
Proof.
  eapply (commit_wait_timeout_zero 250 0 ch_one_filled).
  - lia.
  - vm_compute. reflexivity.
  - vm_compute. repeat split; (discriminate || lia).
  - vm_compute. discriminate.
  - reflexivity.
  - reflexivity.
Defined.

(** The value returned on the example channel. *)
Example commit_wait_timeout_zero_value :
  fst <$> bam_trans_commit_wait_timeout 250 Some 0 0 0 ch_one_filled
  = Some (-110).
Proof. vm_compute. reflexivity. Qed.

Section PollLemmas.

Lemma finalisations_add_event e ch :
  finalisations (add_event e ch)
  = finalisations ch ++ (if is_finalisation e then [e] else []).
Proof.
  unfold finalisations; simpl. rewrite List.filter_app. simpl.
  by destruct (is_finalisation e).
Qed.

Lemma finalisations_log ch ch' :
  ch_log ch' = ch_log ch → finalisations ch' = finalisations ch.
Proof. unfold finalisations. by intros ->. Qed.

Lemma ipa_trans_free_finalisations t ch ch' :
  ipa_trans_free t ch = Some ch' → finalisations ch' = finalisations ch.
Proof.
  unfold ipa_trans_free. intros H.
  destruct (ch_mem ch !! t) as [tr |]; simpl in H; [| done].
  destruct (tr_refcount tr <=? 0); [done |].
  destruct (tr_refcount tr - 1 =? 0); inversion H; subst; clear H.
  - rewrite finalisations_add_event; simpl. by rewrite app_nil_r.
  - done.
Qed.

Lemma ipa_trans_complete_finalisations t ch ch' :
  ipa_trans_complete t ch = Some ch' →
  finalisations ch' = finalisations ch ++ [EvGsiComplete t].
Proof.
  unfold ipa_trans_complete. intros H.
  destruct (ch_mem ch !! t) as [tr |]; simpl in H; [| done].
  unfold complete, ipa_gsi_trans_complete in H.
  destruct (ch_mem _ !! t) as [tr1 |]; simpl in H; [| done].
  apply ipa_trans_free_finalisations in H. rewrite H.
  destruct (negb (direction_is_none (tr_direction tr))).
  - change (finalisations (add_event (EvGsiComplete t)
                             (add_event (EvUnmap t (tr_used tr)) ch))
            = finalisations ch ++ [EvGsiComplete t]).
    rewrite !finalisations_add_event; simpl. by rewrite app_nil_r.
  - change (finalisations (add_event (EvGsiComplete t) ch)
            = finalisations ch ++ [EvGsiComplete t]).
    by rewrite finalisations_add_event.
Qed.

Lemma bam_channel_update_finalisations ch ch' :
  bam_channel_update ch = Some ch' → finalisations ch' = finalisations ch.
Proof.
  unfold bam_channel_update. intros H.
  destruct (bam_pending_scan _ _ _) as [[t |] |]; simpl in H; try done.
  unfold refcount_inc in H.
  destruct (ch_mem ch !! t) as [tr |]; simpl in H; [| done].
  destruct (tr_refcount tr <=? 0); simpl in H; [done |].
  rewrite lookup_insert_eq in H; simpl in H.
  apply ipa_trans_free_finalisations in H. rewrite H.
  destruct (ch_toward_ipa ch); [| done].
  unfold ipa_trans_move_complete; simpl.
  unfold finalisations; simpl. rewrite List.filter_app; simpl.
  by rewrite app_nil_r.
Qed.

Lemma bam_channel_poll_one_finalisations ch r ch' :
  bam_channel_poll_one ch = Some (r, ch') →
  finalisations ch' = finalisations ch.
Proof.
  unfold bam_channel_poll_one. intros H.
  destruct (bam_channel_trans_complete ch) as [t |]; simpl in H.
  - inversion H; subst. done.
  - destruct (bam_channel_update ch) as [ch1 |] eqn:Hu; simpl in H; [| done].
    apply bam_channel_update_finalisations in Hu.
    destruct (bam_channel_trans_complete ch1); inversion H; subst; done.
Qed.

(** The loop from any count: the count grows, stays within the budget,
    and no more transactions are finalised than rounds are counted. *)
Lemma bam_channel_poll_loop_bound K n : ∀ count ch count' ch',
  count <= K →
  bam_channel_poll_loop n K count ch = Some (count', ch') →
  count <= count' <= K ∧
  (Z.of_nat (length (finalisations ch')) + count
   <= Z.of_nat (length (finalisations ch)) + count').
Proof.
  induction n as [| n IH]; intros count ch count' ch' Hle H; simpl in H.
  - destruct (count <? K); inversion H; subst; lia.
  - destruct (Z.ltb_spec count K) as [Hlt | Hge];
      [| inversion H; subst; lia].
    destruct (bam_channel_poll_one ch) as [[[t |] ch1] |] eqn:Hp;
      simpl in H; [| | done].
    + destruct (ipa_trans_complete t ch1) as [ch2 |] eqn:Hc;
        simpl in H; [| done].
      apply IH in H; [| lia].
      apply bam_channel_poll_one_finalisations in Hp.
      apply ipa_trans_complete_finalisations in Hc.
      rewrite Hc, length_app, Hp in H. simpl in H. lia.
    + inversion H; subst.
      apply bam_channel_poll_one_finalisations in Hp. rewrite Hp. lia.
Qed.

End PollLemmas.

Section PollExact.

Lemma ipa_trans_free_others t ch ch' :
  ipa_trans_free t ch = Some ch' →
  (∀ t', t' ≠ t → ch_mem ch' !! t' = ch_mem ch !! t') ∧
  (ti_complete (ch_trans_info ch') = ti_complete (ch_trans_info ch) ∨
   ti_complete (ch_trans_info ch')
   = list_del t (ti_complete (ch_trans_info ch))).
Proof.
  unfold ipa_trans_free. intros H.
  destruct (ch_mem ch !! t) as [tr |]; simpl in H; [| done].
  destruct (tr_refcount tr <=? 0); [done |].
  destruct (tr_refcount tr - 1 =? 0); inversion H; subst; clear H; simpl.
  - split; [| by right]. intros t' Hne. by rewrite lookup_insert_ne.
  - split; [| by left]. intros t' Hne. by rewrite lookup_insert_ne.
Qed.

(** Retiring a live transaction has a result, and touches no other
    transaction. *)
Lemma ipa_trans_complete_live t ch tr :
  ch_mem ch !! t = Some tr → 0 < tr_refcount tr →
  ∃ ch',
    ipa_trans_complete t ch = Some ch' ∧
    (∀ t', t' ≠ t → ch_mem ch' !! t' = ch_mem ch !! t') ∧
    (ti_complete (ch_trans_info ch') = ti_complete (ch_trans_info ch) ∨
     ti_complete (ch_trans_info ch')
     = list_del t (ti_complete (ch_trans_info ch))).
Proof.
  intros Hm Hr. unfold ipa_trans_complete. rewrite Hm; simpl.
  unfold complete, ipa_gsi_trans_complete.
  set (ch1 := if negb (direction_is_none (tr_direction tr))
              then add_event (EvUnmap t (tr_used tr)) ch else ch).
  assert (Hm1 : ch_mem (add_event (EvGsiComplete t) ch1) !! t = Some tr)
    by (unfold ch1; destruct (negb _); exact Hm).
  assert (Hmem1 : ch_mem (add_event (EvGsiComplete t) ch1) = ch_mem ch)
    by (unfold ch1; destruct (negb _); done).
  assert (Hti1 : ch_trans_info (add_event (EvGsiComplete t) ch1)
                 = ch_trans_info ch)
    by (unfold ch1; destruct (negb _); done).
  rewrite Hm1; simpl.
  set (ch2 := store_trans t (set_completion (tr_completion tr + 1) tr)
                (add_event (EvGsiComplete t) ch1)).
  assert (Hm2 : ch_mem ch2 !! t
                = Some (set_completion (tr_completion tr + 1) tr))
    by apply lookup_store_eq.
  destruct (ipa_trans_free t ch2) as [ch' |] eqn:Hf.
  - exists ch'. split; [done |].
    destruct (ipa_trans_free_others t ch2 ch' Hf) as [Ho Hc].
    split.
    + intros t' Hne. rewrite (Ho t' Hne). unfold ch2.
      rewrite lookup_store_ne by done. by rewrite Hmem1.
    + assert (Hti2 : ch_trans_info ch2 = ch_trans_info ch)
        by (unfold ch2, ch1; destruct (negb _); done).
      rewrite Hti2 in Hc. done.
  - exfalso. unfold ipa_trans_free in Hf. rewrite Hm2 in Hf; simpl in Hf.
    destruct (Z.leb_spec (tr_refcount tr) 0); [lia |].
    destruct (tr_refcount tr - 1 =? 0); done.
Qed.

Lemma bam_channel_poll_one_head ch t rest :
  ti_complete (ch_trans_info ch) = t :: rest →
  bam_channel_poll_one ch = Some (Some t, ipa_trans_move_polled t ch).
Proof.
  intros E. unfold bam_channel_poll_one, bam_channel_trans_complete.
  rewrite E. done.
Qed.

(** With [n] rounds left and at least [n] completed transactions at
    hand, the loop retires the first [n] of them. *)
Lemma bam_channel_poll_loop_exact K n : ∀ count ch,
  complete_ready ch →
  count + Z.of_nat n = K →
  (n <= length (ti_complete (ch_trans_info ch)))%nat →
  ∃ ch',
    bam_channel_poll_loop n K count ch = Some (K, ch') ∧
    ti_complete (ch_trans_info ch')
    = drop n (ti_complete (ch_trans_info ch)) ∧
    finalisations ch'
    = finalisations ch
        ++ map EvGsiComplete (take n (ti_complete (ch_trans_info ch))).
Proof.
  induction n as [| n IH]; intros count ch [Hnd Hlive] HK Hlen; simpl.
  - destruct (Z.ltb_spec count K); [lia |].
    exists ch. replace count with K by lia.
    rewrite ?drop_0, ?take_0; simpl. rewrite app_nil_r. done.
  - destruct (Z.ltb_spec count K); [| lia].
    destruct (ti_complete (ch_trans_info ch)) as [| t rest] eqn:E;
      simpl in Hlen; [lia |].
    rewrite (bam_channel_poll_one_head ch t rest E); simpl.
    apply NoDup_cons in Hnd as [Hnotin Hnd].
    destruct (Hlive t ltac:(left)) as (tr & Hm & Hr).
    set (ch1 := ipa_trans_move_polled t ch).
    assert (Hc1 : ti_complete (ch_trans_info ch1) = rest).
    { unfold ch1, ipa_trans_move_polled; simpl. rewrite E.
      unfold list_del. rewrite filter_cons_False by (intros Hne; done).
      by apply list_del_id. }
    destruct (ipa_trans_complete_live t ch1 tr Hm Hr)
      as (ch2 & Hcomp & Hoth & Hc2).
    rewrite Hcomp; simpl.
    assert (Hc2' : ti_complete (ch_trans_info ch2) = rest).
    { destruct Hc2 as [-> | ->]; rewrite Hc1; [done |].
      by apply list_del_id. }
    destruct (IH (count + 1) ch2) as (ch' & Hloop & Hdrop & Hfin).
    + split; rewrite Hc2'; [done |].
      intros t' Hin. destruct (Hlive t' ltac:(by right)) as (tr' & Hm' & Hr').
      exists tr'. split; [| done].
      rewrite Hoth by (intros ->; done). done.
    + lia.
    + rewrite Hc2'. lia.
    + exists ch'. split; [done |]. rewrite Hdrop, Hfin, Hc2'.
      split; [done |].
      rewrite (ipa_trans_complete_finalisations t ch1 ch2 Hcomp).
      rewrite <- app_assoc. done.
Qed.

End PollExact.

(** C7: for a budget [K] that is not negative, one invocation of
    [bam_channel_poll] finalises at most [K] transactions and returns a
    count of at most [K], on every channel; with more than [K] completed
    transactions at hand it finalises the first [K] and leaves the others
    on the complete list for a later invocation. *)
Theorem bam_channel_poll_budget (ch : ipa_channel) (K : Z) :
  0 <= K → poll_within_budget ch K.
Proof.
  intros HK. split; [| split].
  - intros n count ch' H.
    apply bam_channel_poll_loop_bound in H; [| lia]. lia.
  - intros count ch' H. unfold bam_channel_poll in H.
    destruct (bam_channel_poll_loop _ _ _ _) as [[c ch1] |] eqn:Hl;
      simpl in H; [| done].
    inversion H; subst; clear H.
    apply bam_channel_poll_loop_bound in Hl; [| lia].
    split; [lia |].
    destruct (count <? K).
    + unfold napi_complete. rewrite finalisations_add_event; simpl.
      rewrite app_nil_r. lia.
    + lia.
  - intros Hready Hlen.
    destruct (bam_channel_poll_loop_exact K (Z.to_nat K) 0 ch Hready
                ltac:(lia) Hlen) as (ch' & Hl & Hdrop & Hfin).
    exists ch'. unfold bam_channel_poll. rewrite Hl; simpl.
    rewrite Z.ltb_irrefl. done.
Qed.

Lemma bam_channel_poll_budget_witness : poll_within_budget ch_three_complete 2.
Proof. apply (bam_channel_poll_budget ch_three_complete 2). lia. Defined.

(** Three completed transactions and a budget of 2: two are finalised,
    the third stays on the complete list. *)
Example bam_channel_poll_three_complete :
  ti_complete (ch_trans_info ch_three_complete) = [0; 1; 2] ∧
  (λ r, (fst r, ti_complete (ch_trans_info (snd r)), finalisations (snd r)))
    <$> bam_channel_poll ch_three_complete 2
  = Some (2, [2], [EvGsiComplete 0; EvGsiComplete 1]).
Proof. vm_compute. done. Qed.

(** Nothing completed and nothing pending: the first round of the loop
    goes into [bam_channel_update], which has no defined result. *)
Example bam_channel_poll_idle : bam_channel_poll ch_fresh 1 = None.
Proof. reflexivity. Qed.

Section QueueLemmas.

Lemma ti_disjoint_split ti :
  ti_disjoint ti ↔
  NoDup (ti_alloc ti) ∧ NoDup (ti_pending ti) ∧
  NoDup (ti_complete ti) ∧ NoDup (ti_polled ti) ∧
  (∀ x, x ∈ ti_alloc ti →
        (x ∉ ti_pending ti) ∧ (x ∉ ti_complete ti) ∧ (x ∉ ti_polled ti)) ∧
  (∀ x, x ∈ ti_pending ti → (x ∉ ti_complete ti) ∧ (x ∉ ti_polled ti)) ∧
  (∀ x, x ∈ ti_complete ti → x ∉ ti_polled ti).
Proof.
  unfold ti_disjoint, ti_queued. rewrite !NoDup_app.
  setoid_rewrite not_elem_of_app. setoid_rewrite not_elem_of_app.
  tauto.
Qed.

Lemma NoDup_list_del t (l : list Z) : NoDup l → NoDup (list_del t l).
Proof. apply NoDup_filter. Qed.

Lemma NoDup_list_del_snoc t (l : list Z) :
  NoDup l → NoDup (list_del t l ++ [t]).
Proof.
  intros H. apply NoDup_app. split; [by apply NoDup_list_del |].
  split; [| apply NoDup_singleton].
  intros x Hx Hin. apply list_elem_of_singleton in Hin. subst.
  by apply list_del_not_elem in Hx.
Qed.

Lemma elem_of_list_del_snoc t x (l : list Z) :
  x ∈ list_del t l ++ [t] ↔ x = t ∨ x ∈ l.
Proof.
  rewrite elem_of_app, list_del_elem, list_elem_of_singleton.
  destruct (decide (x = t)); tauto.
Qed.

Lemma elem_of_snoc t x (l : list Z) : x ∈ l ++ [t] ↔ x ∈ l ∨ x = t.
Proof. by rewrite elem_of_app, list_elem_of_singleton. Qed.

End QueueLemmas.

(** Membership facts about unlinked and extended lists, down to the
    lists they come from. *)
Ltac mem_norm :=
  repeat match goal with
    | H : _ ∈ list_del _ _ ++ [_] |- _ => apply elem_of_list_del_snoc in H
    | H : _ ∈ list_del _ _ |- _ => apply list_del_elem in H
    | H : _ ∈ _ ++ [_] |- _ => apply elem_of_snoc in H
    | H : _ ∧ _ |- _ => destruct H
    | H : _ ∨ _ |- _ => destruct H
    | |- _ ∧ _ => split
    | |- _ ∉ _ => intros ?
    end.

Ltac mem_use :=
  repeat match goal with
    | H : ∀ x, x ∈ ?l → _, Hx : ?y ∈ ?l |- _ =>
        let F := fresh "F" in
        pose proof (H y Hx) as F; clear H
    end;
  repeat match goal with H : _ ∧ _ |- _ => destruct H end;
  subst; try tauto; try congruence.


Section QueueMoves.

Lemma trans_unlink_disjoint t ti :
  ti_disjoint ti → ti_disjoint (trans_unlink t ti).
Proof.
  rewrite !ti_disjoint_split; simpl.
  intros (Ha & Hp & Hc & Hq & H1 & H2 & H3).
  repeat split; try (by apply NoDup_list_del); intros; mem_norm; mem_use.
Qed.



Lemma move_pending_disjoint t ch :
  queues_disjoint ch → queues_disjoint (ipa_trans_move_pending t ch).
Proof.
  unfold queues_disjoint. rewrite !ti_disjoint_split; simpl.
  intros (Ha & Hp & Hc & Hq & H1 & H2 & H3).
  repeat split;
    try (by apply NoDup_list_del); try (by apply NoDup_list_del_snoc);
    intros; mem_norm; mem_use.
Qed.

Lemma move_complete_disjoint t ch :
  queues_disjoint ch → queues_disjoint (ipa_trans_move_complete t ch).
Proof.
  unfold queues_disjoint. rewrite !ti_disjoint_split; simpl.
  intros (Ha & Hp & Hc & Hq & H1 & H2 & H3).
  repeat split;
    try (by apply NoDup_list_del); try (by apply NoDup_list_del_snoc);
    intros; mem_norm; mem_use.
Qed.

Lemma move_polled_disjoint t ch :
  queues_disjoint ch → queues_disjoint (ipa_trans_move_polled t ch).
Proof.
  unfold queues_disjoint. rewrite !ti_disjoint_split; simpl.
  intros (Ha & Hp & Hc & Hq & H1 & H2 & H3).
  repeat split;
    try (by apply NoDup_list_del); try (by apply NoDup_list_del_snoc);
    intros; mem_norm; mem_use.
Qed.

(** The stage of a transaction depends on the lists it is on only. *)
Lemma stage_of_iff ch ch' t :
  (t ∈ ti_alloc (ch_trans_info ch') ↔ t ∈ ti_alloc (ch_trans_info ch)) →
  (t ∈ ti_pending (ch_trans_info ch') ↔ t ∈ ti_pending (ch_trans_info ch)) →
  (t ∈ ti_complete (ch_trans_info ch')
   ↔ t ∈ ti_complete (ch_trans_info ch)) →
  (t ∈ ti_polled (ch_trans_info ch') ↔ t ∈ ti_polled (ch_trans_info ch)) →
  stage_of ch' t = stage_of ch t.
Proof.
  intros Ha Hp Hc Hq. unfold stage_of.
  repeat destruct (decide _); try done; tauto.
Qed.

Lemma stage_of_in_alloc ch t :
  t ∈ ti_alloc (ch_trans_info ch) → stage_of ch t = Allocated.
Proof. intros H. unfold stage_of. by rewrite decide_True. Qed.

Lemma stage_of_in_pending ch t :
  queues_disjoint ch → t ∈ ti_pending (ch_trans_info ch) →
  stage_of ch t = Pending.
Proof.
  unfold queues_disjoint. rewrite ti_disjoint_split.
  intros (_ & _ & _ & _ & H1 & _) Hin. unfold stage_of.
  rewrite decide_False; [by rewrite decide_True |].
  intros Ha. destruct (H1 t Ha) as [Hn _]. done.
Qed.

Lemma stage_of_in_complete ch t :
  queues_disjoint ch → t ∈ ti_complete (ch_trans_info ch) →
  stage_of ch t = Complete.
Proof.
  unfold queues_disjoint. rewrite ti_disjoint_split.
  intros (_ & _ & _ & _ & H1 & H2 & _) Hin. unfold stage_of.
  rewrite decide_False; [rewrite decide_False; [by rewrite decide_True |] |].
  - intros Hp. destruct (H2 t Hp) as [Hn _]. done.
  - intros Ha. destruct (H1 t Ha) as (_ & Hn & _). done.
Qed.

Lemma stage_unlink_other t t' ch ch' :
  ch_trans_info ch' = trans_unlink t (ch_trans_info ch) → t' ≠ t →
  stage_of ch' t' = stage_of ch t'.
Proof.
  intros E Hne. apply stage_of_iff; rewrite E; simpl;
    rewrite list_del_elem; tauto.
Qed.

Lemma stage_move_pending_other t t' ch :
  t' ≠ t → stage_of (ipa_trans_move_pending t ch) t' = stage_of ch t'.
Proof.
  intros Hne. apply stage_of_iff; simpl;
    rewrite ?elem_of_list_del_snoc, ?list_del_elem; tauto.
Qed.

Lemma stage_move_complete_other t t' ch :
  t' ≠ t → stage_of (ipa_trans_move_complete t ch) t' = stage_of ch t'.
Proof.
  intros Hne. apply stage_of_iff; simpl;
    rewrite ?elem_of_list_del_snoc, ?list_del_elem; tauto.
Qed.

Lemma stage_move_polled_other t t' ch :
  t' ≠ t → stage_of (ipa_trans_move_polled t ch) t' = stage_of ch t'.
Proof.
  intros Hne. apply stage_of_iff; simpl;
    rewrite ?elem_of_list_del_snoc, ?list_del_elem; tauto.
Qed.

Lemma stage_move_pending_self t ch :
  stage_of (ipa_trans_move_pending t ch) t = Pending.
Proof.
  unfold stage_of; simpl.
  rewrite decide_False by apply list_del_not_elem.
  rewrite decide_True; [done |]. apply elem_of_list_del_snoc. by left.
Qed.

Lemma stage_move_complete_self t ch :
  stage_of (ipa_trans_move_complete t ch) t = Complete.
Proof.
  unfold stage_of; simpl.
  rewrite !decide_False by apply list_del_not_elem.
  rewrite decide_True; [done |]. apply elem_of_list_del_snoc. by left.
Qed.

Lemma stage_move_polled_self t ch :
  stage_of (ipa_trans_move_polled t ch) t = Polled.
Proof.
  unfold stage_of; simpl.
  rewrite !decide_False by apply list_del_not_elem.
  rewrite decide_True; [done |]. apply elem_of_list_del_snoc. by left.
Qed.

End QueueMoves.

Section OperationLemmas.

(** What dropping a reference does to the lists. *)
Lemma ipa_trans_free_lists t ch ch' :
  ipa_trans_free t ch = Some ch' →
  ch_trans_info ch' = ch_trans_info ch ∨
  ch_trans_info ch' = trans_unlink t (ch_trans_info ch).
Proof.
  unfold ipa_trans_free. intros H.
  destruct (ch_mem ch !! t) as [tr |]; simpl in H; [| done].
  destruct (tr_refcount tr <=? 0); [done |].
  destruct (tr_refcount tr - 1 =? 0); inversion H; subst; clear H; simpl;
    [by right | by left].
Qed.

Lemma bam_trans_callback_lists t ch ch' :
  bam_trans_callback t ch = Some ch' →
  ch_trans_info ch' = ch_trans_info ch ∨
  ch_trans_info ch' = trans_unlink t (ch_trans_info ch).
Proof.
  intros H. destruct (ch_mem ch !! t) as [tr |] eqn:Hm.
  - destruct (bam_trans_callback_unfold t ch tr Hm)
      as (ch1 & E & _ & Hti & _).
    rewrite E in H. apply ipa_trans_free_lists in H. by rewrite Hti in H.
  - unfold bam_trans_callback in H. by rewrite Hm in H.
Qed.

Lemma ipa_trans_complete_lists t ch ch' :
  ipa_trans_complete t ch = Some ch' →
  ch_trans_info ch' = ch_trans_info ch ∨
  ch_trans_info ch' = trans_unlink t (ch_trans_info ch).
Proof.
  unfold ipa_trans_complete. intros H.
  destruct (ch_mem ch !! t) as [tr |]; simpl in H; [| done].
  unfold complete, ipa_gsi_trans_complete in H.
  destruct (ch_mem _ !! t) as [tr1 |]; simpl in H; [| done].
  apply ipa_trans_free_lists in H.
  destruct (negb (direction_is_none (tr_direction tr))); exact H.
Qed.

Lemma bam_trans_commit_lists t ch ch' :
  __bam_trans_commit t ch = Some ch' →
  ch_trans_info ch' = ch_trans_info (ipa_trans_move_pending t ch).
Proof.
  unfold __bam_trans_commit. intros H.
  destruct (ch_mem ch !! t) as [tr |]; simpl in H; [| done].
  destruct (bam_commit_loop _ _ _ _ _ _ _ _ _ _ _) as [[[bc chan1] cookie] |];
    simpl in H; [| done].
  inversion H; subst; clear H.
  by destruct (ch_toward_ipa ch).
Qed.

Lemma bam_pending_scan_entry chan mem l t :
  bam_pending_scan chan mem l = Some (AtEntry t) → t ∈ l.
Proof.
  induction l as [| x l IH]; simpl; intros H; [done |].
  destruct (mem !! x) as [tr |]; simpl in H; [| done].
  destruct (dma_status_is_complete _).
  - inversion H; subst. by left.
  - right. by apply IH.
Qed.

(** The update moves one transaction of the pending list to the
    complete list. *)
Lemma bam_channel_update_lists ch ch' :
  bam_channel_update ch = Some ch' →
  ∃ t, t ∈ ti_pending (ch_trans_info ch) ∧
       ch_trans_info ch' = ch_trans_info (ipa_trans_move_complete t ch).
Proof.
  unfold bam_channel_update. intros H.
  destruct (bam_pending_scan _ _ _) as [[t |] |] eqn:Hs; simpl in H;
    try done.
  apply bam_pending_scan_entry in Hs. exists t. split; [done |].
  unfold refcount_inc in H.
  destruct (ch_mem ch !! t) as [tr |]; simpl in H; [| done].
  destruct (Z.leb_spec (tr_refcount tr) 0); simpl in H; [done |].
  rewrite lookup_insert_eq in H; simpl in H.
  match type of H with
  | ipa_trans_free t ?c = _ =>
      assert (Hm : ch_mem c !! t
                   = Some (set_refcount (tr_refcount tr + 1) tr))
  end.
  { destruct (ch_toward_ipa ch); simpl; apply lookup_insert_eq. }
  rewrite (ipa_trans_free_shared _ _ _ Hm) in H by (simpl; lia).
  inversion H; subst; clear H.
  by destruct (ch_toward_ipa ch).
Qed.

(** The poll step takes the head of the complete list, after an update
    when that list is empty. *)
Lemma bam_channel_poll_one_lists ch r ch' :
  bam_channel_poll_one ch = Some (r, ch') →
  (∃ t, r = Some t ∧ head (ti_complete (ch_trans_info ch)) = Some t ∧
        ch' = ipa_trans_move_polled t ch) ∨
  (∃ t ch1, r = Some t ∧ ti_complete (ch_trans_info ch) = [] ∧
            bam_channel_update ch = Some ch1 ∧
            t ∈ ti_pending (ch_trans_info ch) ∧
            ch_trans_info ch1
            = ch_trans_info (ipa_trans_move_complete t ch) ∧
            ch' = ipa_trans_move_polled t ch1).
Proof.
  unfold bam_channel_poll_one, bam_channel_trans_complete. intros H.
  destruct (ti_complete (ch_trans_info ch)) as [| t rest] eqn:E; simpl in H.
  - destruct (bam_channel_update ch) as [ch1 |] eqn:Hu; simpl in H;
      [| done].
    destruct (bam_channel_update_lists ch ch1 Hu) as (t & Hin & Hti).
    right. exists t, ch1.
    assert (Hh : head (ti_complete (ch_trans_info ch1)) = Some t).
    { rewrite Hti; simpl. by rewrite E. }
    rewrite Hh in H. inversion H; subst. done.
  - left. exists t. inversion H; subst. done.
Qed.

Lemma stage_rank_forward op s s' :
  s' = s ∨ s' = Freed ∨ op_move op s s' →
  stage_rank s <= stage_rank s'.
Proof.
  intros [-> | [-> | H]]; [lia | by destruct s |].
  destruct op; simpl in H; try done;
    repeat match goal with
      | H : _ ∧ _ |- _ => destruct H
      | H : _ ∨ _ |- _ => destruct H
      end; subst; simpl; lia.
Qed.

End OperationLemmas.

Section Lifecycle.
Variable ch : ipa_channel.
Hypothesis Hdisj : queues_disjoint ch.

Lemma queues_disjoint_ext (c c' : ipa_channel) :
  ch_trans_info c' = ch_trans_info c → queues_disjoint c →
  queues_disjoint c'.
Proof. unfold queues_disjoint. by intros ->. Qed.

Lemma op_forward_intro op ch' :
  queues_disjoint ch' →
  (∀ t, stage_of ch' t = stage_of ch t ∨
        stage_of ch' t = Freed ∨
        op_move op (stage_of ch t) (stage_of ch' t)) →
  op_forward ch op ch'.
Proof.
  intros Hd H. split; [done |]. intros t. split; [| apply H].
  by apply (stage_rank_forward op).
Qed.

(** An operation that leaves the lists alone, or unlinks one
    transaction. *)
Lemma op_forward_free_like op t0 ch' :
  ch_trans_info ch' = ch_trans_info ch ∨
  ch_trans_info ch' = trans_unlink t0 (ch_trans_info ch) →
  op_forward ch op ch'.
Proof.
  intros [E | E]; apply op_forward_intro.
  - by apply (queues_disjoint_ext ch).
  - intros t. left. by apply stage_of_ext.
  - unfold queues_disjoint. rewrite E. by apply trans_unlink_disjoint.
  - intros t. destruct (decide (t = t0)) as [-> | Hne].
    + right; left. by apply (stage_of_unlink t0 ch).
    + left. by apply (stage_unlink_other t0).
Qed.

Lemma op_forward_commit op t0 ch' :
  (op = OpCommit t0 ∨ op = OpCommitRaw t0) →
  t0 ∈ ti_alloc (ch_trans_info ch) →
  __bam_trans_commit t0 ch = Some ch' →
  op_forward ch op ch'.
Proof.
  intros Hop Hin H. apply bam_trans_commit_lists in H.
  apply op_forward_intro.
  - apply (queues_disjoint_ext (ipa_trans_move_pending t0 ch)); [done |].
    by apply move_pending_disjoint.
  - intros t. rewrite (stage_of_ext t _ _ H).
    destruct (decide (t = t0)) as [-> | Hne].
    + right; right. rewrite stage_move_pending_self.
      rewrite (stage_of_in_alloc ch t0 Hin).
      destruct Hop as [-> | ->]; simpl; done.
    + left. by apply stage_move_pending_other.
Qed.

Lemma op_forward_update ch' :
  bam_channel_update ch = Some ch' → op_forward ch OpUpdate ch'.
Proof.
  intros H. apply bam_channel_update_lists in H as (t0 & Hin & E).
  apply op_forward_intro.
  - apply (queues_disjoint_ext (ipa_trans_move_complete t0 ch)); [done |].
    by apply move_complete_disjoint.
  - intros t. rewrite (stage_of_ext t _ _ E).
    destruct (decide (t = t0)) as [-> | Hne].
    + right; right. rewrite stage_move_complete_self.
      rewrite (stage_of_in_pending ch t0 Hdisj Hin). simpl; done.
    + left. by apply stage_move_complete_other.
Qed.

Lemma op_forward_poll_one r ch' :
  bam_channel_poll_one ch = Some (r, ch') → op_forward ch OpPollOne ch'.
Proof.
  intros H. apply bam_channel_poll_one_lists in H
    as [(t0 & _ & Hh & ->) | (t0 & ch1 & _ & _ & _ & Hin & E & ->)].
  - apply head_Some_elem_of in Hh.
    apply op_forward_intro; [by apply move_polled_disjoint |].
    intros t. destruct (decide (t = t0)) as [-> | Hne].
    + right; right. rewrite stage_move_polled_self.
      rewrite (stage_of_in_complete ch t0 Hdisj Hh). simpl. tauto.
    + left. by apply stage_move_polled_other.
  - assert (Hd1 : queues_disjoint ch1).
    { apply (queues_disjoint_ext (ipa_trans_move_complete t0 ch));
        [done |]. by apply move_complete_disjoint. }
    apply op_forward_intro; [by apply move_polled_disjoint |].
    intros t. destruct (decide (t = t0)) as [-> | Hne].
    + right; right. rewrite stage_move_polled_self.
      rewrite (stage_of_in_pending ch t0 Hdisj Hin). simpl. tauto.
    + left. rewrite stage_move_polled_other by done.
      rewrite (stage_of_ext t _ _ E). by apply stage_move_complete_other.
Qed.

(** Any operation. *)
Lemma op_forward_run op ch' :
  op_allowed op ch → run_op op ch = Some ch' → op_forward ch op ch'.
Proof.
  destruct op as [t0 | t0 | t0 | | | t0 | t0]; simpl; intros Hok H.
  - unfold bam_trans_commit in H.
    destruct (ch_mem ch !! t0) as [tr |]; simpl in H; [| done].
    destruct (negb (tr_used tr =? 0)).
    + apply (op_forward_commit _ t0); auto.
    + apply (op_forward_free_like _ t0). by apply ipa_trans_free_lists.
  - apply (op_forward_commit _ t0); auto.
  - apply (op_forward_free_like _ t0). by apply bam_trans_callback_lists.
  - by apply op_forward_update.
  - destruct (bam_channel_poll_one ch) as [[r c] |] eqn:Hp;
      simpl in H; [| done].
    inversion H; subst. by apply (op_forward_poll_one r).
  - apply (op_forward_free_like _ t0). by apply ipa_trans_complete_lists.
  - apply (op_forward_free_like _ t0). by apply ipa_trans_free_lists.
Qed.

(** The allocation. *)
Lemma bam_channel_trans_alloc_stage channel_id tre_count direction t ch' :
  bam_channel_trans_alloc ch channel_id tre_count direction
  = Some (Some t, ch') →
  t ∉ queued ch →
  queues_disjoint ch' ∧
  ti_alloc (ch_trans_info ch') = ti_alloc (ch_trans_info ch) ++ [t] ∧
  stage_of ch' t = Allocated ∧
  ∀ t', t' ≠ t → stage_of ch' t' = stage_of ch t'.
Proof.
  unfold bam_channel_trans_alloc, ipa_trans_pool_alloc; simpl.
  destruct (u32 tre_count =? 0); [done |].
  intros H Hfresh. inversion H; subst; clear H.
  unfold queued, ti_queued in Hfresh.
  rewrite !not_elem_of_app in Hfresh.
  destruct Hfresh as (Fa & Fp & Fc & Fq).
  split; [| split; [| split]].
  - revert Hdisj. unfold queues_disjoint.
    rewrite !ti_disjoint_split; simpl.
    intros (Ha & Hp & Hc & Hq & H1 & H2 & H3).
    repeat split; try done; try (intros; mem_norm; mem_use; fail).
    apply NoDup_app. split; [done |]. split; [| apply NoDup_singleton].
    intros x Hx Hin. apply list_elem_of_singleton in Hin. by subst.
  - done.
  - apply stage_of_in_alloc; simpl. apply elem_of_snoc. by right.
  - intros t' Hne. apply stage_of_iff; simpl; try done.
    rewrite elem_of_snoc. tauto.
Qed.

End Lifecycle.

(** The lists of a channel are disjoint when it is set up. *)
Lemma bam_channel_init_disjoint toward_ipa :
  queues_disjoint (bam_channel_init toward_ipa).
Proof. unfold queues_disjoint, ti_disjoint; simpl. apply NoDup_nil_2. Qed.

(** C2 as stated fails: the commit of a transaction to which nothing was
    added frees it.  The transaction goes from the alloc list to no list
    at all, and is never on the pending, complete or polled list. *)
Lemma empty_commit_skips_stages :
  queues_disjoint ch_one_alloc ∧
  op_allowed (OpCommit 0) ch_one_alloc ∧
  ∃ ch', bam_trans_commit 0 ch_one_alloc = Some ch' ∧
         stage_of ch_one_alloc 0 = Allocated ∧
         stage_of ch' 0 = Freed ∧
         ¬ stage_step (stage_of ch_one_alloc 0) (stage_of ch' 0).
Proof.
  split; [| split].
  - unfold queues_disjoint, ti_disjoint. vm_compute. apply NoDup_singleton.
  - vm_compute. by left.
  - eexists. split; [vm_compute; reflexivity |].
    split; [reflexivity |]. split; [reflexivity |].
    vm_compute. intros [H | H]; discriminate.
Qed.

(** C2, amended: on a channel whose lists are disjoint, the allocation
    puts the transaction on the alloc list, the commit moves it from
    there to the pending list, the update moves a transaction from the
    pending to the complete list and the poll step moves it from the
    complete to the polled list.  Every operation keeps the lists
    disjoint and never moves a transaction backward: a transaction stays
    where it is, makes the move the operation is there for, or is freed,
    which the drop of the last reference does from any list. *)
Theorem transaction_lifecycle_forward (ch : ipa_channel) :
  queues_disjoint ch → lifecycle_forward ch.
Proof.
  intros Hdisj. split; [| split; [| split; [| split]]].
  - intros channel_id tre_count direction t ch' H Hfresh.
    by apply (bam_channel_trans_alloc_stage ch Hdisj channel_id tre_count
                direction).
  - intros t ch' Hin H. split; [by apply stage_of_in_alloc |].
    apply bam_trans_commit_lists in H.
    rewrite (stage_of_ext t _ _ H). apply stage_move_pending_self.
  - intros ch' H. apply bam_channel_update_lists in H as (t & Hin & E).
    exists t. split; [by apply stage_of_in_pending |].
    rewrite (stage_of_ext t _ _ E). apply stage_move_complete_self.
  - intros t ch' H. apply bam_channel_poll_one_lists in H
      as [(t0 & Hr & Hh & ->) | (t0 & ch1 & Hr & _ & Hu & Hin & E & ->)];
      inversion Hr; subst; clear Hr.
    + split; [apply stage_move_polled_self |]. left.
      apply stage_of_in_complete; [done |]. by apply head_Some_elem_of.
    + split; [apply stage_move_polled_self |]. right.
      exists ch1. split; [done |]. split; [by apply stage_of_in_pending |].
      rewrite (stage_of_ext t0 _ _ E). apply stage_move_complete_self.
  - intros op ch' Hok H. by apply (op_forward_run ch Hdisj op).
Qed.

Lemma transaction_lifecycle_forward_witness : lifecycle_forward ch_one_filled.
Proof.
  apply (transaction_lifecycle_forward ch_one_filled).
  unfold queues_disjoint, ti_disjoint. vm_compute. apply NoDup_singleton.
Defined.


(** * Further properties of the command builder *)

Section FieldLemmas.

Lemma u8_small x : 0 <= x < 2 ^ 8 → u8 x = x.
Proof. intros H. unfold u8. apply Z.mod_small. lia. Qed.

Lemma u64_small x : 0 <= x < 2 ^ 64 → u64 x = x.
Proof. intros H. unfold u64. apply Z.mod_small. lia. Qed.

(** A value of [n] bits put into a field of [n] bits at bit [l]. *)
Lemma field_put (field n l v : Z) :
  field_mask field = Z.ones n → field_multiplier field = 2 ^ l →
  0 <= n → 0 <= v < 2 ^ n →
  Z.land v (field_mask field) * field_multiplier field = v * 2 ^ l.
Proof.
  intros Hm Hl Hn Hv. rewrite Hm, Hl, Z.land_ones by lia.
  by rewrite Z.mod_small.
Qed.

(** Reading a field of [n] bits at bit [l]. *)
Lemma field_get (field n l x : Z) :
  field = Z.shiftl (Z.ones n) l → field_multiplier field = 2 ^ l →
  0 <= n → 0 <= l →
  Z.land x field / field_multiplier field = (x / 2 ^ l) mod 2 ^ n.
Proof.
  intros Hf Hl Hn Hl0. rewrite Hl, Hf, land_shifted_ones by lia.
  apply Z.div_mul. lia.
Qed.

(** Or-ing a value below [2 ^ n] into a multiple of [2 ^ n] adds it. *)
Lemma lor_mul_pow2_low (k y n : Z) :
  0 <= n → 0 <= y < 2 ^ n → Z.lor (k * 2 ^ n) y = k * 2 ^ n + y.
Proof.
  intros Hn Hy. rewrite <- Z.shiftl_mul_pow2 by lia.
  rewrite lor_shiftl_low by lia. by rewrite Z.shiftl_mul_pow2 by lia.
Qed.

(** The same for two fields that sit [l] bits up. *)
Lemma lor_mul_pow2_field (k y n l : Z) :
  0 <= n → 0 <= l → 0 <= y < 2 ^ n →
  Z.lor (k * 2 ^ n * 2 ^ l) (y * 2 ^ l) = (k * 2 ^ n + y) * 2 ^ l.
Proof.
  intros Hn Hl Hy.
  rewrite <- (Z.shiftl_mul_pow2 (k * 2 ^ n) l) by lia.
  rewrite <- (Z.shiftl_mul_pow2 y l) by lia.
  rewrite <- Z.shiftl_lor, lor_mul_pow2_low by lia.
  by rewrite Z.shiftl_mul_pow2 by lia.
Qed.

Lemma fltrt_masks :
  IP_FLTRT_FLAGS_HASH_SIZE_FMASK = Z.shiftl (Z.ones 12) 0 ∧
  IP_FLTRT_FLAGS_HASH_ADDR_FMASK = Z.shiftl (Z.ones 16) 12 ∧
  IP_FLTRT_FLAGS_NHASH_SIZE_FMASK = Z.shiftl (Z.ones 12) 28 ∧
  IP_FLTRT_FLAGS_NHASH_ADDR_FMASK = Z.shiftl (Z.ones 16) 40 ∧
  field_multiplier IP_FLTRT_FLAGS_HASH_SIZE_FMASK = 2 ^ 0 ∧
  field_multiplier IP_FLTRT_FLAGS_HASH_ADDR_FMASK = 2 ^ 12 ∧
  field_multiplier IP_FLTRT_FLAGS_NHASH_SIZE_FMASK = 2 ^ 28 ∧
  field_multiplier IP_FLTRT_FLAGS_NHASH_ADDR_FMASK = 2 ^ 40 ∧
  field_mask IP_FLTRT_FLAGS_HASH_SIZE_FMASK = Z.ones 12 ∧
  field_mask IP_FLTRT_FLAGS_HASH_ADDR_FMASK = Z.ones 16 ∧
  field_mask IP_FLTRT_FLAGS_NHASH_SIZE_FMASK = Z.ones 12 ∧
  field_mask IP_FLTRT_FLAGS_NHASH_ADDR_FMASK = Z.ones 16.
Proof. vm_compute. repeat split. Qed.

(** The flags word of a table-init command, as a sum of its fields. *)
Lemma table_init_flags_sum mem_offset opcode size offset addr
      hash_size hash_offset hash_addr ipv4 :
  0 <= size < 2 ^ 12 → 0 <= offset + mem_offset < 2 ^ 16 →
  0 <= hash_size < 2 ^ 12 →
  (hash_size ≠ 0 → 0 <= hash_offset + mem_offset < 2 ^ 16) →
  ft_flags (ce_payload (ipa_v3_cmd_table_init_add mem_offset opcode size
                          offset addr hash_size hash_offset hash_addr ipv4))
  = (offset + mem_offset) * 2 ^ 40 + size * 2 ^ 28
    + (if hash_size =? 0 then 0 else hash_offset + mem_offset) * 2 ^ 12
    + hash_size.
Proof.
  intros Hs Ho Hhs Hho.
  destruct fltrt_masks
    as (_ & _ & _ & _ & M1 & M2 & M3 & M4 & K1 & K2 & K3 & K4).
  unfold ipa_v3_cmd_table_init_add; cbn [ce_payload ft_flags].
  unfold u64_encode_bits, cpu_to_le64.
  rewrite (u32_small (offset + mem_offset)) by lia.
  rewrite (field_put _ 16 40 _ K4 M4) by lia.
  rewrite (field_put _ 12 28 _ K3 M3) by lia.
  rewrite (u64_small ((offset + mem_offset) * 2 ^ 40)) by lia.
  rewrite (u64_small (size * 2 ^ 28)) by lia.
  replace ((offset + mem_offset) * 2 ^ 40)
    with ((offset + mem_offset) * 2 ^ 12 * 2 ^ 28) by lia.
  rewrite (lor_mul_pow2_field _ size 12 28) by lia.
  destruct (Z.eqb_spec hash_size 0) as [-> | Hne]; simpl negb; cbv iota.
  - rewrite u64_small by lia. lia.
  - specialize (Hho Hne).
    rewrite (u32_small (hash_offset + mem_offset)) by lia.
    rewrite (field_put _ 16 12 _ K2 M2) by lia.
    rewrite (field_put _ 12 0 _ K1 M1) by lia.
    rewrite (u64_small ((hash_offset + mem_offset) * 2 ^ 12)) by lia.
    rewrite (u64_small (hash_size * 2 ^ 0)) by lia.
    replace (((offset + mem_offset) * 2 ^ 12 + size) * 2 ^ 28)
      with (((offset + mem_offset) * 2 ^ 12 + size) * 2 ^ 16 * 2 ^ 12) by lia.
    rewrite (lor_mul_pow2_field _ (hash_offset + mem_offset) 16 12) by lia.
    rewrite Z.mul_1_r.
    rewrite (lor_mul_pow2_low _ hash_size 12) by lia.
    rewrite u64_small by lia. lia.
Qed.

End FieldLemmas.

Section CommandLemmas.

(** The four fields of a flags word that is the sum of its fields. *)
Lemma fltrt_fields_get (a s h hs : Z) :
  0 <= a < 2 ^ 16 → 0 <= s < 2 ^ 12 → 0 <= h < 2 ^ 16 → 0 <= hs < 2 ^ 12 →
  let flags := a * 2 ^ 40 + s * 2 ^ 28 + h * 2 ^ 12 + hs in
  u64_get_bits flags IP_FLTRT_FLAGS_NHASH_ADDR_FMASK = a ∧
  u64_get_bits flags IP_FLTRT_FLAGS_NHASH_SIZE_FMASK = s ∧
  u64_get_bits flags IP_FLTRT_FLAGS_HASH_ADDR_FMASK = h ∧
  u64_get_bits flags IP_FLTRT_FLAGS_HASH_SIZE_FMASK = hs.
Proof.
  intros Ha Hs Hh Hhs flags.
  destruct fltrt_masks
    as (F1 & F2 & F3 & F4 & M1 & M2 & M3 & M4 & _).
  unfold u64_get_bits.
  rewrite (field_get _ 16 40 _ F4 M4), (field_get _ 12 28 _ F3 M3),
    (field_get _ 16 12 _ F2 M2), (field_get _ 12 0 _ F1 M1) by lia.
  subst flags.
  change (2 ^ 40) with 1099511627776. change (2 ^ 28) with 268435456.
  change (2 ^ 12) with 4096 in *. change (2 ^ 16) with 65536 in *.
  change (2 ^ 0) with 1.
  repeat split; Z.div_mod_to_equations; lia.
Qed.

Lemma table_init_decode_fields mem_offset opcode size offset addr
      hash_size hash_offset hash_addr ipv4 :
  0 <= size < 2 ^ 12 → 0 <= offset + mem_offset < 2 ^ 16 →
  0 <= hash_size < 2 ^ 12 →
  (hash_size ≠ 0 → 0 <= hash_offset + mem_offset < 2 ^ 16) →
  ipa_v3_table_init_decode
    (ce_payload (ipa_v3_cmd_table_init_add mem_offset opcode size offset
                   addr hash_size hash_offset hash_addr ipv4))
  = (offset + mem_offset, size,
     if hash_size =? 0 then 0 else hash_offset + mem_offset, hash_size).
Proof.
  intros Hs Ho Hhs Hho. unfold ipa_v3_table_init_decode.
  rewrite table_init_flags_sum by done.
  assert (Hh : 0 <= (if hash_size =? 0 then 0 else hash_offset + mem_offset)
               < 2 ^ 16).
  { destruct (Z.eqb_spec hash_size 0); [lia | auto]. }
  destruct (fltrt_fields_get (offset + mem_offset) size _ hash_size
              Ho Hs Hh Hhs) as (E1 & E2 & E3 & E4).
  by rewrite E1, E2, E3, E4.
Qed.

End CommandLemmas.

(** X1: the flags word of a v3 table-init command holds the offset and
    the size of the table that is not hashed and of the hashed one, each
    read back as it was given (the offsets with the offset of the
    accelerator's memory added), when the sizes fit 12 bits and the
    offsets 16 bits; with a hash size of 0 the hashed fields and the
    hashed address are 0, whatever hash offset and address are passed. *)
Theorem ipa_v3_table_init_roundtrip
    (mem_offset opcode size offset addr hash_size hash_offset hash_addr : Z)
    (ipv4 : bool) :
  0 <= size < 2 ^ 12 → 0 <= offset + mem_offset < 2 ^ 16 →
  0 <= hash_size < 2 ^ 12 →
  (hash_size ≠ 0 → 0 <= hash_offset + mem_offset < 2 ^ 16) →
  0 <= addr < 2 ^ 64 → 0 <= hash_addr < 2 ^ 64 →
  let p := ce_payload (ipa_v3_cmd_table_init_add mem_offset opcode size
                         offset addr hash_size hash_offset hash_addr ipv4) in
  ipa_v3_table_init_decode p
  = (offset + mem_offset, size,
     if hash_size =? 0 then 0 else hash_offset + mem_offset, hash_size) ∧
  ft_nhash_rules_addr p = addr ∧
  ft_hash_rules_addr p = (if hash_size =? 0 then 0 else hash_addr).
Proof.
  intros Hs Ho Hhs Hho Ha Hha p. subst p.
  split; [by apply table_init_decode_fields |].
  unfold ipa_v3_cmd_table_init_add; cbn [ce_payload ft_nhash_rules_addr
                                           ft_hash_rules_addr].
  unfold cpu_to_le64. rewrite (u64_small addr) by lia. split; [done |].
  destruct (hash_size =? 0); simpl; [done |]. by rewrite u64_small by lia.
Qed.

Lemma ipa_v3_table_init_roundtrip_witness :
  let p := ce_payload (ipa_v3_cmd_table_init_add 0x280 3 0x80 0x300 0x1000
                         0 0x7777 0x9999 true) in
  ipa_v3_table_init_decode p = (0x300 + 0x280, 0x80, 0, 0) ∧
  ft_nhash_rules_addr p = 0x1000 ∧ ft_hash_rules_addr p = 0.
Proof.
  apply (ipa_v3_table_init_roundtrip 0x280 3 0x80 0x300 0x1000 0 0x7777
           0x9999 true); lia.
Defined.

(** X2: for operands that are 32-bit values, [ipa_cmd_table_valid]
    passes a table region exactly when its offset plus the offset of the
    accelerator's memory is at most 0xffff and the region lies in the
    memory; [route], [ipv6] and [hashed] do not matter.  The offset of a
    region that passes is read back from the table-init command as it
    is. *)
Theorem ipa_cmd_table_valid_spec
    (ipa_mem_offset ipa_mem_size offset size : Z) (route ipv6 hashed : bool) :
  0 <= ipa_mem_offset < 2 ^ 32 → 0 <= ipa_mem_size < 2 ^ 32 →
  0 <= offset < 2 ^ 32 → 0 <= size < 2 ^ 32 →
  (ipa_cmd_table_valid ipa_mem_offset ipa_mem_size offset size
                       route ipv6 hashed = true
   ↔ offset + ipa_mem_offset <= 0xffff ∧ offset + size <= ipa_mem_size) ∧
  (ipa_cmd_table_valid ipa_mem_offset ipa_mem_size offset size
                       route ipv6 hashed = true →
   ∀ opcode table_size addr,
     0 <= table_size < 2 ^ 12 →
     fst (fst (fst (ipa_v3_table_init_decode
       (ce_payload (ipa_v3_cmd_table_init_add ipa_mem_offset opcode
                      table_size offset addr 0 0 0 true)))))
     = offset + ipa_mem_offset).
Proof.
  intros Hm Hms Ho Hs.
  assert (Hiff : ipa_cmd_table_valid ipa_mem_offset ipa_mem_size offset size
                   route ipv6 hashed = true
                 ↔ offset + ipa_mem_offset <= 0xffff
                   ∧ offset + size <= ipa_mem_size).
  { unfold ipa_cmd_table_valid.
    assert (E : u32 (if hashed
                     then field_max IP_FLTRT_FLAGS_HASH_ADDR_FMASK
                     else field_max IP_FLTRT_FLAGS_NHASH_ADDR_FMASK)
                = 0xffff) by (destruct hashed; vm_compute; reflexivity).
    rewrite E.
    destruct (Z.ltb_spec 0xffff offset) as [H1 | H1]; simpl;
      [split; [done | lia] |].
    rewrite (u32_small (0xffff - offset)) by lia.
    destruct (Z.ltb_spec (0xffff - offset) ipa_mem_offset) as [H2 | H2];
      simpl; [split; [done | lia] |].
    destruct (Z.ltb_spec ipa_mem_size offset) as [H3 | H3]; simpl;
      [split; [done | lia] |].
    rewrite (u32_small (ipa_mem_size - offset)) by lia.
    destruct (Z.ltb_spec (ipa_mem_size - offset) size) as [H4 | H4]; simpl;
      [split; [done | lia] |].
    split; [lia | done]. }
  split; [exact Hiff |].
  intros Hv opcode table_size addr Hts. apply Hiff in Hv as [Hv _].
  rewrite table_init_decode_fields; [done | lia | lia | lia | done].
Qed.

Lemma ipa_cmd_table_valid_spec_witness :
  (ipa_cmd_table_valid 0x280 0x2000 0x300 0x80 true false true = true
   ↔ 0x300 + 0x280 <= 0xffff ∧ 0x300 + 0x80 <= 0x2000) ∧
  (ipa_cmd_table_valid 0x280 0x2000 0x300 0x80 true false true = true →
   ∀ opcode table_size addr,
     0 <= table_size < 2 ^ 12 →
     fst (fst (fst (ipa_v3_table_init_decode
       (ce_payload (ipa_v3_cmd_table_init_add 0x280 opcode
                      table_size 0x300 addr 0 0 0 true)))))
     = 0x300 + 0x280).
Proof.
  apply (ipa_cmd_table_valid_spec 0x280 0x2000 0x300 0x80 true false true);
    lia.
Defined.

Section HeaderLemmas.

Lemma hdr_masks :
  HDR_INIT_LOCAL_FLAGS_TABLE_SIZE_FMASK = Z.shiftl (Z.ones 12) 0 ∧
  HDR_INIT_LOCAL_FLAGS_HDR_ADDR_FMASK = Z.shiftl (Z.ones 16) 12 ∧
  field_multiplier HDR_INIT_LOCAL_FLAGS_TABLE_SIZE_FMASK = 2 ^ 0 ∧
  field_multiplier HDR_INIT_LOCAL_FLAGS_HDR_ADDR_FMASK = 2 ^ 12 ∧
  field_mask HDR_INIT_LOCAL_FLAGS_TABLE_SIZE_FMASK = Z.ones 12 ∧
  field_mask HDR_INIT_LOCAL_FLAGS_HDR_ADDR_FMASK = Z.ones 16.
Proof. vm_compute. repeat split. Qed.

(** The flags word of a v3 header-init command: the size of the table,
    when it fits 12 bits, under the low 16 bits of the offset. *)
Lemma hdr_init_local_flags IPA_CMD_HDR_INIT_LOCAL mem_offset offset size addr :
  0 <= size < 2 ^ 12 →
  hl_flags (ce_payload (ipa_v3_cmd_hdr_init_local_add IPA_CMD_HDR_INIT_LOCAL
                          mem_offset offset size addr))
  = (u32 (offset + mem_offset) mod 2 ^ 16) * 2 ^ 12 + size.
Proof.
  intros Hs. destruct hdr_masks as (_ & _ & M1 & M2 & K1 & K2).
  unfold ipa_v3_cmd_hdr_init_local_add; cbn [ce_payload hl_flags].
  unfold u32_encode_bits, cpu_to_le32.
  rewrite (field_put _ 12 0 _ K1 M1) by lia.
  rewrite K2, M2, Z.land_ones by lia.
  set (a := u32 (offset + mem_offset) mod 2 ^ 16).
  assert (Ha : 0 <= a < 2 ^ 16) by (apply Z.mod_pos_bound; lia).
  rewrite Z.mul_1_r, (u32_small size), (u32_small (a * 2 ^ 12)) by lia.
  rewrite Z.lor_comm, lor_mul_pow2_low by lia.
  apply u32_small. lia.
Qed.

Lemma hdr_init_local_decode_fields
      IPA_CMD_HDR_INIT_LOCAL mem_offset offset size addr :
  0 <= size < 2 ^ 12 →
  ipa_v3_hdr_init_local_decode
    (ce_payload (ipa_v3_cmd_hdr_init_local_add IPA_CMD_HDR_INIT_LOCAL
                   mem_offset offset size addr))
  = (u32 (offset + mem_offset) mod 2 ^ 16, size).
Proof.
  intros Hs. unfold ipa_v3_hdr_init_local_decode.
  rewrite hdr_init_local_flags by done.
  destruct hdr_masks as (F1 & F2 & M1 & M2 & _).
  unfold u32_get_bits.
  rewrite (field_get _ 16 12 _ F2 M2), (field_get _ 12 0 _ F1 M1) by lia.
  set (a := u32 (offset + mem_offset) mod 2 ^ 16).
  assert (Ha : 0 <= a < 2 ^ 16) by (apply Z.mod_pos_bound; lia).
  change (2 ^ 12) with 4096 in *. change (2 ^ 16) with 65536 in *.
  change (2 ^ 0) with 1.
  f_equal; Z.div_mod_to_equations; lia.
Qed.

End HeaderLemmas.

(** X3: the flags word of a v3 header-init command holds the size of the
    header table and its offset, with the offset of the accelerator's
    memory added, and both are read back as given when the size fits 12
    bits and the offset 16 bits. *)
Theorem ipa_v3_hdr_init_local_roundtrip
    (IPA_CMD_HDR_INIT_LOCAL mem_offset offset size addr : Z) :
  0 <= size < 2 ^ 12 → 0 <= offset + mem_offset < 2 ^ 16 →
  0 <= addr < 2 ^ 64 →
  let p := ce_payload (ipa_v3_cmd_hdr_init_local_add IPA_CMD_HDR_INIT_LOCAL
                         mem_offset offset size addr) in
  ipa_v3_hdr_init_local_decode p = (offset + mem_offset, size) ∧
  hl_hdr_table_addr p = addr.
Proof.
  intros Hs Ho Ha p. subst p. split.
  - rewrite hdr_init_local_decode_fields by done.
    rewrite (u32_small (offset + mem_offset)) by lia.
    by rewrite Z.mod_small by lia.
  - unfold ipa_v3_cmd_hdr_init_local_add; cbn [ce_payload hl_hdr_table_addr].
    unfold cpu_to_le64. apply u64_small. lia.
Qed.

Lemma ipa_v3_hdr_init_local_roundtrip_witness :
  let p := ce_payload (ipa_v3_cmd_hdr_init_local_add 9 0x280 0x500 0x140
                         0x80001000) in
  ipa_v3_hdr_init_local_decode p = (0x500 + 0x280, 0x140) ∧
  hl_hdr_table_addr p = 0x80001000.
Proof.
  apply (ipa_v3_hdr_init_local_roundtrip 9 0x280 0x500 0x140 0x80001000);
    lia.
Defined.

(** X4: the v2 header-init command adds the offset of the accelerator's
    memory to the table offset twice, the v3 command once; the
    destination address of the v2 payload is the offset plus twice the
    memory offset, cut to 16 bits, and it is the address the v3 payload
    carries exactly when the memory offset is a multiple of 0x10000. *)
Theorem ipa_v2_hdr_init_local_dst_addr
    (IPA_CMD_HDR_INIT_LOCAL mem_offset offset size addr : Z) :
  0 <= size < 2 ^ 12 →
  let p2 := ce_payload (ipa_v2_cmd_hdr_init_local_add IPA_CMD_HDR_INIT_LOCAL
                          mem_offset offset size addr) in
  let p3 := ce_payload (ipa_v3_cmd_hdr_init_local_add IPA_CMD_HDR_INIT_LOCAL
                          mem_offset offset size addr) in
  h2_hdr_tbl_dst_addr p2 = (offset + 2 * mem_offset) mod 2 ^ 16 ∧
  (h2_hdr_tbl_dst_addr p2 = fst (ipa_v3_hdr_init_local_decode p3)
   ↔ mem_offset mod 2 ^ 16 = 0).
Proof.
  intros Hs p2 p3. subst p2 p3.
  rewrite hdr_init_local_decode_fields by done.
  unfold ipa_v2_cmd_hdr_init_local_add; cbn [ce_payload h2_hdr_tbl_dst_addr fst].
  unfold bitfield, cpu_to_le16, u16, u32.
  change (2 ^ 16) with 65536. change (2 ^ 32) with 4294967296.
  split.
  - Z.div_mod_to_equations. lia.
  - split; intros H; Z.div_mod_to_equations; lia.
Qed.

Lemma ipa_v2_hdr_init_local_dst_addr_witness :
  let p2 := ce_payload (ipa_v2_cmd_hdr_init_local_add 9 0x280 0x500 0x140
                          0x1000) in
  let p3 := ce_payload (ipa_v3_cmd_hdr_init_local_add 9 0x280 0x500 0x140
                          0x1000) in
  h2_hdr_tbl_dst_addr p2 = (0x500 + 2 * 0x280) mod 2 ^ 16 ∧
  (h2_hdr_tbl_dst_addr p2 = fst (ipa_v3_hdr_init_local_decode p3)
   ↔ 0x280 mod 2 ^ 16 = 0).
Proof.
  apply (ipa_v2_hdr_init_local_dst_addr 9 0x280 0x500 0x140 0x1000). lia.
Defined.

(** X5: for operands that are 32-bit values, [ipa_cmd_header_valid]
    passes exactly when the offset of the modem header region plus the
    offset of the accelerator's memory is at most 0xffff and the two
    header regions together lie in the memory, where the size of the
    two together is their sum as the code forms it, in 32 bits: it is
    taken modulo 2^32.  The size is compared with the size of the
    memory only, not with the 12 bits of the size field. *)
Theorem ipa_cmd_header_valid_spec
    (ipa_mem_offset ipa_mem_size : Z)
    (modem_header_offset modem_header_size ap_header_size : Z) :
  0 <= ipa_mem_offset < 2 ^ 32 → 0 <= ipa_mem_size < 2 ^ 32 →
  0 <= modem_header_offset < 2 ^ 32 →
  0 <= modem_header_size < 2 ^ 32 → 0 <= ap_header_size < 2 ^ 32 →
  (ipa_cmd_header_valid ipa_mem_offset ipa_mem_size modem_header_offset
                        modem_header_size ap_header_size = true
   ↔ modem_header_offset + ipa_mem_offset <= 0xffff ∧
     modem_header_offset
       + (modem_header_size + ap_header_size) mod 2 ^ 32
     <= ipa_mem_size).
Proof.
  intros Hm Hms Ho Hs1 Hs2. unfold ipa_cmd_header_valid.
  assert (E : u32 (field_max HDR_INIT_LOCAL_FLAGS_HDR_ADDR_FMASK) = 0xffff)
    by (vm_compute; reflexivity).
  rewrite E.
  change ((modem_header_size + ap_header_size) mod 2 ^ 32)
    with (u32 (modem_header_size + ap_header_size)).
  assert (Hsz : 0 <= u32 (modem_header_size + ap_header_size) < 2 ^ 32)
    by (unfold u32; apply Z.mod_pos_bound; lia).
  set (sz := u32 (modem_header_size + ap_header_size)) in *.
  destruct (Z.ltb_spec 0xffff modem_header_offset) as [H1 | H1]; simpl;
    [split; [done | lia] |].
  rewrite (u32_small (0xffff - modem_header_offset)) by lia.
  destruct (Z.ltb_spec (0xffff - modem_header_offset) ipa_mem_offset)
    as [H2 | H2]; simpl; [split; [done | lia] |].
  destruct (Z.ltb_spec ipa_mem_size modem_header_offset) as [H3 | H3]; simpl;
    [split; [done | lia] |].
  rewrite (u32_small (ipa_mem_size - modem_header_offset)) by lia.
  destruct (Z.ltb_spec (ipa_mem_size - modem_header_offset) sz)
    as [H4 | H4]; simpl; [split; [done | lia] |].
  split; [lia | done].
Qed.

(** Two header regions of 0xffffffff bytes and of 1 byte, whose sizes
    add up to 0 in 32 bits, pass for a memory of 0x4000 bytes. *)
Lemma ipa_cmd_header_valid_spec_witness :
  ipa_cmd_header_valid 0 0x4000 0 0xffffffff 1 = true
  ↔ 0 + 0 <= 0xffff ∧ 0 + (0xffffffff + 1) mod 2 ^ 32 <= 0x4000.
Proof.
  apply (ipa_cmd_header_valid_spec 0 0x4000 0 0xffffffff 1); lia.
Defined.

(** X6: the bound [ipa_cmd_register_write_offset_valid] compares with is
    0xffffffff on every version of the hardware, not the 16 or 20 bits
    of the offset of the command: [~0] is a signed int, and its shift to
    the right is -1 again.  So for 32-bit operands the check passes
    exactly when the offset plus the offset of the accelerator's memory
    does not overflow 32 bits. *)
Theorem ipa_cmd_register_write_offset_valid_spec
    (IPA_VERSION_3_5_1 version ipa_mem_offset offset : Z) :
  0 <= ipa_mem_offset < 2 ^ 32 → 0 <= offset < 2 ^ 32 →
  register_write_offset_max IPA_VERSION_3_5_1 version = 0xffffffff ∧
  (ipa_cmd_register_write_offset_valid IPA_VERSION_3_5_1 version
                                       ipa_mem_offset offset = true
   ↔ offset + ipa_mem_offset < 2 ^ 32).
Proof.
  intros Hm Ho.
  assert (E : register_write_offset_max IPA_VERSION_3_5_1 version
              = 0xffffffff).
  { unfold register_write_offset_max.
    destruct (negb (version =? IPA_VERSION_3_5_1)); vm_compute; reflexivity. }
  split; [exact E |].
  unfold ipa_cmd_register_write_offset_valid. rewrite E.
  destruct (Z.ltb_spec 0xffffffff offset) as [H1 | H1]; simpl; [lia |].
  rewrite (u32_small (0xffffffff - offset)) by lia.
  destruct (Z.ltb_spec (0xffffffff - offset) ipa_mem_offset) as [H2 | H2];
    simpl; [split; [done | lia] |].
  split; [lia | done].
Qed.

(** The offset 0x100000 does not fit the 20 bits of the command, and
    passes. *)
Lemma ipa_cmd_register_write_offset_valid_spec_witness :
  register_write_offset_max 0 1 = 0xffffffff ∧
  (ipa_cmd_register_write_offset_valid 0 1 0x280 0x100000 = true
   ↔ 0x100000 + 0x280 < 2 ^ 32).
Proof.
  apply (ipa_cmd_register_write_offset_valid_spec 0 1 0x280 0x100000); lia.
Defined.

Section SmallCommands.

Lemma small_masks :
  IPA_PACKET_INIT_DEST_ENDPOINT_FMASK = Z.shiftl (Z.ones 5) 0 ∧
  field_multiplier IPA_PACKET_INIT_DEST_ENDPOINT_FMASK = 2 ^ 0 ∧
  field_mask IPA_PACKET_INIT_DEST_ENDPOINT_FMASK = Z.ones 5 ∧
  IPA_V2_IP_PACKET_TAG_STATUS_TAG_FMASK = Z.shiftl (Z.ones 32) 0 ∧
  field_multiplier IPA_V2_IP_PACKET_TAG_STATUS_TAG_FMASK = 2 ^ 0 ∧
  field_mask IPA_V2_IP_PACKET_TAG_STATUS_TAG_FMASK = Z.ones 32 ∧
  IPA_V3_IP_PACKET_TAG_STATUS_TAG_FMASK = Z.shiftl (Z.ones 48) 16 ∧
  field_multiplier IPA_V3_IP_PACKET_TAG_STATUS_TAG_FMASK = 2 ^ 16 ∧
  field_mask IPA_V3_IP_PACKET_TAG_STATUS_TAG_FMASK = Z.ones 48.
Proof. vm_compute. repeat split. Qed.

Lemma clear_option_masks :
  REGISTER_WRITE_OPCODE_CLEAR_OPTION_FMASK = Z.shiftl (Z.ones 2) 9 ∧
  field_multiplier REGISTER_WRITE_OPCODE_CLEAR_OPTION_FMASK = 2 ^ 9 ∧
  field_mask REGISTER_WRITE_OPCODE_CLEAR_OPTION_FMASK = Z.ones 2 ∧
  REGISTER_WRITE_CLEAR_OPTIONS_FMASK = Z.shiftl (Z.ones 2) 0 ∧
  field_multiplier REGISTER_WRITE_CLEAR_OPTIONS_FMASK = 2 ^ 0 ∧
  field_mask REGISTER_WRITE_CLEAR_OPTIONS_FMASK = Z.ones 2.
Proof. vm_compute. repeat split. Qed.

End SmallCommands.

(** X7: the packet-init command keeps the low 5 bits of the endpoint
    id: the destination endpoint of the payload is the id modulo 32, so
    it is the id given exactly for the ids below 32. *)
Theorem ipa_cmd_ip_packet_init_endpoint
    (IPA_CMD_IP_PACKET_INIT endpoint_id : Z) :
  0 <= endpoint_id < 2 ^ 8 →
  let p := ce_payload (ipa_cmd_ip_packet_init_add IPA_CMD_IP_PACKET_INIT
                         endpoint_id) in
  pi_dest_endpoint p = endpoint_id mod 32 ∧
  u8_get_bits (pi_dest_endpoint p) IPA_PACKET_INIT_DEST_ENDPOINT_FMASK
  = endpoint_id mod 32 ∧
  (pi_dest_endpoint p = endpoint_id ↔ endpoint_id < 32).
Proof.
  intros Hid p. subst p.
  destruct small_masks as (F & M & K & _).
  unfold ipa_cmd_ip_packet_init_add; cbn [ce_payload pi_dest_endpoint].
  unfold u8_encode_bits, u8_get_bits.
  rewrite K, M, Z.land_ones, Z.mul_1_r by lia.
  change (2 ^ 5) with 32.
  assert (Hr : 0 <= endpoint_id mod 32 < 32) by (apply Z.mod_pos_bound; lia).
  rewrite (u8_small (endpoint_id mod 32)) by lia.
  split; [done |]. split.
  - rewrite F, land_shifted_ones by lia.
    change (2 ^ 0) with 1. change (2 ^ 5) with 32.
    rewrite Z.div_1_r, Z.mul_1_r, Z.div_1_r. apply Z.mod_small. lia.
  - split; intros H.
    + rewrite <- H. lia.
    + apply Z.mod_small. lia.
Qed.

Lemma ipa_cmd_ip_packet_init_endpoint_witness :
  let p := ce_payload (ipa_cmd_ip_packet_init_add 16 37) in
  pi_dest_endpoint p = 37 mod 32 ∧
  u8_get_bits (pi_dest_endpoint p) IPA_PACKET_INIT_DEST_ENDPOINT_FMASK
  = 37 mod 32 ∧
  (pi_dest_endpoint p = 37 ↔ 37 < 32).
Proof. apply (ipa_cmd_ip_packet_init_endpoint 16 37). lia. Defined.

(** X8: the tag of a tag-status command is read back as given when it
    fits the tag field, 32 bits in the v2 layout and 48 bits, from bit
    16 up, in the v3 layout; the cookies of the tag process, IPA_V2_COOKIE
    and IPA_V3_COOKIE, do fit. *)
Theorem ipa_cmd_ip_tag_status_roundtrip
    (IPA_CMD_IP_PACKET_TAG_STATUS tag : Z) :
  0 <= tag →
  (tag < 2 ^ 32 →
   u64_get_bits
     (ts_tag (ce_payload (ipa_v2_cmd_ip_tag_status_add
                            IPA_CMD_IP_PACKET_TAG_STATUS tag)))
     IPA_V2_IP_PACKET_TAG_STATUS_TAG_FMASK = tag) ∧
  (tag < 2 ^ 48 →
   ts_tag (ce_payload (ipa_v3_cmd_ip_tag_status_add
                         IPA_CMD_IP_PACKET_TAG_STATUS tag))
   = tag * 2 ^ 16 ∧
   u64_get_bits
     (ts_tag (ce_payload (ipa_v3_cmd_ip_tag_status_add
                            IPA_CMD_IP_PACKET_TAG_STATUS tag)))
     IPA_V3_IP_PACKET_TAG_STATUS_TAG_FMASK = tag) ∧
  IPA_V2_COOKIE < 2 ^ 32 ∧ IPA_V3_COOKIE < 2 ^ 48.
Proof.
  intros Ht.
  destruct small_masks as (_ & _ & _ & F2 & M2 & K2 & F3 & M3 & K3).
  split; [| split; [| clear; vm_compute; split; reflexivity]].
  - intros Hlt.
    unfold ipa_v2_cmd_ip_tag_status_add; cbn [ce_payload ts_tag].
    unfold u64_encode_bits, u64_get_bits.
    rewrite (field_put _ 32 0 _ K2 M2) by lia.
    rewrite (field_get _ 32 0 _ F2 M2) by lia.
    change (2 ^ 0) with 1. rewrite Z.mul_1_r, u64_small, Z.div_1_r by lia.
    apply Z.mod_small. lia.
  - intros Hlt.
    unfold ipa_v3_cmd_ip_tag_status_add; cbn [ce_payload ts_tag].
    unfold u64_encode_bits, u64_get_bits.
    rewrite (field_put _ 48 16 _ K3 M3) by lia.
    rewrite (u64_small (tag * 2 ^ 16)) by lia. split; [done |].
    rewrite (field_get _ 48 16 _ F3 M3) by lia.
    rewrite Z.div_mul by lia. apply Z.mod_small. lia.
Qed.

Lemma ipa_cmd_ip_tag_status_roundtrip_witness :
  u64_get_bits
    (ts_tag (ce_payload (ipa_v2_cmd_ip_tag_status_add 20 IPA_V2_COOKIE)))
    IPA_V2_IP_PACKET_TAG_STATUS_TAG_FMASK = IPA_V2_COOKIE ∧
  u64_get_bits
    (ts_tag (ce_payload (ipa_v3_cmd_ip_tag_status_add 20 IPA_V3_COOKIE)))
    IPA_V3_IP_PACKET_TAG_STATUS_TAG_FMASK = IPA_V3_COOKIE.
Proof.
  split.
  - apply (ipa_cmd_ip_tag_status_roundtrip 20 IPA_V2_COOKIE);
      vm_compute; congruence.
  - apply (ipa_cmd_ip_tag_status_roundtrip 20 IPA_V3_COOKIE);
      vm_compute; congruence.
Defined.

(** X9: a v3 register write carries the pipeline clear option asked
    for, full or hps: in bits 9 and 10 of the opcode from IPA v4.0 (for
    an opcode constant below 0x100) and in the clear-options word on IPA
    v3.5.1.  The v2 register write carries none: its payload and its
    opcode are the same for both. *)
Theorem register_write_clear_option
    (IPA_CMD_REGISTER_WRITE IPA_VERSION_3_5_1 version : Z)
    (offset value mask : Z) (clear_full : bool) :
  0 <= IPA_CMD_REGISTER_WRITE < 2 ^ 8 →
  ipa_v3_register_write_clear_option IPA_VERSION_3_5_1 version
    (ipa_v3_cmd_register_write_add IPA_CMD_REGISTER_WRITE IPA_VERSION_3_5_1
       version offset value mask clear_full)
  = (if clear_full then pipeline_clear_full else pipeline_clear_hps) ∧
  ipa_v2_cmd_register_write_add IPA_CMD_REGISTER_WRITE offset value mask
                                clear_full
  = ipa_v2_cmd_register_write_add IPA_CMD_REGISTER_WRITE offset value mask
                                  (negb clear_full).
Proof.
  intros Hop. split; [| done].
  destruct clear_option_masks as (F1 & M1 & K1 & F2 & M2 & K2).
  set (c := if clear_full then pipeline_clear_full else pipeline_clear_hps).
  assert (Hc : 0 <= c < 2 ^ 2)
    by (subst c; destruct clear_full; vm_compute; split; congruence).
  unfold ipa_v3_register_write_clear_option, ipa_v3_cmd_register_write_add.
  fold c.
  destruct (negb (version =? IPA_VERSION_3_5_1));
    cbn [ce_opcode ce_payload rw_clear_options].
  - unfold u16_encode_bits, u16_get_bits.
    rewrite (field_put _ 2 9 _ K1 M1) by lia.
    rewrite (u16_small (c * 2 ^ 9)) by lia.
    rewrite Z.lor_comm, lor_mul_pow2_low by lia.
    rewrite (field_get _ 2 9 _ F1 M1) by lia.
    change (2 ^ 9) with 512 in *. change (2 ^ 2) with 4 in *.
    change (2 ^ 8) with 256 in *.
    Z.div_mod_to_equations. lia.
  - unfold u16_encode_bits, u16_get_bits, cpu_to_le32.
    rewrite (field_put _ 2 0 _ K2 M2) by lia.
    change (2 ^ 0) with 1. rewrite Z.mul_1_r.
    rewrite (u16_small c), (u32_small c) by lia.
    rewrite (field_get _ 2 0 _ F2 M2) by lia.
    change (2 ^ 0) with 1. rewrite Z.div_1_r. apply Z.mod_small. lia.
Qed.

Lemma register_write_clear_option_witness :
  ipa_v3_register_write_clear_option 0 1
    (ipa_v3_cmd_register_write_add 12 0 1 0x40 1 1 true)
  = pipeline_clear_full ∧
  ipa_v2_cmd_register_write_add 12 0x40 1 1 true
  = ipa_v2_cmd_register_write_add 12 0x40 1 1 false.
Proof. apply (register_write_clear_option 12 0 1 0x40 1 1 true). lia. Defined.

(** ** What a commit submits and counts *)

Section CommitDescriptorLemmas.

Lemma u32_idemp x : u32 (u32 x) = u32 x.
Proof. unfold u32. apply Z.mod_mod. lia. Qed.

Lemma u32_add_l a l s : u32 (u32 (a + l) + s) = u32 (a + (l + s)).
Proof. unfold u32. rewrite Zplus_mod_idemp_l. f_equal. lia. Qed.

(** The descriptors of the loop, for the rounds that are left. *)
Lemma bam_commit_loop_descs t dir used n :
  ∀ i pos info opcode bc chan cookie bc' chan' cookie',
  bam_commit_loop t dir used n i pos info opcode bc chan cookie
  = Some (bc', chan', cookie') →
  ∃ descs,
    chan_submitted chan' = chan_submitted chan ++ descs ∧
    length descs = n ∧
    chan_issued chan' = chan_issued chan ∧
    (n = O → bc' = bc) ∧
    (n ≠ O → bc' = u32 (bc + sg_bytes (take n pos))) ∧
    (∀ j d, descs !! j = Some d →
       ∃ sg, pos !! j = Some sg ∧
         d_addr d = sg_dma_address sg ∧
         d_direction d = dir ∧
         d_interrupt d = (i + Z.of_nat j =? used - 1) ∧
         d_callback d
         = (if i + Z.of_nat j =? used - 1 then Some t else None) ∧
         let o := match info with
                  | None => opcode
                  | Some l => default IPA_CMD_NONE (l !! j)
                  end in
         d_imm_cmd d = negb (opcode_is_none o) ∧
         d_len d
         = (if opcode_is_none o then sg_dma_len sg else opcode_value o)) ∧
    (∀ d, last descs = Some d → chan_cookie chan' = d_cookie d) ∧
    (descs = [] → chan_cookie chan' = chan_cookie chan) ∧
    (∀ j d, descs !! j = Some d → i + Z.of_nat j = used - 1 →
            cookie' = d_cookie d) ∧
    ((∀ j, (j < n)%nat → i + Z.of_nat j ≠ used - 1) → cookie' = cookie).
Proof.
  induction n as [|n IH]; intros i pos info opcode bc chan cookie bc' chan'
    cookie' H; simpl in H.
  - injection H as <- <- <-. exists []. rewrite app_nil_r. simpl.
    repeat split; done.
  - destruct pos as [|sg pos1]; [done|].
    destruct (match info with
              | None => Some (opcode, None)
              | Some [] => None
              | Some (o :: info1) => Some (o, Some info1)
              end) as [[o info1]|] eqn:Hi; [|done].
    simpl in H.
    unfold dmaengine_submit in H.
    apply IH in H as (descs & Hsub & Hlen & Hiss & Hbc & Hcan & Hd & Hlast
                      & Hnil & Hck & Hnone).
    simpl in Hsub, Hiss, Hnil.
    eexists (_ :: descs). split.
    { rewrite Hsub, <- app_assoc. reflexivity. }
    split; [simpl; by rewrite Hlen|].
    split; [done|].
    split; [done|].
    split.
    { intros _. destruct n as [|n'].
      - rewrite Hbc by done. simpl. by rewrite Z.add_0_r.
      - rewrite Hcan by done. simpl. apply u32_add_l. }
    split.
    { intros [|j] d Hj.
      - injection Hj as <-. simpl. exists sg.
        rewrite Z.add_0_r. repeat split; try done.
        + destruct info as [[|o' l]|]; simplify_eq; done.
        + destruct info as [[|o' l]|]; simplify_eq; simpl;
            by destruct (opcode_is_none _).
      - simpl in Hj. apply Hd in Hj as (sg' & Hp & Ha & Hdir & Hint & Hcb & Ho).
        exists sg'. simpl.
        replace (i + Z.of_nat (S j)) with (i + 1 + Z.of_nat j) by lia.
        repeat split; try done.
        + destruct info as [[|o' l]|]; simplify_eq; simpl in *; tauto.
        + destruct info as [[|o' l]|]; simplify_eq; simpl in *; tauto. }
    split.
    { intros d Hl. destruct descs as [|d1 descs'].
      - injection Hl as <-. simpl. by rewrite Hnil.
      - apply Hlast. by rewrite last_cons_cons in Hl. }
    split; [done|].
    split.
    { intros [|j] d Hj Hij.
      - injection Hj as <-. simpl. rewrite Z.add_0_r in Hij.
        rewrite Hnone.
        + by rewrite (proj2 (Z.eqb_eq _ _) Hij).
        + intros; lia.
      - simpl in Hj. eapply Hck; [done|lia]. }
    { intros Hno. rewrite Hnone.
      - specialize (Hno O ltac:(lia)). rewrite Z.add_0_r in Hno.
        by rewrite (proj2 (Z.eqb_neq _ _) Hno).
      - intros j Hj. specialize (Hno (S j) ltac:(lia)). lia. }
Qed.

End CommitDescriptorLemmas.

(** X10: the descriptors of a commit.  A commit of a transaction with
    [used] entries submits [used] descriptors after those the DMA
    channel holds, one for each entry of the scatter list and in its
    order: each has the address of its entry and the direction of the
    channel; an entry with a command opcode is sent as an immediate
    command with the opcode as its length, the others with the length
    of the entry; only the last one asks for the interrupt and carries
    the callback for the transaction; the transaction keeps the cookie
    of that last descriptor, and all of them have been issued. *)
Theorem bam_trans_commit_descriptors (t : Z) (tr : ipa_trans)
    (ch ch' : ipa_channel) :
  ch_mem ch !! t = Some tr →
  __bam_trans_commit t ch = Some ch' →
  commit_submits t tr ch ch'.
Proof.
  intros Hm H. unfold __bam_trans_commit in H. rewrite Hm in H.
  simpl in H.
  destruct (bam_commit_loop _ _ _ _ _ _ _ _ _ _ _)
    as [[[bc chan1] cookie]|] eqn:Hl; [|done].
  simpl in H. injection H as H.
  apply bam_commit_loop_descs in Hl
    as (descs & Hsub & Hlen & Hiss & Hbc0 & Hbc & Hd & Hlast & Hnil & Hck & Hnone).
  exists descs.
  assert (Hlast' : ∀ d, last descs = Some d → cookie = d_cookie d).
  { intros d Hd'. rewrite last_lookup in Hd'.
    apply (Hck _ _ Hd'). rewrite Hlen.
    assert (0 < length descs)%nat.
    { destruct descs; [done|simpl; lia]. }
    rewrite Hlen in *. lia. }
  unfold commit_submits.
  assert (Hch : ch_priv ch' = dma_async_issue_pending chan1
                ∧ tr_cookie <$> ch_mem ch' !! t = Some cookie).
  { subst ch'. destruct (ch_toward_ipa ch); simpl;
      rewrite lookup_insert_eq; done. }
  destruct Hch as [Hpriv Hcookie]. rewrite Hpriv, Hcookie. simpl.
  split; [done|]. split; [done|]. split.
  { intros j d Hj. apply Hd in Hj as (sg & Hp & Ha & Hdir & Hint & Hcb & Ho).
    exists sg. rewrite Z.add_0_l in Hint, Hcb.
    repeat split; try done.
    - destruct (tr_info tr); simpl in *; tauto.
    - destruct (tr_info tr); simpl in *; tauto. }
  split; [done|].
  intros d Hl. split; [f_equal; by apply Hlast'|by apply Hlast].
Qed.

Lemma bam_trans_commit_descriptors_witness :
  commit_submits 0 tr_two_pages ch_two_pages ch_two_committed.
Proof. apply bam_trans_commit_descriptors; vm_compute; reflexivity. Defined.

Section CountLemmas.

Lemma u64_catch_up c x : u64 x = x → u64 (c + u64 (x - c)) = x.
Proof.
  unfold u64. intros Hx. rewrite Zplus_mod_idemp_r.
  by replace (c + (x - c)) with x by lia.
Qed.

Lemma u64_idemp x : u64 (u64 x) = u64 x.
Proof. unfold u64. apply Z.mod_mod. lia. Qed.

Lemma bam_trans_commit_counts_aux t tr ch ch' :
  ch_mem ch !! t = Some tr →
  __bam_trans_commit t ch = Some ch' →
  commit_counts t tr ch ch'.
Proof.
  intros Hm H. unfold __bam_trans_commit in H. rewrite Hm in H.
  simpl in H.
  destruct (bam_commit_loop _ _ _ _ _ _ _ _ _ _ _)
    as [[[bc chan1] cookie]|] eqn:Hl; [|done].
  simpl in H. injection H as H.
  apply bam_commit_loop_descs in Hl
    as (descs & _ & _ & _ & Hbc0 & Hbc & _).
  assert (Hb : bc = u32 (sg_bytes (take (Z.to_nat (tr_used tr)) (tr_sgl tr)))).
  { destruct (Z.to_nat (tr_used tr)) as [|k] eqn:Hk.
    - by rewrite Hbc0.
    - by rewrite Hbc. }
  unfold commit_counts. rewrite <- Hb. subst ch'.
  destruct (ch_toward_ipa ch); simpl;
    (split; [done|]; split; [done|]); eexists;
    (split; [apply lookup_insert_eq|]); done.
Qed.

End CountLemmas.

(** X11: the counters of a commit.  On a TX channel the transaction
    gets as its length the bytes of its entries (a 32-bit sum) and the
    totals of the channel as they were before it, and the channel
    counts one transaction and these bytes more (64-bit counters); on
    an RX channel the commit counts nothing, the transaction and the
    channel keep their counters.  The completed totals are not touched
    in either direction. *)
Theorem bam_trans_commit_counts (t : Z) (tr : ipa_trans)
    (ch ch' : ipa_channel) :
  ch_mem ch !! t = Some tr →
  __bam_trans_commit t ch = Some ch' →
  commit_counts t tr ch ch'.
Proof. apply bam_trans_commit_counts_aux. Qed.

Lemma bam_trans_commit_counts_witness :
  commit_counts 0 tr_one_filled ch_one_filled ch_one_committed ∧
  commit_counts 0 tr_two_pages ch_two_pages ch_two_committed.
Proof. split; apply bam_trans_commit_counts; vm_compute; reflexivity. Defined.

(** X12: commit and completion accounting agree.  After the commit of
    a transaction on a TX channel, the update for it brings the
    completed totals of the channel up to its totals, reports the step
    from the completed totals it found, and a second update for the
    same transaction reports 0 transactions and 0 bytes. *)
Theorem bam_channel_tx_update_catches_up (t : Z) (tr : ipa_trans)
    (ch ch' : ipa_channel) :
  ch_mem ch !! t = Some tr →
  ch_toward_ipa ch = true →
  __bam_trans_commit t ch = Some ch' →
  tx_accounting t ch ch'.
Proof.
  intros Hm Htx H.
  destruct (bam_trans_commit_counts_aux _ _ _ _ Hm H)
    as (Hcb & Hct & tr' & Hm' & Hc).
  rewrite Htx in Hc. destruct Hc as (Hlen & Hbc & Htc & Hchb & Hcht).
  exists tr'. split; [done|]. unfold bam_channel_tx_update. simpl.
  rewrite Hbc, Htc, Hlen, <- Hchb, <- Hcht.
  assert (Hb : u64 (ch_byte_count ch') = ch_byte_count ch')
    by (rewrite Hchb; apply u64_idemp).
  assert (Hc : u64 (ch_trans_count ch') = ch_trans_count ch')
    by (rewrite Hcht; apply u64_idemp).
  rewrite !u64_catch_up, !Z.sub_diag by done.
  repeat split; done.
Qed.

Lemma bam_channel_tx_update_catches_up_witness :
  tx_accounting 0 ch_one_filled ch_one_committed.
Proof.
  apply (bam_channel_tx_update_catches_up 0 tr_one_filled);
    vm_compute; reflexivity.
Defined.

(** ** The harvester: which transaction an update moves, and what a
    poll returns *)

Section HarvestLemmas.

Lemma dma_status_is_complete_iff s :
  dma_status_is_complete s = true ↔ s = DMA_COMPLETE.
Proof. by destruct s. Qed.

(** The scan stops at the first transaction that is complete. *)
Lemma bam_pending_scan_first chan mem l t :
  bam_pending_scan chan mem l = Some (AtEntry t) →
  ∃ before after,
    l = before ++ t :: after ∧
    (∀ x, x ∈ before →
          ∃ trx, mem !! x = Some trx ∧
                 dma_async_is_tx_complete chan (tr_cookie trx)
                 ≠ DMA_COMPLETE) ∧
    ∃ tr, mem !! t = Some tr ∧
          dma_async_is_tx_complete chan (tr_cookie tr) = DMA_COMPLETE.
Proof.
  induction l as [|x l IH]; simpl; [done|].
  destruct (mem !! x) as [trx|] eqn:Hx; simpl; [|done].
  destruct (dma_status_is_complete _) eqn:Hc.
  - intros [= ->]. exists [], l. split; [done|]. split.
    + intros y Hy. by apply elem_of_nil in Hy.
    + exists trx. split; [done|]. by apply dma_status_is_complete_iff.
  - intros H. apply IH in H as (before & after & -> & Hb & Ht).
    exists (x :: before), after. split; [done|]. split; [|done].
    intros y Hy. apply elem_of_cons in Hy as [->|Hy]; [|by apply Hb].
    exists trx. split; [done|]. intros E.
    apply dma_status_is_complete_iff in E. congruence.
Qed.

(** A poll step with a result always has a transaction. *)
Lemma bam_channel_poll_one_some ch r ch' :
  bam_channel_poll_one ch = Some (r, ch') → ∃ t, r = Some t.
Proof.
  intros H. apply bam_channel_poll_one_lists in H
    as [(t & -> & _)|(t & ch1 & -> & _)]; by exists t.
Qed.

(** The loop with a result has used up the budget. *)
Lemma bam_channel_poll_loop_full K n : ∀ count ch count' ch',
  count + Z.of_nat n = K →
  bam_channel_poll_loop n K count ch = Some (count', ch') →
  count' = K.
Proof.
  induction n as [|n IH]; intros count ch count' ch' Hn H; simpl in H.
  - destruct (Z.ltb_spec count K); [lia|]. injection H as <- <-. lia.
  - destruct (Z.ltb_spec count K); [|lia].
    destruct (bam_channel_poll_one ch) as [[r ch1]|] eqn:Hp; simpl in H;
      [|done].
    destruct (bam_channel_poll_one_some _ _ _ Hp) as [t ->].
    destruct (ipa_trans_complete t ch1) as [ch2|]; simpl in H; [|done].
    eapply IH; [|exact H]. lia.
Qed.

(** The counts of the loop move with the budget. *)
Lemma bam_channel_poll_loop_shift d n : ∀ K count ch,
  bam_channel_poll_loop n (K + d) (count + d) ch
  = (λ r, (r.1 + d, r.2)) <$> bam_channel_poll_loop n K count ch.
Proof.
  induction n as [|n IH]; intros K count ch; simpl.
  - replace (count + d <? K + d) with (count <? K)
      by (destruct (Z.ltb_spec count K), (Z.ltb_spec (count + d) (K + d));
          (done || lia)).
    by destruct (count <? K).
  - replace (count + d <? K + d) with (count <? K)
      by (destruct (Z.ltb_spec count K), (Z.ltb_spec (count + d) (K + d));
          (done || lia)).
    destruct (count <? K); [|done].
    destruct (bam_channel_poll_one ch) as [[[t|] ch1]|]; simpl; [| |done].
    + destruct (ipa_trans_complete t ch1) as [ch2|]; simpl; [|done].
      replace (count + d + 1) with (count + 1 + d) by lia. apply IH.
    + do 2 f_equal. lia.
Qed.

(** The rounds of a larger budget start with those of a smaller one. *)
Lemma bam_channel_poll_loop_app K1 K2 n2 n1 : ∀ count ch ch1,
  0 <= K2 →
  count + Z.of_nat n1 = K1 →
  bam_channel_poll_loop n1 K1 count ch = Some (K1, ch1) →
  bam_channel_poll_loop (n1 + n2) (K1 + K2) count ch
  = bam_channel_poll_loop n2 (K1 + K2) K1 ch1.
Proof.
  induction n1 as [|n1 IH]; intros count ch ch1 HK Hn H; simpl in H.
  - destruct (Z.ltb_spec count K1); [lia|]. injection H as _ <-.
    simpl. by replace count with K1 by lia.
  - destruct (Z.ltb_spec count K1); [|lia].
    simpl. destruct (Z.ltb_spec count (K1 + K2)); [|lia].
    destruct (bam_channel_poll_one ch) as [[r ch2]|] eqn:Hp; simpl in *;
      [|done].
    destruct (bam_channel_poll_one_some _ _ _ Hp) as [t ->].
    destruct (ipa_trans_complete t ch2) as [ch3|]; simpl in *; [|done].
    apply IH; [done|lia|done].
Qed.

End HarvestLemmas.

(** X13: what an update moves.  An update that has a result moved one
    transaction: the first one on the pending list whose descriptors
    the hardware has completed, whatever else has completed behind
    it.  That transaction is at the tail of the complete list
    afterwards, with the reference count it had before (the reference
    the update takes is dropped again); no other transaction changed,
    and the DMA channel is as it was. *)
Theorem bam_channel_update_first_complete (ch ch' : ipa_channel) :
  bam_channel_update ch = Some ch' →
  ∃ t, update_moves_first ch ch' t.
Proof.
  unfold bam_channel_update. intros H.
  destruct (bam_pending_scan _ _ _) as [[t|]|] eqn:Hs; simpl in H;
    try done.
  apply bam_pending_scan_first in Hs as (before & after & Hl & Hb & Ht).
  exists t. split; [by exists before, after|].
  unfold refcount_inc in H.
  destruct (ch_mem ch !! t) as [tr|] eqn:Hm; simpl in H; [|done].
  destruct (Z.leb_spec (tr_refcount tr) 0); simpl in H; [done|].
  rewrite lookup_insert_eq in H; simpl in H.
  match type of H with
  | ipa_trans_free t ?c = _ =>
      assert (Hm1 : ch_mem c !! t
                    = Some (set_refcount (tr_refcount tr + 1) tr))
  end.
  { destruct (ch_toward_ipa ch); simpl; apply lookup_insert_eq. }
  rewrite (ipa_trans_free_shared _ _ _ Hm1) in H by (simpl; lia).
  injection H as <-.
  split; [by destruct (ch_toward_ipa ch)|].
  split.
  { rewrite lookup_store_eq. simpl. f_equal. lia. }
  split.
  { intros t' Hne. rewrite lookup_store_ne by done.
    destruct (ch_toward_ipa ch); simpl; by rewrite lookup_insert_ne. }
  by destruct (ch_toward_ipa ch).
Qed.

Lemma bam_channel_update_first_complete_witness :
  ∃ t, update_moves_first ch_three_pending_done ch_three_updated t.
Proof. apply bam_channel_update_first_complete. vm_compute. reflexivity. Defined.

(** X14: a poll never ends early.  Whenever the poll routine returns,
    its count is the whole budget (0 for a budget below 0), its state
    is the one its loop left, and the test [count < budget] that
    guards [napi_complete] is false: the routine cannot report that
    nothing is left to poll, since the poll step never returns a null
    transaction. *)
Theorem bam_channel_poll_never_completes_napi
    (ch ch' : ipa_channel) (budget count : Z) :
  bam_channel_poll ch budget = Some (count, ch') →
  count = Z.max 0 budget ∧
  (count <? budget) = false ∧
  bam_channel_poll_loop (Z.to_nat budget) budget 0 ch = Some (count, ch').
Proof.
  unfold bam_channel_poll. intros H.
  destruct (bam_channel_poll_loop _ _ _ _) as [[c ch1]|] eqn:Hl;
    simpl in H; [|done].
  assert (Hc : c = Z.max 0 budget).
  { destruct (Z.le_gt_cases 0 budget).
    - rewrite (bam_channel_poll_loop_full budget (Z.to_nat budget) 0 _ _ _
                 ltac:(lia) Hl).
      lia.
    - replace (Z.to_nat budget) with O in Hl by lia. simpl in Hl.
      destruct (Z.ltb_spec 0 budget); [lia|]. injection Hl as <- <-. lia. }
  assert (Hlt : (c <? budget) = false).
  { destruct (Z.ltb_spec c budget); [lia|done]. }
  rewrite Hlt in H. injection H as <- <-. done.
Qed.

Lemma bam_channel_poll_never_completes_napi_witness :
  2 = Z.max 0 2 ∧
  (2 <? 2) = false ∧
  bam_channel_poll_loop (Z.to_nat 2) 2 0 ch_three_complete
  = Some (2, ch_three_polled_two).
Proof.
  apply (bam_channel_poll_never_completes_napi ch_three_complete).
  vm_compute. reflexivity.
Defined.

(** X15: polls compose.  A poll with the budget [K1] followed by a
    poll with the budget [K2] gives the count and the state of one
    poll with the budget [K1 + K2]. *)
Theorem bam_channel_poll_compose
    (ch ch1 ch2 : ipa_channel) (K1 K2 c1 c2 : Z) :
  0 <= K1 → 0 <= K2 →
  bam_channel_poll ch K1 = Some (c1, ch1) →
  bam_channel_poll ch1 K2 = Some (c2, ch2) →
  bam_channel_poll ch (K1 + K2) = Some (c1 + c2, ch2).
Proof.
  unfold bam_channel_poll. intros HK1 HK2 H1 H2.
  destruct (bam_channel_poll_loop (Z.to_nat K1) _ _ _) as [[a ch1']|] eqn:Hl1;
    simpl in H1; [|done].
  destruct (bam_channel_poll_loop (Z.to_nat K2) _ _ _) as [[b ch2']|] eqn:Hl2;
    simpl in H2; [|done].
  pose proof (bam_channel_poll_loop_full K1 (Z.to_nat K1) 0 _ _ _
                ltac:(lia) Hl1) as ->.
  pose proof (bam_channel_poll_loop_full K2 (Z.to_nat K2) 0 _ _ _
                ltac:(lia) Hl2) as ->.
  rewrite Z.ltb_irrefl in H1, H2.
  injection H1 as <- <-. injection H2 as <- <-.
  replace (Z.to_nat (K1 + K2)) with (Z.to_nat K1 + Z.to_nat K2)%nat by lia.
  rewrite (bam_channel_poll_loop_app K1 K2 _ _ 0 ch ch1')
    by (done || lia).
  pose proof (bam_channel_poll_loop_shift K1 (Z.to_nat K2) K2 0 ch1') as Hs.
  rewrite Z.add_0_l, (Z.add_comm K2 K1), Hl2 in Hs. rewrite Hs. simpl.
  rewrite (Z.add_comm K2 K1), Z.ltb_irrefl. done.
Qed.

Lemma bam_channel_poll_compose_witness :
  bam_channel_poll ch_three_complete (2 + 1)
  = Some (2 + 1, ch_three_polled_three).
Proof.
  apply (bam_channel_poll_compose ch_three_complete ch_three_polled_two);
    [lia | lia | vm_compute; reflexivity | vm_compute; reflexivity].
Defined.

(** ** Commits that wait *)

(** X16: the two outcomes of a commit with a bounded wait.  For a
    transaction that is not empty, whatever the timeout and the tick
    rate: when the completion callback runs during the wait the result
    is 0, the transaction was finalised and was released, once; when
    nothing signals the completion during the wait the result is
    -ETIMEDOUT and the transaction is left with the hardware, on the
    pending list, with the one reference of the callback. *)
Theorem bam_trans_commit_wait_timeout_outcomes
    (HZ timeout left : Z) (t : Z) (ch : ipa_channel) (tr : ipa_trans) :
  ch_mem ch !! t = Some tr →
  trans_ready tr → tr_used tr ≠ 0 →
  tr_refcount tr = 1 → tr_completion tr = 0 →
  wait_timeout_outcomes HZ timeout left t ch.
Proof.
  intros Hm Hready Hu Hr Hc.
  destruct (waiter_commits t ch tr Hm Hready Hr)
    as (ch1 & tr1 & Hcommit & Hm1 & Hr1 & Hc1 & Hst1 & Hlog1).
  assert (Hstart : ∀ during,
    bam_trans_commit_wait_timeout HZ during left t timeout ch
    = r ← wait_for_completion_timeout during left t
           (msecs_to_jiffies HZ timeout) ch1;
      ch4 ← ipa_trans_free t r.2;
      Some (if negb (r.1 =? 0) then 0 else - ETIMEDOUT, ch4)).
  { intros during. unfold bam_trans_commit_wait_timeout.
    rewrite Hm; simpl.
    destruct (Z.eqb_spec (tr_used tr) 0); [done|].
    unfold mbind, option_bind in Hcommit.
    destruct (refcount_inc t ch) as [ch0|]; [|done]. simpl.
    rewrite Hcommit; simpl.
    by destruct (wait_for_completion_timeout _ _ _ _ _) as [[r c]|]. }
  split.
  - destruct (bam_trans_callback_held t ch1 tr1 Hm1 ltac:(lia))
      as (ch2 & tr2 & Hcb & Hm2 & Hr2 & Hc2 & Hti2 & Hrel2 & Hfin2).
    set (ch2' := store_trans t (set_completion (tr_completion tr2 - 1) tr2)
                   ch2).
    assert (Hm2' : ch_mem ch2' !! t
                   = Some (set_completion (tr_completion tr2 - 1) tr2))
      by apply lookup_store_eq.
    destruct (ipa_trans_free_final t ch2' _ Hm2' ltac:(simpl; lia))
      as (ch3 & tr3 & Hf & Hm3 & Hr3 & Hti3 & Hrel3 & Hfin3).
    exists ch3. split.
    + rewrite Hstart. unfold wait_for_completion_timeout.
      rewrite Hm1; simpl.
      destruct (Z.ltb_spec 0 (tr_completion tr1)); [lia|].
      rewrite Hcb; simpl. rewrite Hm2; simpl.
      destruct (Z.ltb_spec 0 (tr_completion tr2)); [|lia].
      simpl. fold ch2'. rewrite Hf; simpl. do 2 f_equal.
      set (l := Z.max 0 (Z.min left (msecs_to_jiffies HZ timeout))).
      assert (0 <= l) by (unfold l; lia).
      destruct (Z.eqb_spec l 0) as [E|E]; [done|].
      by destruct (Z.eqb_spec l 0).
    + split; [split; [|split]|].
      * rewrite Hrel3. unfold ch2'.
        rewrite (releases_log t ch2 (store_trans _ _ ch2)) by done.
        rewrite Hrel2. f_equal. by apply releases_log.
      * by apply (stage_of_unlink t ch2').
      * rewrite Hm3; simpl. by rewrite Hr3.
      * rewrite Hfin3. unfold ch2'.
        rewrite (finalised_log t ch2 (store_trans _ _ ch2)) by done.
        rewrite Hfin2. f_equal. by apply finalised_log.
  - destruct (ipa_trans_free_held t ch1 tr1 Hm1 ltac:(lia))
      as (ch2 & tr2 & Hf & Hm2 & Hr2 & _ & Hti2 & Hlog2).
    exists ch2. split.
    + rewrite Hstart. unfold wait_for_completion_timeout.
      rewrite Hm1; simpl.
      destruct (Z.ltb_spec 0 (tr_completion tr1)); [lia|].
      simpl. rewrite Hm1; simpl.
      destruct (Z.ltb_spec 0 (tr_completion tr1)); [lia|].
      simpl. rewrite Hf; simpl. done.
    + split; [split; [|split]|].
      * apply releases_log. congruence.
      * rewrite (stage_of_ext t ch1 ch2) by done. done.
      * rewrite Hm2; simpl. f_equal. lia.
      * apply finalised_log. congruence.
Qed.

Lemma bam_trans_commit_wait_timeout_outcomes_witness :
  wait_timeout_outcomes 250 1000 7 0 ch_one_filled.
Proof.
  eapply (bam_trans_commit_wait_timeout_outcomes 250 1000 7 0 ch_one_filled).
  - vm_compute. reflexivity.
  - vm_compute. repeat split; (discriminate || lia).
  - vm_compute. discriminate.
  - reflexivity.
  - reflexivity.
Defined.

(** X17: a commit with a wait of an empty transaction does not wait.
    With no entry used, both waiting commits are the release of the
    caller's reference alone, whatever would happen during a wait and
    whatever the timeout; the bounded one returns 0; nothing reaches
    the DMA channel, and a transaction with the one reference of its
    allocation is released. *)
Theorem bam_trans_commit_wait_empty
    (HZ timeout left : Z) (during : ipa_channel → option ipa_channel)
    (t : Z) (ch : ipa_channel) (tr : ipa_trans) :
  ch_mem ch !! t = Some tr →
  tr_used tr = 0 →
  tr_refcount tr = 1 →
  ∃ ch',
    bam_trans_commit_wait during t ch = Some ch' ∧
    bam_trans_commit_wait_timeout HZ during left t timeout ch
    = Some (0, ch') ∧
    ipa_trans_free t ch = Some ch' ∧
    ch_priv ch' = ch_priv ch ∧
    releases t ch' = S (releases t ch) ∧
    stage_of ch' t = Freed.
Proof.
  intros Hm Hu Hr.
  destruct (ipa_trans_free_final t ch tr Hm Hr)
    as (ch' & tr' & Hf & Hm' & Hr' & Hti & Hrel & _).
  exists ch'.
  unfold bam_trans_commit_wait, bam_trans_commit_wait_timeout.
  rewrite Hm; simpl. rewrite Hu; simpl. rewrite Hf; simpl.
  repeat split; try done.
  - by apply (ipa_trans_free_frame t ch ch').
  - by apply (stage_of_unlink t ch).
Qed.

Lemma bam_trans_commit_wait_empty_witness :
  ∃ ch',
    bam_trans_commit_wait (λ _, None) 0 ch_one_alloc = Some ch' ∧
    bam_trans_commit_wait_timeout 250 (λ _, None) 7 0 1000 ch_one_alloc
    = Some (0, ch') ∧
    ipa_trans_free 0 ch_one_alloc = Some ch' ∧
    ch_priv ch' = ch_priv ch_one_alloc ∧
    releases 0 ch' = S (releases 0 ch_one_alloc) ∧
    stage_of ch' 0 = Freed.
Proof.
  eapply (bam_trans_commit_wait_empty 250 1000 7 (λ _, None) 0 ch_one_alloc);
    vm_compute; reflexivity.
Defined.

(** ** The channels of the transport *)

(** A count-down from inside the array visits every index below. *)
Lemma bam_count_down_all body events n : ∀ log,
  Z.of_nat n < IPA_CHANNEL_COUNT_MAX →
  (∀ channel_id l, 0 <= channel_id < IPA_CHANNEL_COUNT_MAX →
                   body channel_id l = Some (l ++ events channel_id)) →
  bam_count_down body n log = Some (log ++ (ids_down (S n) ≫= events)).
Proof.
  intros log Hn Hbody. revert log.
  induction n as [|n IH]; intros log; simpl.
  - rewrite Hbody by (unfold IPA_CHANNEL_COUNT_MAX; lia). simpl.
    by rewrite app_nil_r.
  - rewrite Hbody by lia. simpl. rewrite IH by lia.
    by rewrite <- app_assoc.
Qed.

Section TransportLemmas.
Variable chans : list bam_channel_slot.
Hypothesis Hlen : length chans = Z.to_nat IPA_CHANNEL_COUNT_MAX.

Lemma bam_channel_at_in channel_id :
  0 <= channel_id < IPA_CHANNEL_COUNT_MAX →
  is_Some (bam_channel_at chans channel_id).
Proof.
  intros H. unfold bam_channel_at.
  destruct (Z.leb_spec 0 channel_id); [|lia].
  destruct (Z.ltb_spec channel_id IPA_CHANNEL_COUNT_MAX); [|lia].
  simpl. apply lookup_lt_is_Some. lia.
Qed.

Lemma bam_channel_at_out channel_id :
  IPA_CHANNEL_COUNT_MAX <= channel_id →
  bam_channel_at chans channel_id = None.
Proof.
  intros H. unfold bam_channel_at.
  destruct (Z.ltb_spec channel_id IPA_CHANNEL_COUNT_MAX); [lia|].
  by rewrite andb_false_r.
Qed.

Lemma bam_channel_setup_one_in channel_id log :
  0 <= channel_id < IPA_CHANNEL_COUNT_MAX →
  bam_channel_setup_one chans channel_id log
  = Some (log ++ setup_events chans channel_id).
Proof.
  intros H. destruct (bam_channel_at_in _ H) as [c Hc].
  unfold bam_channel_setup_one, setup_events. rewrite Hc; simpl.
  destruct (bs_transport c); simpl; [done|by rewrite app_nil_r].
Qed.

Lemma bam_channel_teardown_one_in channel_count channel_id log :
  0 <= channel_id < IPA_CHANNEL_COUNT_MAX →
  bam_channel_teardown_one chans channel_count channel_id log
  = Some (log ++ teardown_events chans channel_id).
Proof.
  intros H. destruct (bam_channel_at_in _ H) as [c Hc].
  unfold bam_channel_teardown_one, bam_channel_transport_at,
    teardown_events.
  destruct (Z.eqb_spec channel_id IPA_CHANNEL_COUNT_MAX); [lia|].
  rewrite Hc; simpl.
  destruct (bs_transport c); simpl; [done|by rewrite app_nil_r].
Qed.

Lemma bam_channel_exit_one_in channel_id log :
  0 <= channel_id < IPA_CHANNEL_COUNT_MAX →
  bam_channel_exit_one chans channel_id log
  = Some (log ++ exit_events chans channel_id).
Proof.
  intros H. destruct (bam_channel_at_in _ H) as [c Hc].
  unfold bam_channel_exit_one, exit_events. rewrite Hc; simpl.
  destruct (bs_priv c); simpl; [done|by rewrite app_nil_r].
Qed.

(** The first loop of the set-up runs to the end of the array. *)
Lemma bam_channel_setup_loop_all m : ∀ n channel_id log,
  0 <= channel_id →
  channel_id + Z.of_nat m + 1 = BAM_CHANNEL_COUNT_MAX →
  (m <= n)%nat →
  bam_channel_setup_loop chans n channel_id log
  = Some (BAM_CHANNEL_COUNT_MAX,
          log ++ (ids_up channel_id (S m) ≫= setup_events chans)).
Proof.
  induction m as [|m IH]; intros n channel_id log H0 Hm Hn.
  - destruct n; simpl;
      rewrite bam_channel_setup_one_in by (unfold IPA_CHANNEL_COUNT_MAX,
        BAM_CHANNEL_COUNT_MAX in *; lia); simpl;
      (destruct (Z.ltb_spec (channel_id + 1) BAM_CHANNEL_COUNT_MAX);
       [lia|]); rewrite app_nil_r; do 2 f_equal; lia.
  - destruct n as [|n]; [lia|]. simpl.
    rewrite bam_channel_setup_one_in by (unfold IPA_CHANNEL_COUNT_MAX,
      BAM_CHANNEL_COUNT_MAX in *; lia). simpl.
    destruct (Z.ltb_spec (channel_id + 1) BAM_CHANNEL_COUNT_MAX); [|lia].
    rewrite IH by lia. by rewrite <- app_assoc.
Qed.

End TransportLemmas.

(** X18: the set-up of the channels.  For the array of the twenty
    channels of a transport, bam_channel_setup returns 0: between
    taking and releasing the mutex it visits the channels 0 to 19 in
    this order and, for each one that was initialised, adds its NAPI
    context (the TX variant for a channel toward the IPA), schedules
    and enables it.  Its first loop leaves the index at
    BAM_CHANNEL_COUNT_MAX, so the loop that looks for unsupported
    channels examines none, whatever the channels, and the error path
    is never taken. *)
Theorem bam_channel_setup_returns_0
    (chans : list bam_channel_slot) (channel_count : Z) :
  length chans = Z.to_nat IPA_CHANNEL_COUNT_MAX →
  bam_channel_setup chans channel_count
  = Some (SetupReturns 0,
          [TeMutexLock]
            ++ (ids_up 0 (Z.to_nat BAM_CHANNEL_COUNT_MAX)
                  ≫= setup_events chans)
            ++ [TeMutexUnlock]) ∧
  (∃ log,
      bam_channel_setup_loop chans (Z.to_nat BAM_CHANNEL_COUNT_MAX) 0
        [TeMutexLock]
      = Some (BAM_CHANNEL_COUNT_MAX, log)) ∧
  ∀ n, bam_channel_setup_check chans n BAM_CHANNEL_COUNT_MAX = Some None.
Proof.
  intros Hlen.
  pose proof (bam_channel_setup_loop_all chans Hlen 19
                (Z.to_nat BAM_CHANNEL_COUNT_MAX) 0 [TeMutexLock]
                ltac:(lia) ltac:(reflexivity)
                ltac:(unfold BAM_CHANNEL_COUNT_MAX; lia)) as Hl.
  assert (Hc : ∀ n,
             bam_channel_setup_check chans n BAM_CHANNEL_COUNT_MAX
             = Some None).
  { intros n. by destruct n. }
  split; [|split; [by eexists|done]].
  unfold bam_channel_setup. rewrite Hl.
  change (Some (BAM_CHANNEL_COUNT_MAX, ?l) ≫= ?f) with (f (BAM_CHANNEL_COUNT_MAX, l)).
  cbv beta iota. rewrite Hc. simpl. by rewrite <- app_assoc.
Qed.

Lemma bam_channel_setup_returns_0_witness :
  bam_channel_setup chans_example 0
  = Some (SetupReturns 0,
          [TeMutexLock]
            ++ (ids_up 0 (Z.to_nat BAM_CHANNEL_COUNT_MAX)
                  ≫= setup_events chans_example)
            ++ [TeMutexUnlock]) ∧
  (∃ log,
      bam_channel_setup_loop chans_example (Z.to_nat BAM_CHANNEL_COUNT_MAX) 0
        [TeMutexLock]
      = Some (BAM_CHANNEL_COUNT_MAX, log)) ∧
  ∀ n, bam_channel_setup_check chans_example n BAM_CHANNEL_COUNT_MAX
       = Some None.
Proof. apply (bam_channel_setup_returns_0 chans_example 0). reflexivity. Defined.

(** X19: the tear-down starts one past the array.  The loop of
    bam_channel_teardown starts with the index BAM_CHANNEL_COUNT_MAX,
    and the array of a transport has IPA_CHANNEL_COUNT_MAX channels,
    which is the same number: index 20 is no channel of the array, and
    what the first round reads as the [transport] of a channel is the
    [channel_count] of the transport, which follows the array.  With a
    [channel_count] of 0, as the allocation of the transport leaves
    it, that round takes the channel for one that was not initialised
    and does nothing, and the tear-down goes on to the channels 19 to
    0, removes the NAPI context of each initialised one and returns,
    holding the mutex from the first to the last.  With any other
    [channel_count] the first round goes on to delete a NAPI context
    that is no channel's, and the tear-down has no defined result. *)
Theorem bam_channel_teardown_reads_channel_count
    (chans : list bam_channel_slot) (channel_count : Z) :
  length chans = Z.to_nat IPA_CHANNEL_COUNT_MAX →
  bam_channel_at chans BAM_CHANNEL_COUNT_MAX = None ∧
  bam_channel_transport_at chans channel_count BAM_CHANNEL_COUNT_MAX
  = Some (negb (u32 channel_count =? 0)) ∧
  bam_channel_teardown chans channel_count
  = (if u32 channel_count =? 0
     then Some ([TeMutexLock]
                  ++ (ids_down (Z.to_nat BAM_CHANNEL_COUNT_MAX)
                        ≫= teardown_events chans)
                  ++ [TeMutexUnlock])
     else None).
Proof.
  intros Hlen.
  assert (Ho : bam_channel_at chans BAM_CHANNEL_COUNT_MAX = None)
    by (apply bam_channel_at_out; done).
  split; [done|]. split; [done|].
  assert (Hfirst : ∀ log,
             bam_channel_teardown_one chans channel_count
               BAM_CHANNEL_COUNT_MAX log
             = if u32 channel_count =? 0 then Some log else None).
  { intros log. unfold bam_channel_teardown_one, bam_channel_transport_at.
    change (BAM_CHANNEL_COUNT_MAX =? IPA_CHANNEL_COUNT_MAX) with true.
    cbv iota. destruct (u32 channel_count =? 0); [done|].
    cbn [negb]. cbv iota. change (Some true ≫= ?f) with (f true).
    cbv beta iota. cbn [negb]. by rewrite Ho. }
  unfold bam_channel_teardown.
  change (bam_count_down ?b (Z.to_nat BAM_CHANNEL_COUNT_MAX) ?l)
    with (b BAM_CHANNEL_COUNT_MAX l ≫= bam_count_down b 19).
  rewrite Hfirst.
  destruct (u32 channel_count =? 0); [|done].
  change (Some ?l ≫= ?f) with (f l).
  rewrite (bam_count_down_all
             (bam_channel_teardown_one chans channel_count)
             (teardown_events chans) 19 [TeMutexLock]); [|done|].
  - simpl. by rewrite <- app_assoc.
  - intros. by apply bam_channel_teardown_one_in.
Qed.

Lemma bam_channel_teardown_reads_channel_count_witness :
  bam_channel_at chans_example BAM_CHANNEL_COUNT_MAX = None ∧
  bam_channel_transport_at chans_example 0 BAM_CHANNEL_COUNT_MAX
  = Some (negb (u32 0 =? 0)) ∧
  bam_channel_teardown chans_example 0
  = (if u32 0 =? 0
     then Some ([TeMutexLock]
                  ++ (ids_down (Z.to_nat BAM_CHANNEL_COUNT_MAX)
                        ≫= teardown_events chans_example)
                  ++ [TeMutexUnlock])
     else None).
Proof.
  apply (bam_channel_teardown_reads_channel_count chans_example 0).
  reflexivity.
Defined.

Section ExitLemmas.
Variable chans : list bam_channel_slot.

Lemma dma_releases_app channel_id l1 l2 :
  dma_releases channel_id (l1 ++ l2)
  = (dma_releases channel_id l1 + dma_releases channel_id l2)%nat.
Proof. unfold dma_releases. by rewrite filter_app, length_app. Qed.

Lemma exit_events_releases channel_id k :
  dma_releases channel_id (exit_events chans k)
  = if decide (k = channel_id)
    then (if bs_priv <$> bam_channel_at chans k is Some true
          then 1 else 0)%nat
    else O.
Proof.
  unfold dma_releases, exit_events.
  destruct (bam_channel_at chans k) as [c|]; simpl.
  - destruct (bs_priv c); simpl.
    + rewrite !filter_cons, filter_nil.
      repeat case_decide; simplify_eq; done.
    + by case_decide.
  - by case_decide.
Qed.

Lemma ids_down_bound n x : x ∈ ids_down n → 0 <= x < Z.of_nat n.
Proof.
  induction n as [|n IH]; simpl; intros H.
  - by apply elem_of_nil in H.
  - apply elem_of_cons in H as [->|H]; [lia|]. apply IH in H. lia.
Qed.

Lemma exit_releases_absent channel_id ids :
  channel_id ∉ ids →
  dma_releases channel_id (ids ≫= exit_events chans) = O.
Proof.
  induction ids as [|k ids IH]; intros H; [done|].
  apply not_elem_of_cons in H as [Hne Hni].
  change ((k :: ids) ≫= exit_events chans)
    with (exit_events chans k ++ (ids ≫= exit_events chans)).
  rewrite dma_releases_app, exit_events_releases, IH by done.
  by rewrite decide_False by done.
Qed.

Lemma exit_releases_once channel_id n :
  0 <= channel_id < Z.of_nat n →
  dma_releases channel_id (ids_down n ≫= exit_events chans)
  = (if bs_priv <$> bam_channel_at chans channel_id is Some true
     then 1 else 0)%nat.
Proof.
  induction n as [|n IH]; intros H; [lia|].
  change (ids_down (S n) ≫= exit_events chans)
    with (exit_events chans (Z.of_nat n)
            ++ (ids_down n ≫= exit_events chans)).
  rewrite dma_releases_app, exit_events_releases.
  destruct (decide (Z.of_nat n = channel_id)) as [<-|Hne].
  - rewrite exit_releases_absent; [lia|].
    intros Hin. apply ids_down_bound in Hin. lia.
  - rewrite IH by lia. done.
Qed.

End ExitLemmas.

(** X20: the exit of the channels.  bam_exit destroys the mutex and
    then visits the channels 19 to 0, in this order and each once;
    for each channel that has its DMA channel it terminates the
    transfers and then releases the DMA channel, and it leaves the
    others alone: the DMA channel of every channel of the array is
    released once if the channel has one, and never otherwise. *)
Theorem bam_exit_releases_each_once (chans : list bam_channel_slot) :
  length chans = Z.to_nat IPA_CHANNEL_COUNT_MAX →
  bam_exit chans
  = Some (TeMutexDestroy
            :: (ids_down (Z.to_nat BAM_CHANNEL_COUNT_MAX)
                  ≫= exit_events chans)) ∧
  ∀ channel_id log,
    0 <= channel_id < BAM_CHANNEL_COUNT_MAX →
    bam_exit chans = Some log →
    dma_releases channel_id log
    = (if bs_priv <$> bam_channel_at chans channel_id is Some true
       then 1 else 0)%nat.
Proof.
  intros Hlen.
  assert (He : bam_exit chans
               = Some (TeMutexDestroy
                         :: (ids_down (Z.to_nat BAM_CHANNEL_COUNT_MAX)
                               ≫= exit_events chans))).
  { unfold bam_exit, bam_channel_exit.
    change (Z.to_nat (BAM_CHANNEL_COUNT_MAX - 1)) with 19%nat.
    rewrite (bam_count_down_all (bam_channel_exit_one chans)
               (exit_events chans) 19 []); [done|done|].
    intros. by apply bam_channel_exit_one_in. }
  split; [done|].
  intros channel_id log Hid Hlog. rewrite He in Hlog.
  assert (Hl : log = [TeMutexDestroy]
                       ++ (ids_down (Z.to_nat BAM_CHANNEL_COUNT_MAX)
                             ≫= exit_events chans))
    by (symmetry; exact (Some_inj _ _ Hlog)).
  rewrite Hl, dma_releases_app.
  rewrite exit_releases_once by (unfold BAM_CHANNEL_COUNT_MAX in *; lia).
  done.
Qed.

Lemma bam_exit_releases_each_once_witness :
  bam_exit chans_example
  = Some (TeMutexDestroy
            :: (ids_down (Z.to_nat BAM_CHANNEL_COUNT_MAX)
                  ≫= exit_events chans_example)) ∧
  ∀ channel_id log,
    0 <= channel_id < BAM_CHANNEL_COUNT_MAX →
    bam_exit chans_example = Some log →
    dma_releases channel_id log
    = (if bs_priv <$> bam_channel_at chans_example channel_id is Some true
       then 1 else 0)%nat.
Proof. apply (bam_exit_releases_each_once chans_example). reflexivity. Defined.

(** ** The shared-memory DMA command and the completion callback *)

(** X21: the addresses of a shared-memory DMA command.  Under the
    conditions the encoders ask for in their comments (the size and
    the offset, with the offset of the IPA memory added, fit 16 bits),
    both layouts carry the size as given and the local address
    [offset + mem_offset]; the v3 layout carries the 64 bits of the
    system address, the v2 layout its low 32 bits only; the entry is
    handed on with the opcode of the command, toward the device for a
    write to the IPA and from the device for a read. *)
Theorem dma_shared_mem_addresses
    (IPA_CMD_DMA_SHARED_MEM mem_offset offset size addr : Z)
    (toward_ipa : bool) :
  0 <= mem_offset → 0 <= offset → offset + mem_offset < 2 ^ 16 →
  0 <= size < 2 ^ 16 → 0 <= addr < 2 ^ 64 →
  let e2 := ipa_v2_cmd_dma_shared_mem_add IPA_CMD_DMA_SHARED_MEM
              mem_offset offset size addr toward_ipa in
  let e3 := ipa_v3_cmd_dma_shared_mem_add IPA_CMD_DMA_SHARED_MEM
              mem_offset offset size addr toward_ipa in
  (dm2_size (ce_payload e2) = size ∧
   dm2_local_addr (ce_payload e2) = offset + mem_offset ∧
   dm2_system_addr (ce_payload e2) = addr mod 2 ^ 32) ∧
  (dm_size (ce_payload e3) = size ∧
   dm_local_addr (ce_payload e3) = offset + mem_offset ∧
   dm_system_addr (ce_payload e3) = addr) ∧
  ce_direction e2 = (if toward_ipa then DMA_TO_DEVICE else DMA_FROM_DEVICE) ∧
  ce_direction e3 = ce_direction e2 ∧
  ce_opcode e2 = IPA_CMD_DMA_SHARED_MEM ∧
  ce_opcode e3 = IPA_CMD_DMA_SHARED_MEM.
Proof.
  intros Hm Ho Hfit Hs Ha e2 e3. subst e2 e3.
  unfold ipa_v2_cmd_dma_shared_mem_add, ipa_v3_cmd_dma_shared_mem_add,
    cpu_to_le16, cpu_to_le32, cpu_to_le64.
  cbn [ce_payload ce_direction ce_opcode dm2_size dm2_local_addr
       dm2_system_addr dm_size dm_local_addr dm_system_addr].
  rewrite (u32_small (offset + mem_offset)) by lia.
  rewrite (u16_small (offset + mem_offset)) by lia.
  rewrite (u16_small size) by lia.
  rewrite (u64_small addr) by lia.
  repeat split; try done.
  rewrite (u32_small (offset + mem_offset)) by lia.
  apply u16_small. lia.
Qed.

Lemma dma_shared_mem_addresses_witness :
  let e2 := ipa_v2_cmd_dma_shared_mem_add 19 0x280 0x100 64
              0x1234567890 false in
  let e3 := ipa_v3_cmd_dma_shared_mem_add 19 0x280 0x100 64
              0x1234567890 false in
  (dm2_size (ce_payload e2) = 64 ∧
   dm2_local_addr (ce_payload e2) = 0x100 + 0x280 ∧
   dm2_system_addr (ce_payload e2) = 0x1234567890 mod 2 ^ 32) ∧
  (dm_size (ce_payload e3) = 64 ∧
   dm_local_addr (ce_payload e3) = 0x100 + 0x280 ∧
   dm_system_addr (ce_payload e3) = 0x1234567890) ∧
  ce_direction e2 = DMA_FROM_DEVICE ∧
  ce_direction e3 = ce_direction e2 ∧
  ce_opcode e2 = 19 ∧
  ce_opcode e3 = 19.
Proof.
  apply (dma_shared_mem_addresses 19 0x280 0x100 64 0x1234567890 false);
    lia.
Defined.

(** X22: what the completion callback does.  For a transaction that
    is still referenced, the callback has a result: it unmaps the
    [used] entries unless the direction is DMA_NONE, then runs the
    finalisation, and releases the transaction if it held the last
    reference, in this order; it adds one to the completion and takes
    one from the reference count; and it sets the length of the
    transaction to 8128, whatever the transaction had recorded. *)
Theorem bam_trans_callback_effects (t : Z) (ch : ipa_channel)
    (tr : ipa_trans) :
  ch_mem ch !! t = Some tr →
  0 < tr_refcount tr →
  ∃ ch' tr',
    bam_trans_callback t ch = Some ch' ∧
    ch_mem ch' !! t = Some tr' ∧
    tr_len tr' = 8128 ∧
    tr_completion tr' = tr_completion tr + 1 ∧
    tr_refcount tr' = tr_refcount tr - 1 ∧
    ch_log ch'
    = ch_log ch
        ++ (if direction_is_none (tr_direction tr) then []
            else [EvUnmap t (tr_used tr)])
        ++ [EvGsiComplete t]
        ++ (if tr_refcount tr =? 1 then [EvRelease t] else []).
Proof.
  intros Hm Hr. unfold bam_trans_callback. rewrite Hm; simpl.
  unfold complete, ipa_gsi_trans_complete, ipa_trans_free.
  destruct (direction_is_none (tr_direction tr)); simpl;
    rewrite lookup_insert_eq; simpl;
    rewrite lookup_insert_eq; simpl;
    (destruct (Z.leb_spec (tr_refcount tr) 0); [lia|]);
    destruct (Z.eqb_spec (tr_refcount tr - 1) 0) as [E|E];
    destruct (Z.eqb_spec (tr_refcount tr) 1); try lia;
    eexists _, _; (split; [reflexivity|]); simpl;
    rewrite lookup_insert_eq; (split; [reflexivity|]); simpl;
    repeat split; by rewrite ?app_nil_r, <- ?app_assoc.
Qed.

Lemma bam_trans_callback_effects_witness :
  ∃ ch' tr',
    bam_trans_callback 0 ch_one_committed = Some ch' ∧
    ch_mem ch' !! 0 = Some tr' ∧
    tr_len tr' = 8128 ∧
    tr_completion tr' = tr_completion tr_one_committed + 1 ∧
    tr_refcount tr' = tr_refcount tr_one_committed - 1 ∧
    ch_log ch'
    = ch_log ch_one_committed
        ++ (if direction_is_none (tr_direction tr_one_committed) then []
            else [EvUnmap 0 (tr_used tr_one_committed)])
        ++ [EvGsiComplete 0]
        ++ (if tr_refcount tr_one_committed =? 1 then [EvRelease 0] else []).
Proof.
  apply (bam_trans_callback_effects 0 ch_one_committed tr_one_committed);
    vm_compute; reflexivity.
Defined.
